(** * A shallow embedding of the finite-volume local-assembly kernel

    The development follows the C++ sources file by file:

    - [ElemCtx]   : dumux/boxmodels/common/boxelementcontext.hh
    - [Ecfv]      : opm/models/discretization/ecfv/ecfvdiscretization.hh
    - [LinAlg]    : the operations of Dune's dense vectors and matrices
                    that the two files below use
    - [OnePTwoC]  : dumux/boxmodels/1p2c/1p2clocalresidual.hh
    - [FVPressure]: dumux/decoupled/1p/diffusion/fv/fvpressure1p.hh
    - [UpwindTie] : the behaviour of the last two at a tie of the upwind
                    choice
    - [EclAlu]    : applications/ebos/eclalugridmanager.hh

    Conventions.  The template parameters of the C++ classes (the types
    pulled out of the [TypeTag]) are section variables.  [Scalar] is read
    as exact rational arithmetic ([Q], compared with [==]); rounding is
    not modelled.  A [std::vector] is a [list] accessed with stdpp's
    lookup and update; a fixed-size C array indexed by the time level is
    a total function on time indices, of which only the indices below
    the history size are meaningful. *)

From Stdlib Require Import QArith Qabs Qround Lqa Field ZArith Lia.
From stdpp Require Import base option list functions.

(* ===================================================================== *)
(** ** boxelementcontext.hh *)
(* ===================================================================== *)

Module ElemCtx.
Section ElementContext.

Variables PrimaryVariables VolumeVariables FluxVariables Element : Type.

(** [GET_PROP_VALUE(TypeTag, TimeDiscHistorySize)] *)
Variable timeDiscHistorySize : nat.

(** Default-constructed objects, used by [std::vector::resize]. *)
Variable defaultPriVars : PrimaryVariables.
Variable defaultVolVars : VolumeVariables.
Variable defaultFluxVars : FluxVariables.

(** [struct ScvStore_]: three arrays indexed by the time level. *)
Record ScvStore_ := MkScvStore {
  store_volVars : nat -> VolumeVariables;
  store_priVars : nat -> PrimaryVariables;
  store_hint : nat -> option VolumeVariables
}.

Definition defaultScvStore : ScvStore_ :=
  MkScvStore (fun _ => defaultVolVars) (fun _ => defaultPriVars) (fun _ => None).

(** The part of [FVElementGeometry] the context reads. *)
Record FVElementGeometry := MkGeom {
  numVertices : nat;
  numEdges : nat
}.

(** [scvfVarsEval_] points either at [scvfVars_] or at [scvfVarsSaved_]. *)
Inductive EvalPoint := EvalCurrent | EvalSaved.

(** Calls into the external collaborators, in program order.  The log
    is ghost state: nothing in the context reads it. *)
Inductive Call :=
| CallGeomUpdate (elem : Element)
| CallVolVarsUpdate (scvIdx timeIdx : nat)
| CallFluxVarsUpdate (scvfIdx timeIdx : nat).

Record BoxElementContext := MkCtx {
  scvVars_ : list ScvStore_;
  scvIdxSaved_ : Z;
  scvVarsSaved_ : VolumeVariables;
  priVarsSaved_ : PrimaryVariables;
  scvfVars_ : list FluxVariables;
  scvfVarsSaved_ : list FluxVariables;
  scvfVarsEval_ : EvalPoint;
  elemPtr_ : option Element;
  fvElemGeom_ : FVElementGeometry;
  callLog : list Call
}.

(** External collaborators. *)
Variable fvGeomUpdate : Element -> FVElementGeometry.
Variable vertexMap : Element -> nat -> nat.
Variable solution : nat -> nat -> PrimaryVariables.
Variable modelHint : nat -> nat -> option VolumeVariables.
Variable volVarsUpdate :
  BoxElementContext -> nat -> nat -> VolumeVariables -> VolumeVariables.
Variable fluxVarsUpdate :
  BoxElementContext -> nat -> nat -> FluxVariables -> FluxVariables.

(** Field setters. *)
Definition set_scvVars (v : list ScvStore_) (c : BoxElementContext) :=
  MkCtx v (scvIdxSaved_ c) (scvVarsSaved_ c) (priVarsSaved_ c) (scvfVars_ c)
        (scvfVarsSaved_ c) (scvfVarsEval_ c) (elemPtr_ c) (fvElemGeom_ c) (callLog c).
Definition set_scvfVars (v : list FluxVariables) (c : BoxElementContext) :=
  MkCtx (scvVars_ c) (scvIdxSaved_ c) (scvVarsSaved_ c) (priVarsSaved_ c) v
        (scvfVarsSaved_ c) (scvfVarsEval_ c) (elemPtr_ c) (fvElemGeom_ c) (callLog c).
Definition set_scvfVarsEval (v : EvalPoint) (c : BoxElementContext) :=
  MkCtx (scvVars_ c) (scvIdxSaved_ c) (scvVarsSaved_ c) (priVarsSaved_ c) (scvfVars_ c)
        (scvfVarsSaved_ c) v (elemPtr_ c) (fvElemGeom_ c) (callLog c).
Definition set_scvfVarsSaved (v : list FluxVariables) (c : BoxElementContext) :=
  MkCtx (scvVars_ c) (scvIdxSaved_ c) (scvVarsSaved_ c) (priVarsSaved_ c) (scvfVars_ c)
        v (scvfVarsEval_ c) (elemPtr_ c) (fvElemGeom_ c) (callLog c).
Definition logCall (e : Call) (c : BoxElementContext) :=
  MkCtx (scvVars_ c) (scvIdxSaved_ c) (scvVarsSaved_ c) (priVarsSaved_ c) (scvfVars_ c)
        (scvfVarsSaved_ c) (scvfVarsEval_ c) (elemPtr_ c) (fvElemGeom_ c) (callLog c ++ [e]).

(** [std::vector::resize(n)], called only with [n] above the size. *)
Definition resize {A} (d : A) (n : nat) (l : list A) : list A :=
  take n l ++ replicate (n - length l) d.

Definition numScv (c : BoxElementContext) : nat := numVertices (fvElemGeom_ c).
Definition numScvf (c : BoxElementContext) : nat := numEdges (fvElemGeom_ c).

Definition updateFVElemGeom (elem : Element) (c : BoxElementContext) : BoxElementContext :=
  let g := fvGeomUpdate elem in
  let sv := if decide (length (scvVars_ c) < numVertices g)
            then resize defaultScvStore (numVertices g) (scvVars_ c)
            else scvVars_ c in
  let sf := if decide (length (scvfVars_ c) < numEdges g)
            then resize defaultFluxVars (numEdges g) (scvfVars_ c)
            else scvfVars_ c in
  MkCtx sv (scvIdxSaved_ c) (scvVarsSaved_ c) (priVarsSaved_ c) sf
        (scvfVarsSaved_ c) (scvfVarsEval_ c) (Some elem) g
        (callLog c ++ [CallGeomUpdate elem]).

(** [updateScvVars(priVars, scvIdx, timeIdx)]: the primary variables
    are stored first, then [VolumeVariables::update] reads the
    context. *)
Definition updateScvVars3 (priVars : PrimaryVariables) (scvIdx timeIdx : nat)
    (c : BoxElementContext) : BoxElementContext :=
  let c1 := set_scvVars
    (alter (fun s => MkScvStore (store_volVars s)
                                (<[timeIdx := priVars]> (store_priVars s))
                                (store_hint s)) scvIdx (scvVars_ c)) c in
  logCall (CallVolVarsUpdate scvIdx timeIdx)
    (set_scvVars
      (alter (fun s => MkScvStore
                (<[timeIdx := volVarsUpdate c1 scvIdx timeIdx (store_volVars s timeIdx)]>
                   (store_volVars s))
                (store_priVars s) (store_hint s)) scvIdx (scvVars_ c1)) c1).

(** One iteration of the loop of [updateScvVars(timeIdx)]. *)
Definition updateScvVarsStep (elem : Element) (timeIdx : nat)
    (c : BoxElementContext) (scvIdx : nat) : BoxElementContext :=
  let globalIdx := vertexMap elem scvIdx in
  let scvSol := solution timeIdx globalIdx in
  let c1 := set_scvVars
    (alter (fun s => MkScvStore (store_volVars s) (store_priVars s)
              (<[timeIdx := modelHint globalIdx timeIdx]> (store_hint s)))
           scvIdx (scvVars_ c)) c in
  updateScvVars3 scvSol scvIdx timeIdx c1.

(** [updateScvVars(timeIdx)].  The source dereferences the element
    pointer; it is bound by [updateFVElemGeom]. *)
Definition updateScvVars (timeIdx : nat) (c : BoxElementContext) : BoxElementContext :=
  match elemPtr_ c with
  | None => c
  | Some elem => fold_left (updateScvVarsStep elem timeIdx) (seq 0 (numScv c)) c
  end.

Definition updateAllScvVars (c : BoxElementContext) : BoxElementContext :=
  fold_left (fun c timeIdx => updateScvVars timeIdx c) (seq 0 timeDiscHistorySize) c.

(** One iteration of the loop of [updateAllScvfVars]. *)
Definition updateScvfVarsStep (c : BoxElementContext) (scvfIdx : nat) : BoxElementContext :=
  logCall (CallFluxVarsUpdate scvfIdx 0)
    (set_scvfVars (alter (fluxVarsUpdate c scvfIdx 0) scvfIdx (scvfVars_ c)) c).

Definition updateAllScvfVars (c : BoxElementContext) : BoxElementContext :=
  let c0 := set_scvfVarsEval EvalCurrent c in
  fold_left updateScvfVarsStep (seq 0 (numScvf c0)) c0.

Definition updateAll (elem : Element) (c : BoxElementContext) : BoxElementContext :=
  updateAllScvfVars (updateAllScvVars (updateFVElemGeom elem c)).

Definition saveScvfVars (c : BoxElementContext) : BoxElementContext :=
  set_scvfVarsEval EvalSaved (set_scvfVarsSaved (scvfVars_ c) c).

Definition restoreScvfVars (c : BoxElementContext) : BoxElementContext :=
  set_scvfVarsEval EvalCurrent c.

(** Accessors.  An index outside the vector has no defined result in
    the source; the model answers [None]. *)
Definition volVars (c : BoxElementContext) (scvIdx timeIdx : nat) : option VolumeVariables :=
  s ← scvVars_ c !! scvIdx; Some (store_volVars s timeIdx).

Definition primaryVars (c : BoxElementContext) (scvIdx timeIdx : nat) : option PrimaryVariables :=
  s ← scvVars_ c !! scvIdx; Some (store_priVars s timeIdx).

Definition hint (c : BoxElementContext) (scvIdx timeIdx : nat) : option VolumeVariables :=
  s ← scvVars_ c !! scvIdx; store_hint s timeIdx.

Definition saveScvVars (scvIdx : nat) (c : BoxElementContext) : option BoxElementContext :=
  s ← scvVars_ c !! scvIdx;
  Some (MkCtx (scvVars_ c) (Z.of_nat scvIdx) (store_volVars s 0) (store_priVars s 0)
              (scvfVars_ c) (scvfVarsSaved_ c) (scvfVarsEval_ c) (elemPtr_ c)
              (fvElemGeom_ c) (callLog c)).

Definition restoreScvVars (scvIdx : nat) (c : BoxElementContext) : option BoxElementContext :=
  s ← scvVars_ c !! scvIdx;
  Some (MkCtx (<[scvIdx := MkScvStore (<[0%nat := scvVarsSaved_ c]> (store_volVars s))
                                      (<[0%nat := priVarsSaved_ c]> (store_priVars s))
                                      (store_hint s)]> (scvVars_ c))
              (-1) (scvVarsSaved_ c) (priVarsSaved_ c)
              (scvfVars_ c) (scvfVarsSaved_ c) (scvfVarsEval_ c) (elemPtr_ c)
              (fvElemGeom_ c) (callLog c)).

Definition fluxVars (c : BoxElementContext) (scvfIdx timeIdx : nat) : option FluxVariables :=
  scvfVars_ c !! scvfIdx.

Definition evalPointFluxVars (c : BoxElementContext) (scvfIdx timeIdx : nat)
    : option FluxVariables :=
  if decide (timeIdx ≠ 0%nat) then fluxVars c scvfIdx timeIdx
  else match scvfVarsEval_ c with
       | EvalCurrent => scvfVars_ c !! scvfIdx
       | EvalSaved => scvfVarsSaved_ c !! scvfIdx
       end.

Definition evalPointVolVars (c : BoxElementContext) (scvIdx timeIdx : nat)
    : option VolumeVariables :=
  if decide (timeIdx ≠ 0%nat) then volVars c scvIdx timeIdx
  else if decide (scvIdxSaved_ c = Z.of_nat scvIdx) then Some (scvVarsSaved_ c)
  else volVars c scvIdx 0.

(** The volume-variable calls of one [updateAllScvVars], in order. *)
Definition volVarsCalls (nScv : nat) : list Call :=
  flat_map (fun t => map (fun s => CallVolVarsUpdate s t) (seq 0 nScv))
           (seq 0 timeDiscHistorySize).

(** The calls one [updateAll] makes, in order. *)
Definition updateAllCalls (elem : Element) : list Call :=
  CallGeomUpdate elem
  :: volVarsCalls (numVertices (fvGeomUpdate elem))
  ++ map (fun f => CallFluxVarsUpdate f 0) (seq 0 (numEdges (fvGeomUpdate elem))).

(** *** Facts about the element context *)

Lemma length_resize {A} (d : A) n (l : list A) :
  length l <= n -> length (resize d n l) = n.
Proof.
  intros Hn. unfold resize.
  rewrite length_app, length_take, length_replicate. lia.
Qed.

Lemma updateFVElemGeom_scv_size elem c :
  length (scvVars_ (updateFVElemGeom elem c))
  = Nat.max (length (scvVars_ c)) (numVertices (fvGeomUpdate elem)).
Proof.
  unfold updateFVElemGeom; simpl. case_decide.
  - rewrite length_resize by lia. lia.
  - lia.
Qed.

Lemma updateFVElemGeom_scvf_size elem c :
  length (scvfVars_ (updateFVElemGeom elem c))
  = Nat.max (length (scvfVars_ c)) (numEdges (fvGeomUpdate elem)).
Proof.
  unfold updateFVElemGeom; simpl. case_decide.
  - rewrite length_resize by lia. lia.
  - lia.
Qed.

(** C7.  The buffers of the context only grow: one call of
    [updateFVElemGeom] leaves each buffer with the larger of its old
    size and the element's vertex (edge) count, an element that fits
    leaves both buffers as they are, and over any sequence of calls the
    sizes never decrease. *)
Theorem updateFVElemGeom_grow_only :
  (forall elem c,
     length (scvVars_ (updateFVElemGeom elem c))
       = Nat.max (length (scvVars_ c)) (numVertices (fvGeomUpdate elem)) /\
     length (scvfVars_ (updateFVElemGeom elem c))
       = Nat.max (length (scvfVars_ c)) (numEdges (fvGeomUpdate elem))) /\
  (forall elem c,
     numVertices (fvGeomUpdate elem) <= length (scvVars_ c) ->
     numEdges (fvGeomUpdate elem) <= length (scvfVars_ c) ->
     scvVars_ (updateFVElemGeom elem c) = scvVars_ c /\
     scvfVars_ (updateFVElemGeom elem c) = scvfVars_ c) /\
  (forall elems c,
     length (scvVars_ c)
       <= length (scvVars_ (fold_left (fun c e => updateFVElemGeom e c) elems c)) /\
     length (scvfVars_ c)
       <= length (scvfVars_ (fold_left (fun c e => updateFVElemGeom e c) elems c))).
Proof.
  split; [|split].
  - intros elem c. split.
    + apply updateFVElemGeom_scv_size.
    + apply updateFVElemGeom_scvf_size.
  - intros elem c Hv He. unfold updateFVElemGeom; simpl.
    split; case_decide; (reflexivity || lia).
  - intros elems. induction elems as [|e elems IH]; intros c; simpl.
    + split; lia.
    + destruct (IH (updateFVElemGeom e c)) as [IHv IHf].
      pose proof (updateFVElemGeom_scv_size e c).
      pose proof (updateFVElemGeom_scvf_size e c).
      split; lia.
Qed.

(** Projections that the volume-variable phase leaves alone. *)
Lemma updateScvVars3_frame pv s t c :
  callLog (updateScvVars3 pv s t c) = callLog c ++ [CallVolVarsUpdate s t] /\
  fvElemGeom_ (updateScvVars3 pv s t c) = fvElemGeom_ c /\
  elemPtr_ (updateScvVars3 pv s t c) = elemPtr_ c /\
  scvfVars_ (updateScvVars3 pv s t c) = scvfVars_ c.
Proof. repeat split. Qed.

Lemma updateScvVarsStep_fold elem t l c :
  callLog (fold_left (updateScvVarsStep elem t) l c)
    = callLog c ++ map (fun s => CallVolVarsUpdate s t) l /\
  fvElemGeom_ (fold_left (updateScvVarsStep elem t) l c) = fvElemGeom_ c /\
  elemPtr_ (fold_left (updateScvVarsStep elem t) l c) = elemPtr_ c /\
  scvfVars_ (fold_left (updateScvVarsStep elem t) l c) = scvfVars_ c.
Proof.
  revert c. induction l as [|s l IH]; intros c; simpl.
  - rewrite app_nil_r. repeat split.
  - destruct (IH (updateScvVarsStep elem t c s)) as (Hl & Hg & Hp & Hf).
    rewrite Hl, Hg, Hp, Hf. simpl. rewrite <- app_assoc. repeat split.
Qed.

Lemma updateScvVars_frame t c elem :
  elemPtr_ c = Some elem ->
  callLog (updateScvVars t c)
    = callLog c ++ map (fun s => CallVolVarsUpdate s t) (seq 0 (numScv c)) /\
  fvElemGeom_ (updateScvVars t c) = fvElemGeom_ c /\
  elemPtr_ (updateScvVars t c) = elemPtr_ c /\
  scvfVars_ (updateScvVars t c) = scvfVars_ c.
Proof.
  intros He. unfold updateScvVars. rewrite He.
  destruct (updateScvVarsStep_fold elem t (seq 0 (numScv c)) c) as (Hl & Hg & Hp & Hf).
  rewrite Hl, Hg, Hp, Hf. repeat split; congruence.
Qed.

Lemma updateAllScvVars_frame c elem :
  elemPtr_ c = Some elem ->
  callLog (updateAllScvVars c) = callLog c ++ volVarsCalls (numScv c) /\
  fvElemGeom_ (updateAllScvVars c) = fvElemGeom_ c /\
  scvfVars_ (updateAllScvVars c) = scvfVars_ c.
Proof.
  unfold updateAllScvVars, volVarsCalls.
  generalize (seq 0 timeDiscHistorySize) as l.
  intros l. revert c. induction l as [|t l IH]; intros c He; simpl.
  - rewrite app_nil_r. repeat split.
  - destruct (updateScvVars_frame t c elem He) as (Hl & Hg & Hp & Hf).
    destruct (IH (updateScvVars t c)) as (Hl' & Hg' & Hf'); [congruence|].
    rewrite Hl', Hg', Hf', Hl, Hg, Hf. unfold numScv. rewrite Hg.
    rewrite <- app_assoc. repeat split.
Qed.

Lemma updateScvfVarsStep_fold l c :
  callLog (fold_left updateScvfVarsStep l c)
    = callLog c ++ map (fun f => CallFluxVarsUpdate f 0) l /\
  scvVars_ (fold_left updateScvfVarsStep l c) = scvVars_ c.
Proof.
  revert c. induction l as [|f l IH]; intros c; simpl.
  - rewrite app_nil_r. split; reflexivity.
  - destruct (IH (updateScvfVarsStep c f)) as (Hl & Hs).
    rewrite Hl, Hs. simpl. rewrite <- app_assoc. split; reflexivity.
Qed.

Lemma updateAllScvfVars_frame c :
  callLog (updateAllScvfVars c)
    = callLog c ++ map (fun f => CallFluxVarsUpdate f 0) (seq 0 (numScvf c)) /\
  scvVars_ (updateAllScvfVars c) = scvVars_ c.
Proof.
  unfold updateAllScvfVars.
  apply (updateScvfVarsStep_fold (seq 0 (numScvf c)) (set_scvfVarsEval EvalCurrent c)).
Qed.

Lemma volVarsCalls_elem n e :
  e ∈ volVarsCalls n ->
  exists s t, e = CallVolVarsUpdate s t /\ s < n /\ t < timeDiscHistorySize.
Proof.
  unfold volVarsCalls. rewrite list_elem_of_In, in_flat_map.
  intros (t & Ht & He). apply in_map_iff in He as (s & <- & Hs).
  apply in_seq in Ht, Hs. exists s, t. split; [reflexivity|lia].
Qed.

Lemma volVarsCalls_complete n s t :
  s < n -> t < timeDiscHistorySize -> CallVolVarsUpdate s t ∈ volVarsCalls n.
Proof.
  intros Hs Ht. unfold volVarsCalls. rewrite list_elem_of_In, in_flat_map.
  exists t. split; [apply in_seq; lia|].
  apply in_map_iff. exists s. split; [reflexivity|apply in_seq; lia].
Qed.

(** C4.  Saving a control volume, changing the context in any way that
    keeps the two saved slots, and restoring the control volume brings
    its primary variables and volume variables at time level 0 back to
    the values they had when they were saved. *)
Theorem save_restore_roundtrip cv c c1 c2 :
  saveScvVars cv c = Some c1 ->
  scvVarsSaved_ c2 = scvVarsSaved_ c1 ->
  priVarsSaved_ c2 = priVarsSaved_ c1 ->
  cv < length (scvVars_ c2) ->
  exists c3,
    restoreScvVars cv c2 = Some c3 /\
    is_Some (primaryVars c cv 0) /\
    is_Some (volVars c cv 0) /\
    primaryVars c3 cv 0 = primaryVars c cv 0 /\
    volVars c3 cv 0 = volVars c cv 0.
Proof.
  unfold saveScvVars, restoreScvVars, primaryVars, volVars.
  intros Hsave Hvv Hpv Hlen.
  destruct (scvVars_ c !! cv) as [s|] eqn:Hs; [|discriminate].
  simpl in Hsave. injection Hsave as <-. simpl in Hvv, Hpv.
  destruct (lookup_lt_is_Some_2 _ _ Hlen) as [s2 Hs2].
  rewrite Hs2. simpl. eexists. split; [reflexivity|].
  simpl. rewrite list_lookup_insert_eq by assumption. simpl.
  rewrite !fn_lookup_insert, Hvv, Hpv. repeat split; eauto.
Qed.

(** C8.  Only the control volume recorded in [scvIdxSaved_] can have an
    evaluation point different from its current volume variables: of
    two distinct control volumes at least one is unperturbed, and after
    [saveScvVars j] every other control volume is unperturbed. *)
Theorem single_perturbed_scv :
  (forall c scv,
     evalPointVolVars c scv 0 <> volVars c scv 0 -> scvIdxSaved_ c = Z.of_nat scv) /\
  (forall c a b, a <> b ->
     evalPointVolVars c a 0 = volVars c a 0 \/ evalPointVolVars c b 0 = volVars c b 0) /\
  (forall c c' i j, i <> j ->
     saveScvVars j c = Some c' ->
     scvIdxSaved_ c' = Z.of_nat j /\
     evalPointVolVars c' i 0 = volVars c' i 0).
Proof.
  assert (H1 : forall c scv,
     evalPointVolVars c scv 0 <> volVars c scv 0 -> scvIdxSaved_ c = Z.of_nat scv).
  { intros c scv. unfold evalPointVolVars.
    case_decide; [congruence|]. case_decide; congruence. }
  split; [exact H1|split].
  - intros c a b Hab.
    destruct (decide (scvIdxSaved_ c = Z.of_nat a)) as [Ha|Ha].
    + right. unfold evalPointVolVars.
      case_decide; [congruence|]. case_decide; [lia|reflexivity].
    + left. unfold evalPointVolVars.
      case_decide; [congruence|]. case_decide; [contradiction|reflexivity].
  - intros c c' i j Hij Hsave. unfold saveScvVars in Hsave.
    destruct (scvVars_ c !! j) as [s|]; [|discriminate].
    simpl in Hsave. injection Hsave as <-. split; [reflexivity|].
    unfold evalPointVolVars. simpl.
    case_decide; [lia|reflexivity].
Qed.

(** *** Further facts: buffers, population, evaluation points *)

Lemma lookup_resize_old {A} (d : A) n (l : list A) i :
  length l <= n -> i < length l -> resize d n l !! i = l !! i.
Proof.
  intros Hn Hi. unfold resize. rewrite take_ge by lia. apply lookup_app_l. exact Hi.
Qed.

Lemma lookup_resize_new {A} (d : A) n (l : list A) i :
  length l <= i -> i < n -> resize d n l !! i = Some d.
Proof.
  intros Hi Hn. unfold resize. rewrite take_ge by lia.
  rewrite lookup_app_r by exact Hi. apply lookup_replicate_2. lia.
Qed.

Lemma updateFVElemGeom_lookup_old elem c i :
  i < length (scvVars_ c) ->
  scvVars_ (updateFVElemGeom elem c) !! i = scvVars_ c !! i.
Proof.
  intros Hi. unfold updateFVElemGeom; simpl. case_decide; [|reflexivity].
  apply lookup_resize_old; lia.
Qed.

(** X1.  Growing the buffers keeps what they hold: an entry that was in
    a buffer before [updateFVElemGeom] is in the same place afterwards,
    and the entries added for a larger element are default-constructed. *)
Theorem updateFVElemGeom_keeps_entries elem c :
  (forall i, i < length (scvVars_ c) ->
     scvVars_ (updateFVElemGeom elem c) !! i = scvVars_ c !! i) /\
  (forall i, length (scvVars_ c) <= i -> i < numVertices (fvGeomUpdate elem) ->
     scvVars_ (updateFVElemGeom elem c) !! i = Some defaultScvStore) /\
  (forall i, i < length (scvfVars_ c) ->
     scvfVars_ (updateFVElemGeom elem c) !! i = scvfVars_ c !! i) /\
  (forall i, length (scvfVars_ c) <= i -> i < numEdges (fvGeomUpdate elem) ->
     scvfVars_ (updateFVElemGeom elem c) !! i = Some defaultFluxVars).
Proof.
  unfold updateFVElemGeom; simpl. repeat split; intros i Hi; try intros Hn;
    case_decide; try reflexivity; try lia.
  - apply lookup_resize_old; lia.
  - apply lookup_resize_new; lia.
  - apply lookup_resize_old; lia.
  - apply lookup_resize_new; lia.
Qed.

(** The loop body of [updateScvVars(timeIdx)], seen through the
    accessors. *)
Lemma updateScvVarsStep_length elem t c s :
  length (scvVars_ (updateScvVarsStep elem t c s)) = length (scvVars_ c).
Proof.
  unfold updateScvVarsStep, updateScvVars3; simpl. rewrite !length_alter. reflexivity.
Qed.

Lemma updateScvVarsStep_primaryVars elem t c s s' t' :
  s < length (scvVars_ c) ->
  primaryVars (updateScvVarsStep elem t c s) s' t'
  = if decide (s' = s /\ t' = t) then Some (solution t (vertexMap elem s))
    else primaryVars c s' t'.
Proof.
  intros Hs. destruct (lookup_lt_is_Some_2 _ _ Hs) as [st Hst].
  unfold primaryVars, updateScvVarsStep, updateScvVars3; simpl.
  destruct (decide (s' = s)) as [->|Hne].
  - rewrite !list_lookup_alter_eq, Hst. simpl.
    unfold insert, fn_insert.
    destruct (decide (t = t')) as [->|Ht].
    + rewrite decide_True by (split; reflexivity). reflexivity.
    + rewrite decide_False by (intros [_ ?]; congruence). reflexivity.
  - rewrite !list_lookup_alter_ne by congruence.
    rewrite decide_False by (intros [? _]; contradiction). reflexivity.
Qed.

Lemma updateScvVarsStep_hint elem t c s s' t' :
  s < length (scvVars_ c) ->
  hint (updateScvVarsStep elem t c s) s' t'
  = if decide (s' = s /\ t' = t) then modelHint (vertexMap elem s) t
    else hint c s' t'.
Proof.
  intros Hs. destruct (lookup_lt_is_Some_2 _ _ Hs) as [st Hst].
  unfold hint, updateScvVarsStep, updateScvVars3; simpl.
  destruct (decide (s' = s)) as [->|Hne].
  - rewrite !list_lookup_alter_eq, Hst. simpl.
    unfold insert, fn_insert.
    destruct (decide (t = t')) as [->|Ht].
    + rewrite decide_True by (split; reflexivity). reflexivity.
    + rewrite decide_False by (intros [_ ?]; congruence). reflexivity.
  - rewrite !list_lookup_alter_ne by congruence.
    rewrite decide_False by (intros [? _]; contradiction). reflexivity.
Qed.

(** [VolumeVariables::update] for (scv, timeIdx) has run on a context
    that already holds the new primary variables and the hint. *)
Definition volVarsUpdated (elem : Element) (c : BoxElementContext) (s t : nat) : Prop :=
  exists c1 old,
    volVars c s t = Some (volVarsUpdate c1 s t old) /\
    primaryVars c1 s t = Some (solution t (vertexMap elem s)) /\
    hint c1 s t = modelHint (vertexMap elem s) t.

Lemma updateScvVarsStep_volVars_ne elem t c s s' t' :
  ~ (s' = s /\ t' = t) ->
  volVars (updateScvVarsStep elem t c s) s' t' = volVars c s' t'.
Proof.
  intros Hne. unfold volVars, updateScvVarsStep, updateScvVars3; simpl.
  destruct (decide (s' = s)) as [->|Hs].
  - rewrite !list_lookup_alter_eq. destruct (scvVars_ c !! s) as [st|]; simpl; [|reflexivity].
    unfold insert, fn_insert. rewrite decide_False by naive_solver. reflexivity.
  - rewrite !list_lookup_alter_ne by congruence. reflexivity.
Qed.

Lemma updateScvVarsStep_volVars elem t c s :
  s < length (scvVars_ c) -> volVarsUpdated elem (updateScvVarsStep elem t c s) s t.
Proof.
  intros Hs. destruct (lookup_lt_is_Some_2 _ _ Hs) as [st Hst].
  unfold volVarsUpdated, updateScvVarsStep, updateScvVars3.
  match goal with |- context [volVarsUpdate ?c1 s t] => exists c1 end.
  exists (store_volVars st t). split; [|split].
  - unfold volVars; simpl. rewrite !list_lookup_alter_eq, Hst. simpl.
    unfold insert, fn_insert. rewrite decide_True by reflexivity. reflexivity.
  - unfold primaryVars; simpl. rewrite !list_lookup_alter_eq, Hst. simpl.
    unfold insert, fn_insert. rewrite decide_True by reflexivity. reflexivity.
  - unfold hint; simpl. rewrite !list_lookup_alter_eq, Hst. simpl.
    unfold insert, fn_insert. rewrite decide_True by reflexivity. reflexivity.
Qed.

Lemma updateScvVarsStep_lookup_ne elem t c s i :
  i <> s -> scvVars_ (updateScvVarsStep elem t c s) !! i = scvVars_ c !! i.
Proof.
  intros Hne. unfold updateScvVarsStep, updateScvVars3; simpl.
  rewrite !list_lookup_alter_ne by congruence. reflexivity.
Qed.

Lemma if_cons_combine {B} (s' a : nat) (l : list nat) (P : Prop) `{Decision P}
    (x : nat -> B) (y : B) :
  (if decide (s' ∈ l /\ P) then x s' else if decide (s' = a /\ P) then x a else y)
  = if decide (s' ∈ a :: l /\ P) then x s' else y.
Proof.
  destruct (decide (s' ∈ a :: l /\ P)) as [[Hin HP]|Hn].
  - apply elem_of_cons in Hin as [->|Hin].
    + destruct (decide (a ∈ l /\ P)); [reflexivity|].
      rewrite decide_True by (split; [reflexivity|exact HP]). reflexivity.
    + rewrite decide_True by (split; assumption). reflexivity.
  - rewrite decide_False.
    + rewrite decide_False; [reflexivity|].
      intros [-> HP]. apply Hn. split; [left|exact HP].
    + intros [Hin HP]. apply Hn. split; [right; exact Hin|exact HP].
Qed.

(** The loop over the control volumes at one time level. *)
Lemma updateScvVarsStep_fold_view elem t l : forall c,
  (forall s, s ∈ l -> s < length (scvVars_ c)) ->
  length (scvVars_ (fold_left (updateScvVarsStep elem t) l c)) = length (scvVars_ c) /\
  (forall i, i ∉ l ->
     scvVars_ (fold_left (updateScvVarsStep elem t) l c) !! i = scvVars_ c !! i) /\
  (forall s' t',
     primaryVars (fold_left (updateScvVarsStep elem t) l c) s' t'
     = if decide (s' ∈ l /\ t' = t) then Some (solution t (vertexMap elem s'))
       else primaryVars c s' t') /\
  (forall s' t',
     hint (fold_left (updateScvVarsStep elem t) l c) s' t'
     = if decide (s' ∈ l /\ t' = t) then modelHint (vertexMap elem s') t
       else hint c s' t') /\
  (forall s' t', ~ (s' ∈ l /\ t' = t) ->
     volVars (fold_left (updateScvVarsStep elem t) l c) s' t' = volVars c s' t') /\
  (NoDup l -> forall s', s' ∈ l ->
     volVarsUpdated elem (fold_left (updateScvVarsStep elem t) l c) s' t).
Proof.
  induction l as [|a l IH]; intros c Hin; simpl.
  - repeat split; try reflexivity. intros _ s' H. inversion H.
  - assert (Ha : a < length (scvVars_ c)) by (apply Hin; left).
    destruct (IH (updateScvVarsStep elem t c a)) as (Hlen & Hlk & Hpv & Hh & Hvv & Hupd).
    { intros s Hs. rewrite updateScvVarsStep_length. apply Hin. right. exact Hs. }
    split; [|split; [|split; [|split; [|split]]]].
    + rewrite Hlen. apply updateScvVarsStep_length.
    + intros i Hi. apply not_elem_of_cons in Hi as [Hia Hil].
      rewrite (Hlk i Hil). apply updateScvVarsStep_lookup_ne. exact Hia.
    + intros s' t'. rewrite Hpv, updateScvVarsStep_primaryVars by exact Ha.
      apply (if_cons_combine s' a l (t' = t)
               (fun s => Some (solution t (vertexMap elem s)))).
    + intros s' t'. rewrite Hh, updateScvVarsStep_hint by exact Ha.
      apply (if_cons_combine s' a l (t' = t) (fun s => modelHint (vertexMap elem s) t)).
    + intros s' t' Hne. rewrite Hvv.
      * apply updateScvVarsStep_volVars_ne. intros [-> ->]. apply Hne. split; [left|reflexivity].
      * intros [Hs Ht]. apply Hne. split; [right; exact Hs|exact Ht].
    + intros Hnd s' Hs'. apply list.NoDup_cons in Hnd as [Hnotin Hnd].
      apply elem_of_cons in Hs' as [->|Hs']; [|apply Hupd; assumption].
      destruct (updateScvVarsStep_volVars elem t c a Ha) as (c1 & old & Hv & Hp & Hhint).
      exists c1, old. split; [|split; assumption].
      rewrite Hvv; [exact Hv|]. intros [H _]. contradiction.
Qed.

(** [updateScvVars(timeIdx)] on a context whose element is bound and
    whose buffer holds the element's control volumes. *)
Lemma updateScvVars_view t c elem :
  elemPtr_ c = Some elem ->
  numScv c <= length (scvVars_ c) ->
  length (scvVars_ (updateScvVars t c)) = length (scvVars_ c) /\
  (forall i, numScv c <= i -> scvVars_ (updateScvVars t c) !! i = scvVars_ c !! i) /\
  (forall s' t',
     primaryVars (updateScvVars t c) s' t'
     = if decide (s' < numScv c /\ t' = t) then Some (solution t (vertexMap elem s'))
       else primaryVars c s' t') /\
  (forall s' t',
     hint (updateScvVars t c) s' t'
     = if decide (s' < numScv c /\ t' = t) then modelHint (vertexMap elem s') t
       else hint c s' t') /\
  (forall s' t', ~ (s' < numScv c /\ t' = t) ->
     volVars (updateScvVars t c) s' t' = volVars c s' t') /\
  (forall s', s' < numScv c -> volVarsUpdated elem (updateScvVars t c) s' t).
Proof.
  intros He Hn. unfold updateScvVars. rewrite He.
  assert (Hseq : forall s, s ∈ seq 0 (numScv c) <-> s < numScv c).
  { intros s. rewrite elem_of_seq. lia. }
  destruct (updateScvVarsStep_fold_view elem t (seq 0 (numScv c)) c)
    as (Hlen & Hlk & Hpv & Hh & Hvv & Hupd).
  { intros s Hs. apply Hseq in Hs. lia. }
  split; [exact Hlen|split; [|split; [|split; [|split]]]].
  - intros i Hi. apply Hlk. rewrite Hseq. lia.
  - intros s' t'. rewrite Hpv. apply decide_ext. rewrite Hseq. reflexivity.
  - intros s' t'. rewrite Hh. apply decide_ext. rewrite Hseq. reflexivity.
  - intros s' t' Hne. apply Hvv. rewrite Hseq. exact Hne.
  - intros s' Hs'. apply Hupd; [apply NoDup_seq|apply Hseq; exact Hs'].
Qed.

Lemma if_cons_combine_r {B} (Q : Prop) `{Decision Q} (t' a : nat) (l : list nat)
    (x : nat -> B) (y : B) :
  (if decide (Q /\ t' ∈ l) then x t' else if decide (Q /\ t' = a) then x a else y)
  = if decide (Q /\ t' ∈ a :: l) then x t' else y.
Proof.
  destruct (decide (Q /\ t' ∈ a :: l)) as [[HQ Hin]|Hn].
  - apply elem_of_cons in Hin as [->|Hin].
    + destruct (decide (Q /\ a ∈ l)); [reflexivity|].
      rewrite decide_True by (split; [exact HQ|reflexivity]). reflexivity.
    + rewrite decide_True by (split; assumption). reflexivity.
  - rewrite decide_False.
    + rewrite decide_False; [reflexivity|].
      intros [HQ ->]. apply Hn. split; [exact HQ|left].
    + intros [HQ Hin]. apply Hn. split; [exact HQ|right; exact Hin].
Qed.

(** The loop of [updateAllScvVars] over a list of time levels. *)
Lemma updateScvVars_fold_view elem lt : forall c,
  elemPtr_ c = Some elem ->
  numScv c <= length (scvVars_ c) ->
  length (scvVars_ (fold_left (fun c t => updateScvVars t c) lt c)) = length (scvVars_ c) /\
  (forall i, numScv c <= i ->
     scvVars_ (fold_left (fun c t => updateScvVars t c) lt c) !! i = scvVars_ c !! i) /\
  (forall s' t',
     primaryVars (fold_left (fun c t => updateScvVars t c) lt c) s' t'
     = if decide (s' < numScv c /\ t' ∈ lt) then Some (solution t' (vertexMap elem s'))
       else primaryVars c s' t') /\
  (forall s' t',
     hint (fold_left (fun c t => updateScvVars t c) lt c) s' t'
     = if decide (s' < numScv c /\ t' ∈ lt) then modelHint (vertexMap elem s') t'
       else hint c s' t') /\
  (forall s' t', ~ (s' < numScv c /\ t' ∈ lt) ->
     volVars (fold_left (fun c t => updateScvVars t c) lt c) s' t' = volVars c s' t') /\
  (NoDup lt -> forall s' t', s' < numScv c -> t' ∈ lt ->
     volVarsUpdated elem (fold_left (fun c t => updateScvVars t c) lt c) s' t').
Proof.
  induction lt as [|a lt IH]; intros c He Hn; simpl.
  - assert (Hnil : forall s' t', ~ (s' < numScv c /\ t' ∈ @nil nat)).
    { intros s' t' [_ H]. inversion H. }
    split; [reflexivity|split; [reflexivity|split; [|split; [|split]]]].
    + intros s' t'. rewrite decide_False by apply Hnil. reflexivity.
    + intros s' t'. rewrite decide_False by apply Hnil. reflexivity.
    + reflexivity.
    + intros _ s' t' Hs H. destruct (Hnil s' t'). split; assumption.
  - destruct (updateScvVars_frame a c elem He) as (_ & Hg & Hp & _).
    destruct (updateScvVars_view a c elem He Hn) as (Hlen1 & Hlk1 & Hpv1 & Hh1 & Hvv1 & Hupd1).
    assert (Hnum : numScv (updateScvVars a c) = numScv c) by (unfold numScv; congruence).
    destruct (IH (updateScvVars a c)) as (Hlen & Hlk & Hpv & Hh & Hvv & Hupd).
    { congruence. }
    { rewrite Hnum, Hlen1. exact Hn. }
    rewrite Hnum in *.
    split; [|split; [|split; [|split; [|split]]]].
    + congruence.
    + intros i Hi. rewrite Hlk by exact Hi. apply Hlk1. exact Hi.
    + intros s' t'. rewrite Hpv, Hpv1.
      apply (if_cons_combine_r (s' < numScv c) t' a lt
               (fun t => Some (solution t (vertexMap elem s')))).
    + intros s' t'. rewrite Hh, Hh1.
      apply (if_cons_combine_r (s' < numScv c) t' a lt
               (fun t => modelHint (vertexMap elem s') t)).
    + intros s' t' Hne. rewrite Hvv.
      * apply Hvv1. intros [Hs ->]. apply Hne. split; [exact Hs|left].
      * intros [Hs Ht]. apply Hne. split; [exact Hs|right; exact Ht].
    + intros Hnd s' t' Hs' Ht'. apply list.NoDup_cons in Hnd as [Hnotin Hnd].
      apply elem_of_cons in Ht' as [->|Ht']; [|apply Hupd; assumption].
      destruct (Hupd1 s' Hs') as (c1 & old & Hv & Hpc & Hhint).
      exists c1, old. split; [|split; assumption].
      rewrite Hvv; [exact Hv|]. intros [_ H]. contradiction.
Qed.

(** X2.  After [updateAll] every control volume of the element holds, at
    every time level of the history, the primary variables of the global
    solution at the vertex the control volume maps to and the hint the
    model gives for that vertex; its volume variables are the result of
    [VolumeVariables::update] run on a context that already held those
    primary variables and that hint. *)
Theorem updateAll_populates elem c s t :
  s < numVertices (fvGeomUpdate elem) ->
  t < timeDiscHistorySize ->
  primaryVars (updateAll elem c) s t = Some (solution t (vertexMap elem s)) /\
  hint (updateAll elem c) s t = modelHint (vertexMap elem s) t /\
  volVarsUpdated elem (updateAll elem c) s t.
Proof.
  intros Hs Ht.
  assert (He : elemPtr_ (updateFVElemGeom elem c) = Some elem) by reflexivity.
  assert (Hn : numScv (updateFVElemGeom elem c) <= length (scvVars_ (updateFVElemGeom elem c))).
  { rewrite updateFVElemGeom_scv_size. unfold numScv; simpl. lia. }
  destruct (updateScvVars_fold_view elem (seq 0 timeDiscHistorySize) _ He Hn)
    as (_ & _ & Hpv & Hh & _ & Hupd).
  destruct (updateAllScvfVars_frame (updateAllScvVars (updateFVElemGeom elem c)))
    as (_ & Hsv).
  assert (Hin : t ∈ seq 0 timeDiscHistorySize) by (apply elem_of_seq; lia).
  assert (Hs' : s < numScv (updateFVElemGeom elem c)) by exact Hs.
  unfold volVarsUpdated, primaryVars, hint, volVars, updateAll. rewrite Hsv.
  split; [|split].
  - etransitivity; [apply Hpv|]. rewrite decide_True by (split; assumption). reflexivity.
  - etransitivity; [apply Hh|]. rewrite decide_True by (split; assumption). reflexivity.
  - apply Hupd; [apply NoDup_seq|exact Hs'|exact Hin].
Qed.

(** X3.  [updateAll] does not touch what lies beyond the element: a
    buffer entry at or above the element's vertex count is the entry the
    buffer held before (left there by an earlier, larger element). *)
Theorem updateAll_stale_beyond_element elem c i :
  numVertices (fvGeomUpdate elem) <= i ->
  i < length (scvVars_ c) ->
  scvVars_ (updateAll elem c) !! i = scvVars_ c !! i.
Proof.
  intros Hi Hlen.
  assert (He : elemPtr_ (updateFVElemGeom elem c) = Some elem) by reflexivity.
  assert (Hn : numScv (updateFVElemGeom elem c) <= length (scvVars_ (updateFVElemGeom elem c))).
  { rewrite updateFVElemGeom_scv_size. unfold numScv; simpl. lia. }
  destruct (updateScvVars_fold_view elem (seq 0 timeDiscHistorySize) _ He Hn)
    as (_ & Hlk & _).
  destruct (updateAllScvfVars_frame (updateAllScvVars (updateFVElemGeom elem c)))
    as (_ & Hsv).
  unfold updateAll. rewrite Hsv. unfold updateAllScvVars. rewrite Hlk by exact Hi.
  apply updateFVElemGeom_lookup_old. exact Hlen.
Qed.

(** *** The evaluation points across [updateAll] *)

Lemma fold_left_preserves {A B} (P : B -> Prop) (f : B -> A -> B) l :
  (forall c a, P c -> P (f c a)) -> forall c, P c -> P (fold_left f l c).
Proof.
  intros Hf. induction l as [|a l IH]; intros c Hc; simpl; [exact Hc|].
  apply IH, Hf, Hc.
Qed.

(** The four saved slots of [c0] are those of [c]. *)
Definition sameSaved (c0 c : BoxElementContext) : Prop :=
  scvIdxSaved_ c = scvIdxSaved_ c0 /\
  scvVarsSaved_ c = scvVarsSaved_ c0 /\
  priVarsSaved_ c = priVarsSaved_ c0 /\
  scvfVarsSaved_ c = scvfVarsSaved_ c0.

Lemma updateAll_sameSaved elem c : sameSaved c (updateAll elem c).
Proof.
  unfold updateAll, updateAllScvfVars, updateAllScvVars.
  apply fold_left_preserves; [intros c1 f H; exact H|].
  apply fold_left_preserves.
  - intros c1 t H. unfold updateScvVars. destruct (elemPtr_ c1); [|exact H].
    apply fold_left_preserves; [intros c2 s H2; exact H2|exact H].
  - repeat split.
Qed.

(** X4.  [updateAllScvfVars], and with it [updateAll], leaves the flux
    evaluation point at the current flux variables, whatever it was
    before: afterwards [evalPointFluxVars] and [fluxVars] agree at every
    face and every time index, also when [saveScvfVars] came first. *)
Theorem updateAllScvfVars_resets_flux_eval_point elem c f t :
  scvfVarsEval_ (updateAllScvfVars c) = EvalCurrent /\
  evalPointFluxVars (updateAllScvfVars c) f t = fluxVars (updateAllScvfVars c) f t /\
  evalPointFluxVars (updateAllScvfVars (saveScvfVars c)) f t
    = fluxVars (updateAllScvfVars (saveScvfVars c)) f t /\
  evalPointFluxVars (updateAll elem c) f t = fluxVars (updateAll elem c) f t.
Proof.
  assert (H : forall c, scvfVarsEval_ (updateAllScvfVars c) = EvalCurrent).
  { intros c0. unfold updateAllScvfVars.
    apply (fold_left_preserves (fun c => scvfVarsEval_ c = EvalCurrent));
      [intros c1 a Hc; exact Hc|reflexivity]. }
  assert (H' : forall c, evalPointFluxVars (updateAllScvfVars c) f t
                         = fluxVars (updateAllScvfVars c) f t).
  { intros c0. unfold evalPointFluxVars. rewrite H. case_decide; reflexivity. }
  split; [apply H|split; [apply H'|split; [apply H'|apply H']]].
Qed.

(** X5.  [updateAll] never resets the volume-variable evaluation point:
    the saved index and the saved volume and primary variables pass
    through unchanged, so a control volume that was marked as saved
    before the call still answers [evalPointVolVars] at time level 0
    with the old saved volume variables, not with the ones [updateAll]
    has just computed. *)
Theorem updateAll_keeps_saved_scv elem c :
  scvIdxSaved_ (updateAll elem c) = scvIdxSaved_ c /\
  scvVarsSaved_ (updateAll elem c) = scvVarsSaved_ c /\
  priVarsSaved_ (updateAll elem c) = priVarsSaved_ c /\
  scvfVarsSaved_ (updateAll elem c) = scvfVarsSaved_ c /\
  (forall s, scvIdxSaved_ c = Z.of_nat s ->
     evalPointVolVars (updateAll elem c) s 0 = Some (scvVarsSaved_ c)).
Proof.
  destruct (updateAll_sameSaved elem c) as (Hi & Hv & Hp & Hf).
  repeat (split; [assumption|]).
  intros s Hs. unfold evalPointVolVars.
  rewrite decide_False by (intros H; apply H; reflexivity).
  rewrite decide_True by congruence. congruence.
Qed.

(** *** Flux variables are computed from updated volume variables *)

Lemma updateScvfVarsStep_fold_lookup_ne l : forall c f,
  f ∉ l -> scvfVars_ (fold_left updateScvfVarsStep l c) !! f = scvfVars_ c !! f.
Proof.
  induction l as [|a l IH]; intros c f Hf; simpl; [reflexivity|].
  apply not_elem_of_cons in Hf as [Hfa Hfl].
  rewrite IH by exact Hfl. unfold updateScvfVarsStep; simpl.
  apply list_lookup_alter_ne. congruence.
Qed.

Lemma updateScvfVarsStep_fold_view l : forall c,
  NoDup l ->
  (forall f, f ∈ l -> f < length (scvfVars_ c)) ->
  forall f, f ∈ l ->
  exists cf old,
    scvfVars_ (fold_left updateScvfVarsStep l c) !! f = Some (fluxVarsUpdate cf f 0 old) /\
    scvVars_ cf = scvVars_ c /\
    fvElemGeom_ cf = fvElemGeom_ c.
Proof.
  induction l as [|a l IH]; intros c Hnd Hlen f Hf; [inversion Hf|].
  apply list.NoDup_cons in Hnd as [Hnotin Hnd]. simpl.
  apply elem_of_cons in Hf as [->|Hf].
  - rewrite updateScvfVarsStep_fold_lookup_ne by exact Hnotin.
    destruct (lookup_lt_is_Some_2 (scvfVars_ c) a) as [old Hold]; [apply Hlen; left|].
    exists c, old. unfold updateScvfVarsStep; simpl.
    rewrite list_lookup_alter_eq, Hold. repeat split.
  - destruct (IH (updateScvfVarsStep c a) Hnd) with (f := f) as (cf & old & H1 & H2 & H3).
    + intros g Hg. unfold updateScvfVarsStep; simpl. rewrite length_alter.
      apply Hlen. right. exact Hg.
    + exact Hf.
    + exists cf, old. split; [exact H1|split; [exact H2|exact H3]].
Qed.

(** X6.  The flux variables [updateAll] leaves at a face of the element
    are the result of [FluxVariables::update] run on a context that
    already holds the final volume variables of all control volumes and
    the geometry of the element. *)
Theorem updateAll_flux_from_updated_volVars elem c f :
  f < numEdges (fvGeomUpdate elem) ->
  exists cf old,
    fluxVars (updateAll elem c) f 0 = Some (fluxVarsUpdate cf f 0 old) /\
    scvVars_ cf = scvVars_ (updateAll elem c) /\
    fvElemGeom_ cf = fvGeomUpdate elem.
Proof.
  intros Hf.
  assert (He : elemPtr_ (updateFVElemGeom elem c) = Some elem) by reflexivity.
  destruct (updateAllScvVars_frame _ _ He) as (_ & Hg & Hsf).
  destruct (updateAllScvfVars_frame (updateAllScvVars (updateFVElemGeom elem c)))
    as (_ & Hsv).
  set (c2 := updateAllScvVars (updateFVElemGeom elem c)) in *.
  assert (Hnum : numScvf (set_scvfVarsEval EvalCurrent c2) = numEdges (fvGeomUpdate elem)).
  { unfold numScvf; simpl. rewrite Hg. reflexivity. }
  destruct (updateScvfVarsStep_fold_view
              (seq 0 (numScvf (set_scvfVarsEval EvalCurrent c2)))
              (set_scvfVarsEval EvalCurrent c2)) with (f := f)
    as (cf & old & H1 & H2 & H3).
  - apply NoDup_seq.
  - intros g Hg'. apply elem_of_seq in Hg'. simpl. rewrite Hsf.
    rewrite updateFVElemGeom_scvf_size. lia.
  - apply elem_of_seq. lia.
  - exists cf, old. unfold fluxVars, updateAll. fold c2. rewrite Hsv.
    split; [exact H1|split; [exact H2|]]. rewrite H3. simpl. exact Hg.
Qed.

(** *** Saving, perturbing and restoring a control volume *)

Lemma updateScvVars3_view pv s t c :
  s < length (scvVars_ c) ->
  length (scvVars_ (updateScvVars3 pv s t c)) = length (scvVars_ c) /\
  (forall s' t',
     primaryVars (updateScvVars3 pv s t c) s' t'
     = if decide (s' = s /\ t' = t) then Some pv else primaryVars c s' t') /\
  (forall s' t', hint (updateScvVars3 pv s t c) s' t' = hint c s' t') /\
  (forall s' t', ~ (s' = s /\ t' = t) ->
     volVars (updateScvVars3 pv s t c) s' t' = volVars c s' t').
Proof.
  intros Hs. destruct (lookup_lt_is_Some_2 _ _ Hs) as [st Hst].
  unfold primaryVars, hint, volVars, updateScvVars3; simpl.
  split; [rewrite !length_alter; reflexivity|split; [|split]].
  - intros s' t'. destruct (decide (s' = s)) as [->|Hne].
    + rewrite !list_lookup_alter_eq, Hst. simpl. unfold insert, fn_insert.
      destruct (decide (t = t')) as [->|Ht].
      * rewrite decide_True by (split; reflexivity). reflexivity.
      * rewrite decide_False by (intros [_ ?]; congruence). reflexivity.
    + rewrite !list_lookup_alter_ne by congruence.
      rewrite decide_False by (intros [? _]; contradiction). reflexivity.
  - intros s' t'. destruct (decide (s' = s)) as [->|Hne].
    + rewrite !list_lookup_alter_eq, Hst. reflexivity.
    + rewrite !list_lookup_alter_ne by congruence. reflexivity.
  - intros s' t' Hne. destruct (decide (s' = s)) as [->|Hs'].
    + rewrite !list_lookup_alter_eq, Hst. simpl. unfold insert, fn_insert.
      rewrite decide_False by (intros ->; apply Hne; split; reflexivity). reflexivity.
    + rewrite !list_lookup_alter_ne by congruence. reflexivity.
Qed.

Lemma restoreScvVars_view cv c c' :
  restoreScvVars cv c = Some c' ->
  cv < length (scvVars_ c) /\
  scvIdxSaved_ c' = (-1)%Z /\
  (forall s t,
     primaryVars c' s t
     = if decide (s = cv /\ t = 0%nat) then Some (priVarsSaved_ c) else primaryVars c s t) /\
  (forall s t,
     volVars c' s t
     = if decide (s = cv /\ t = 0%nat) then Some (scvVarsSaved_ c) else volVars c s t) /\
  (forall s t, hint c' s t = hint c s t).
Proof.
  unfold restoreScvVars. intros H.
  destruct (scvVars_ c !! cv) as [st|] eqn:Hst; [|discriminate].
  simpl in H. injection H as <-.
  assert (Hlen : cv < length (scvVars_ c)) by (apply lookup_lt_is_Some; eauto).
  unfold primaryVars, volVars, hint; simpl.
  split; [exact Hlen|split; [reflexivity|split; [|split]]];
    intros s t; (destruct (decide (s = cv)) as [->|Hne];
      [rewrite list_lookup_insert_eq by exact Hlen; rewrite Hst; simpl
      |rewrite list_lookup_insert_ne by congruence;
       try (rewrite decide_False by (intros [? _]; contradiction)); reflexivity]).
  - unfold insert, fn_insert. destruct (decide (0%nat = t)) as [<-|Ht].
    + rewrite decide_True by (split; reflexivity). reflexivity.
    + rewrite decide_False by (intros [_ ?]; congruence). reflexivity.
  - unfold insert, fn_insert. destruct (decide (0%nat = t)) as [<-|Ht].
    + rewrite decide_True by (split; reflexivity). reflexivity.
    + rewrite decide_False by (intros [_ ?]; congruence). reflexivity.
  - reflexivity.
Qed.

(** X7.  After [restoreScvVars] no control volume is perturbed: the
    evaluation point of every control volume at every time level is its
    current volume variables.  The call writes only the primary and
    volume variables of the given control volume at time level 0; every
    other entry, every hint and the flux variables stay as they were. *)
Theorem restoreScvVars_clears_perturbation cv c c' :
  restoreScvVars cv c = Some c' ->
  (forall s t, evalPointVolVars c' s t = volVars c' s t) /\
  (forall s t, ~ (s = cv /\ t = 0%nat) ->
     volVars c' s t = volVars c s t /\ primaryVars c' s t = primaryVars c s t) /\
  (forall s t, hint c' s t = hint c s t) /\
  scvfVars_ c' = scvfVars_ c /\
  scvfVarsEval_ c' = scvfVarsEval_ c.
Proof.
  intros H. destruct (restoreScvVars_view cv c c' H) as (_ & Hidx & Hpv & Hvv & Hh).
  split; [|split; [|split; [exact Hh|]]].
  - intros s t. unfold evalPointVolVars. case_decide; [reflexivity|].
    rewrite decide_False by (rewrite Hidx; lia). subst t. reflexivity.
  - intros s t Hne. rewrite Hvv, Hpv, !decide_False by exact Hne. split; reflexivity.
  - unfold restoreScvVars in H. destruct (scvVars_ c !! cv); [|discriminate].
    simpl in H. injection H as <-. split; reflexivity.
Qed.

(** X8.  [restoreScvVars] does not check its index against the one that
    was saved: after [saveScvVars i], restoring a control volume [j]
    writes the values saved from [i] into [j]. *)
Theorem restoreScvVars_unchecked_index i j c c1 :
  saveScvVars i c = Some c1 ->
  j < length (scvVars_ c) ->
  exists c2,
    restoreScvVars j c1 = Some c2 /\
    primaryVars c2 j 0 = primaryVars c i 0 /\
    volVars c2 j 0 = volVars c i 0 /\
    scvIdxSaved_ c2 = (-1)%Z.
Proof.
  unfold saveScvVars. intros Hsave Hj.
  destruct (scvVars_ c !! i) as [st|] eqn:Hst; [|discriminate].
  simpl in Hsave. injection Hsave as <-.
  destruct (lookup_lt_is_Some_2 _ _ Hj) as [sj Hsj].
  destruct (restoreScvVars j (MkCtx (scvVars_ c) (Z.of_nat i) (store_volVars st 0)
              (store_priVars st 0) (scvfVars_ c) (scvfVarsSaved_ c) (scvfVarsEval_ c)
              (elemPtr_ c) (fvElemGeom_ c) (callLog c))) as [c2|] eqn:Hr.
  - exists c2. split; [reflexivity|].
    destruct (restoreScvVars_view _ _ _ Hr) as (_ & Hidx & Hpv & Hvv & _).
    rewrite Hpv, Hvv, !decide_True by (split; reflexivity). simpl.
    unfold primaryVars, volVars. rewrite Hst. repeat split. exact Hidx.
  - unfold restoreScvVars in Hr. simpl in Hr. rewrite Hsj in Hr. discriminate.
Qed.

(** X9.  The numerical-differentiation protocol.  After [saveScvVars s]
    and a perturbation of the primary variables of [s] at time level 0,
    the evaluation point of every control volume is the volume
    variables it had before the save, while [primaryVars] shows the
    perturbed value.  After [restoreScvVars s] the accessors
    [primaryVars], [volVars] and [hint] answer, at every control volume
    and time level, as before the save, and [evalPointVolVars] answers
    with those same volume variables: no control volume is perturbed
    any more, also not one that was marked as saved before the save. *)
Theorem save_perturb_restore s pv c c1 :
  saveScvVars s c = Some c1 ->
  (forall s', evalPointVolVars (updateScvVars3 pv s 0 c1) s' 0 = volVars c s' 0) /\
  primaryVars (updateScvVars3 pv s 0 c1) s 0 = Some pv /\
  exists c3,
    restoreScvVars s (updateScvVars3 pv s 0 c1) = Some c3 /\
    forall s' t,
      primaryVars c3 s' t = primaryVars c s' t /\
      volVars c3 s' t = volVars c s' t /\
      hint c3 s' t = hint c s' t /\
      evalPointVolVars c3 s' t = volVars c s' t.
Proof.
  unfold saveScvVars. intros Hsave.
  destruct (scvVars_ c !! s) as [st|] eqn:Hst; [|discriminate].
  simpl in Hsave. injection Hsave as <-.
  assert (Hlen : s < length (scvVars_ c)) by (apply lookup_lt_is_Some; eauto).
  set (c1 := MkCtx (scvVars_ c) (Z.of_nat s) (store_volVars st 0) (store_priVars st 0)
               (scvfVars_ c) (scvfVarsSaved_ c) (scvfVarsEval_ c) (elemPtr_ c)
               (fvElemGeom_ c) (callLog c)).
  destruct (updateScvVars3_view pv s 0 c1 Hlen) as (Hl2 & Hpv2 & Hh2 & Hvv2).
  assert (Hbase : forall s' t, primaryVars c1 s' t = primaryVars c s' t /\
                               volVars c1 s' t = volVars c s' t /\
                               hint c1 s' t = hint c s' t) by (intros; repeat split).
  split; [|split].
  - intros s'. unfold evalPointVolVars.
    rewrite decide_False by (intros H; apply H; reflexivity). simpl.
    destruct (decide (Z.of_nat s = Z.of_nat s')) as [Heq|Hne].
    + apply Nat2Z.inj in Heq. subst s'. unfold volVars. rewrite Hst. reflexivity.
    + rewrite Hvv2 by (intros [-> _]; apply Hne; reflexivity). reflexivity.
  - rewrite Hpv2, decide_True by (split; reflexivity). reflexivity.
  - destruct (restoreScvVars s (updateScvVars3 pv s 0 c1)) as [c3|] eqn:Hr.
    + exists c3. split; [reflexivity|].
      destruct (restoreScvVars_view _ _ _ Hr) as (_ & Hidx & Hpv3 & Hvv3 & Hh3).
      assert (Hp : forall s' t, primaryVars c3 s' t = primaryVars c s' t).
      { intros s' t. rewrite Hpv3, Hpv2.
        destruct (decide (s' = s /\ t = 0%nat)) as [[-> ->]|Hne]; [|reflexivity].
        simpl. unfold primaryVars. rewrite Hst. reflexivity. }
      assert (Hv : forall s' t, volVars c3 s' t = volVars c s' t).
      { intros s' t. rewrite Hvv3.
        destruct (decide (s' = s /\ t = 0%nat)) as [[-> ->]|Hne].
        - simpl. unfold volVars. rewrite Hst. reflexivity.
        - rewrite Hvv2 by exact Hne. reflexivity. }
      intros s' t. split; [apply Hp|split; [apply Hv|split]].
      * rewrite Hh3, Hh2. reflexivity.
      * unfold evalPointVolVars. case_decide; [apply Hv|].
        rewrite decide_False by (rewrite Hidx; lia). subst t. apply Hv.
    + unfold restoreScvVars in Hr.
      destruct (lookup_lt_is_Some_2 (scvVars_ (updateScvVars3 pv s 0 c1)) s) as [x Hx];
        [rewrite Hl2; exact Hlen|].
      rewrite Hx in Hr. discriminate.
Qed.

(** X10.  The flux-variable evaluation point.  After [saveScvfVars],
    whatever is then written to the current flux variables,
    [evalPointFluxVars] at time index 0 answers with the flux variables
    at the time of the save, and at any other time index with the
    current ones.  [restoreScvfVars] only switches the evaluation point
    back: unlike [restoreScvVars] it copies nothing, the current flux
    variables stay as written. *)
Theorem scvfVars_save_restore c v f t :
  evalPointFluxVars (set_scvfVars v (saveScvfVars c)) f 0 = fluxVars c f 0 /\
  evalPointFluxVars (set_scvfVars v (saveScvfVars c)) f (S t) = v !! f /\
  fluxVars (set_scvfVars v (saveScvfVars c)) f t = v !! f /\
  scvfVars_ (restoreScvfVars (set_scvfVars v (saveScvfVars c))) = v /\
  evalPointFluxVars (restoreScvfVars (set_scvfVars v (saveScvfVars c))) f t = v !! f.
Proof.
  unfold evalPointFluxVars, fluxVars; simpl.
  split; [reflexivity|split; [reflexivity|split; [reflexivity|split; [reflexivity|]]]].
  destruct (decide (t <> 0%nat)); reflexivity.
Qed.

(** *** The three phases of [updateAll], in the data *)

(** What the volume-variable phase leaves alone: the geometry, the
    element and the flux variables. *)
Definition phaseFrame (c : BoxElementContext)
    : FVElementGeometry * option Element * list FluxVariables :=
  (fvElemGeom_ c, elemPtr_ c, scvfVars_ c).

(** [VolumeVariables::update] for (scv, timeIdx) has run on a context
    with the given geometry, element and flux variables, and its result
    is what the context holds. *)
Definition volVarsUpdatedIn
    (frame : FVElementGeometry * option Element * list FluxVariables)
    (c : BoxElementContext) (s t : nat) : Prop :=
  exists c1 old,
    volVars c s t = Some (volVarsUpdate c1 s t old) /\ phaseFrame c1 = frame.

Lemma updateScvVarsStep_updatedIn elem t c s :
  s < length (scvVars_ c) ->
  volVarsUpdatedIn (phaseFrame c) (updateScvVarsStep elem t c s) s t.
Proof.
  intros Hs. destruct (lookup_lt_is_Some_2 _ _ Hs) as [st Hst].
  unfold volVarsUpdatedIn, updateScvVarsStep, updateScvVars3.
  match goal with |- context [volVarsUpdate ?c1 s t] => exists c1 end.
  exists (store_volVars st t). split; [|reflexivity].
  unfold volVars; simpl. rewrite !list_lookup_alter_eq, Hst. simpl.
  unfold insert, fn_insert. rewrite decide_True by reflexivity. reflexivity.
Qed.

Lemma updateScvVarsStep_fold_updatedIn elem t l : forall c,
  NoDup l ->
  (forall s, s ∈ l -> s < length (scvVars_ c)) ->
  phaseFrame (fold_left (updateScvVarsStep elem t) l c) = phaseFrame c /\
  forall s', s' ∈ l ->
    volVarsUpdatedIn (phaseFrame c) (fold_left (updateScvVarsStep elem t) l c) s' t.
Proof.
  induction l as [|a l IH]; intros c Hnd Hin; simpl.
  - split; [reflexivity|]. intros s' H. inversion H.
  - apply list.NoDup_cons in Hnd as [Hnotin Hnd].
    assert (Ha : a < length (scvVars_ c)) by (apply Hin; left).
    assert (Hin' : forall s, s ∈ l -> s < length (scvVars_ (updateScvVarsStep elem t c a))).
    { intros s Hs. rewrite updateScvVarsStep_length. apply Hin. right. exact Hs. }
    destruct (IH (updateScvVarsStep elem t c a) Hnd Hin') as (Hfr & Hup).
    destruct (updateScvVarsStep_fold_view elem t l (updateScvVarsStep elem t c a) Hin')
      as (_ & _ & _ & _ & Hvv & _).
    split; [rewrite Hfr; reflexivity|].
    intros s' Hs'. apply elem_of_cons in Hs' as [->|Hs']; [|apply (Hup s' Hs')].
    destruct (updateScvVarsStep_updatedIn elem t c a Ha) as (c1 & old & Hv & Hf).
    exists c1, old. split; [|exact Hf].
    rewrite Hvv; [exact Hv|]. intros [H _]. contradiction.
Qed.

Lemma updateScvVars_fold_updatedIn elem lt : forall c,
  elemPtr_ c = Some elem ->
  numScv c <= length (scvVars_ c) ->
  NoDup lt ->
  phaseFrame (fold_left (fun c t => updateScvVars t c) lt c) = phaseFrame c /\
  forall s' t', s' < numScv c -> t' ∈ lt ->
    volVarsUpdatedIn (phaseFrame c) (fold_left (fun c t => updateScvVars t c) lt c) s' t'.
Proof.
  induction lt as [|a lt IH]; intros c He Hn Hnd; simpl.
  - split; [reflexivity|]. intros s' t' _ H. inversion H.
  - apply list.NoDup_cons in Hnd as [Hnotin Hnd].
    destruct (updateScvVars_frame a c elem He) as (_ & Hg & Hp & _).
    destruct (updateScvVars_view a c elem He Hn) as (Hlen1 & _).
    assert (Hnum : numScv (updateScvVars a c) = numScv c) by (unfold numScv; congruence).
    assert (He1 : elemPtr_ (updateScvVars a c) = Some elem) by congruence.
    assert (Hn1 : numScv (updateScvVars a c) <= length (scvVars_ (updateScvVars a c)))
      by (rewrite Hnum, Hlen1; exact Hn).
    destruct (IH (updateScvVars a c) He1 Hn1 Hnd) as (Hfr & Hup).
    destruct (updateScvVars_fold_view elem lt (updateScvVars a c) He1 Hn1)
      as (_ & _ & _ & _ & Hvv & _).
    assert (Hseq : forall s, s ∈ seq 0 (numScv c) <-> s < numScv c).
    { intros s. rewrite elem_of_seq. lia. }
    destruct (updateScvVarsStep_fold_updatedIn elem a (seq 0 (numScv c)) c)
      as (Hfr1 & Hup1).
    { apply NoDup_seq. }
    { intros s Hs. apply Hseq in Hs. lia. }
    assert (Hstep : updateScvVars a c = fold_left (updateScvVarsStep elem a) (seq 0 (numScv c)) c).
    { unfold updateScvVars. rewrite He. reflexivity. }
    rewrite <- Hstep in Hfr1, Hup1.
    rewrite Hfr1 in Hfr, Hup. rewrite Hnum in Hup.
    split; [exact Hfr|].
    intros s' t' Hs' Ht'. apply elem_of_cons in Ht' as [->|Ht']; [|apply Hup; assumption].
    destruct (Hup1 s') as (c1 & old & Hv & Hf); [apply Hseq; exact Hs'|].
    exists c1, old. split; [|exact Hf].
    rewrite Hvv; [exact Hv|]. intros [_ H]. contradiction.
Qed.

Lemma updateAllScvfVars_view c :
  numScvf c <= length (scvfVars_ c) ->
  fvElemGeom_ (updateAllScvfVars c) = fvElemGeom_ c /\
  elemPtr_ (updateAllScvfVars c) = elemPtr_ c /\
  forall f, f < numScvf c ->
    exists cf old,
      fluxVars (updateAllScvfVars c) f 0 = Some (fluxVarsUpdate cf f 0 old) /\
      scvVars_ cf = scvVars_ c /\
      fvElemGeom_ cf = fvElemGeom_ c.
Proof.
  intros Hn. unfold updateAllScvfVars.
  split; [|split].
  - apply (fold_left_preserves (fun c' => fvElemGeom_ c' = fvElemGeom_ c));
      [intros c1 a H; exact H|reflexivity].
  - apply (fold_left_preserves (fun c' => elemPtr_ c' = elemPtr_ c));
      [intros c1 a H; exact H|reflexivity].
  - intros f Hf.
    destruct (updateScvfVarsStep_fold_view
                (seq 0 (numScvf (set_scvfVarsEval EvalCurrent c)))
                (set_scvfVarsEval EvalCurrent c)) with (f := f)
      as (cf & old & H1 & H2 & H3).
    + apply NoDup_seq.
    + intros g Hg. apply elem_of_seq in Hg. unfold numScvf in *. simpl in *. lia.
    + apply elem_of_seq. unfold numScvf in *. simpl. lia.
    + exists cf, old. split; [exact H1|split; [exact H2|exact H3]].
Qed.

(** C6.  [updateAll] binds the geometry, then updates the volume
    variables of every control volume at every time level of the
    history, then updates the flux variables of every face at time
    level 0.  In the order of the calls: the geometry call comes first,
    and every volume-variable call comes before every flux call.  In
    the data: the context ends with the geometry of the element; the
    volume variables it holds for a control volume and a time level are
    the result of [VolumeVariables::update] on a context that already
    had the element and its geometry bound and whose flux variables
    were still those from before the flux phase; and the flux variables
    it holds for a face are the result of [FluxVariables::update], at
    time level 0, on a context that had the geometry bound and already
    held the final volume variables of every control volume. *)
Theorem updateAll_phase_order elem c :
  callLog (updateAll elem c) = callLog c ++ updateAllCalls elem /\
  updateAllCalls elem !! 0%nat = Some (CallGeomUpdate elem) /\
  (forall s t, s < numVertices (fvGeomUpdate elem) -> t < timeDiscHistorySize ->
     CallVolVarsUpdate s t ∈ updateAllCalls elem) /\
  (forall f, f < numEdges (fvGeomUpdate elem) ->
     CallFluxVarsUpdate f 0 ∈ updateAllCalls elem) /\
  (forall i j f tf s ts,
     updateAllCalls elem !! i = Some (CallFluxVarsUpdate f tf) ->
     updateAllCalls elem !! j = Some (CallVolVarsUpdate s ts) ->
     j < i /\ tf = 0%nat) /\
  scvVars_ (updateAll elem c) = scvVars_ (updateAllScvVars (updateFVElemGeom elem c)) /\
  fvElemGeom_ (updateAll elem c) = fvGeomUpdate elem /\
  elemPtr_ (updateAll elem c) = Some elem /\
  (forall s t, s < numVertices (fvGeomUpdate elem) -> t < timeDiscHistorySize ->
     exists c1 old,
       volVars (updateAll elem c) s t = Some (volVarsUpdate c1 s t old) /\
       fvElemGeom_ c1 = fvGeomUpdate elem /\
       elemPtr_ c1 = Some elem /\
       scvfVars_ c1 = scvfVars_ (updateFVElemGeom elem c)) /\
  (forall f, f < numEdges (fvGeomUpdate elem) ->
     exists cf old,
       fluxVars (updateAll elem c) f 0 = Some (fluxVarsUpdate cf f 0 old) /\
       fvElemGeom_ cf = fvGeomUpdate elem /\
       scvVars_ cf = scvVars_ (updateAll elem c) /\
       (forall s t, volVars cf s t = volVars (updateAll elem c) s t)).
Proof.
  assert (Hgeom : elemPtr_ (updateFVElemGeom elem c) = Some elem) by reflexivity.
  destruct (updateAllScvVars_frame _ _ Hgeom) as (Hl2 & Hg2 & Hsf2).
  destruct (updateAllScvfVars_frame (updateAllScvVars (updateFVElemGeom elem c)))
    as (Hl3 & Hs3).
  assert (Hn : numScv (updateFVElemGeom elem c) <= length (scvVars_ (updateFVElemGeom elem c))).
  { rewrite updateFVElemGeom_scv_size. unfold numScv; simpl. lia. }
  destruct (updateScvVars_fold_updatedIn elem (seq 0 timeDiscHistorySize) _ Hgeom Hn
              (NoDup_seq 0 timeDiscHistorySize)) as (Hfr & Hup).
  fold (updateAllScvVars (updateFVElemGeom elem c)) in Hfr, Hup.
  set (c2 := updateAllScvVars (updateFVElemGeom elem c)) in *.
  assert (Hnf : numScvf c2 <= length (scvfVars_ c2)).
  { unfold numScvf. rewrite Hg2, Hsf2, updateFVElemGeom_scvf_size. simpl. lia. }
  destruct (updateAllScvfVars_view c2 Hnf) as (Hg3 & He3 & Hflux).
  unfold phaseFrame in Hfr. injection Hfr as Hfg Hfe Hff.
  split; [|split; [|split; [|split; [|split; [|split; [|split; [|split; [|split]]]]]]]].
  - unfold updateAll. fold c2. rewrite Hl3, Hl2. unfold numScvf, numScv. rewrite Hg2.
    unfold updateAllCalls. simpl. rewrite <- !app_assoc. reflexivity.
  - reflexivity.
  - intros s t Hs Ht. unfold updateAllCalls.
    apply list_elem_of_further, elem_of_app. left.
    apply volVarsCalls_complete; assumption.
  - intros f Hf. unfold updateAllCalls.
    apply list_elem_of_further, elem_of_app. right.
    apply list_elem_of_In, in_map_iff. exists f. split; [reflexivity|apply in_seq; lia].
  - intros i j f tf s ts Hi Hj. unfold updateAllCalls in Hi, Hj.
    destruct i as [|i]; [discriminate|]. destruct j as [|j]; [discriminate|].
    simpl in Hi, Hj.
    set (vc := volVarsCalls (numVertices (fvGeomUpdate elem))) in *.
    destruct (decide (i < length vc)) as [Hlt|Hge].
    + rewrite lookup_app_l in Hi by assumption.
      apply list_elem_of_lookup_2, volVarsCalls_elem in Hi as (? & ? & ? & _).
      discriminate.
    + rewrite lookup_app_r in Hi by lia.
      destruct (decide (j < length vc)) as [Hjlt|Hjge].
      * split; [lia|].
        apply list_elem_of_lookup_2, list_elem_of_In, in_map_iff in Hi
          as (? & Heq & _). congruence.
      * rewrite lookup_app_r in Hj by lia.
        apply list_elem_of_lookup_2, list_elem_of_In, in_map_iff in Hj
          as (? & ? & _). discriminate.
  - unfold updateAll. fold c2. apply Hs3.
  - unfold updateAll. fold c2. rewrite Hg3, Hfg. reflexivity.
  - unfold updateAll. fold c2. rewrite He3, Hfe. reflexivity.
  - intros s t Hs Ht.
    destruct (Hup s t) as (c1 & old & Hv & Hf1); [exact Hs|apply elem_of_seq; lia|].
    unfold phaseFrame in Hf1. injection Hf1 as H1 H2 H3.
    exists c1, old. unfold volVars, updateAll. fold c2. rewrite Hs3.
    split; [exact Hv|]. split; [exact H1|]. split; [exact H2|exact H3].
  - intros f Hf.
    destruct (Hflux f) as (cf & old & H1 & H2 & H3).
    { unfold numScvf. rewrite Hg2. exact Hf. }
    exists cf, old. unfold updateAll. fold c2.
    split; [exact H1|]. split; [rewrite H3, Hg2; reflexivity|].
    split; [rewrite Hs3; exact H2|].
    intros s t. unfold volVars. rewrite Hs3, H2. reflexivity.
Qed.

End ElementContext.

(** *** A concrete context

    Primary variables, volume variables and flux variables are numbers;
    an element is the pair of its vertex and edge counts. *)
Definition exGeom (elem : nat * nat) : FVElementGeometry := MkGeom (fst elem) (snd elem).

Definition exStore (pv vv : nat) : ScvStore_ nat nat :=
  MkScvStore nat nat (fun _ => vv) (fun _ => pv) (fun _ => None).

Definition exCtx : BoxElementContext nat nat nat (nat * nat) :=
  MkCtx nat nat nat (nat * nat)
        [exStore 10 100; exStore 20 200; exStore 30 300] (-1) 0%nat 0%nat
        [7; 8; 9]%nat [] EvalCurrent None (MkGeom 3 3) [].

(** [exCtx] after [saveScvVars 1]. *)
Definition exCtxSaved : BoxElementContext nat nat nat (nat * nat) :=
  MkCtx nat nat nat (nat * nat)
        [exStore 10 100; exStore 20 200; exStore 30 300] 1 200%nat 20%nat
        [7; 8; 9]%nat [] EvalCurrent None (MkGeom 3 3) [].

(** [exCtxSaved] with the primary and volume variables of control
    volume 1 overwritten. *)
Definition exCtxPerturbed : BoxElementContext nat nat nat (nat * nat) :=
  MkCtx nat nat nat (nat * nat)
        [exStore 10 100; exStore 21 217; exStore 30 300] 1 200%nat 20%nat
        [7; 8; 9]%nat [] EvalCurrent None (MkGeom 3 3) [].

Lemma save_restore_roundtrip_witness :
  saveScvVars nat nat nat (nat * nat) 1 exCtx = Some exCtxSaved /\
  exists c3,
    restoreScvVars nat nat nat (nat * nat) 1 exCtxPerturbed = Some c3 /\
    is_Some (primaryVars nat nat nat (nat * nat) exCtx 1 0) /\
    is_Some (volVars nat nat nat (nat * nat) exCtx 1 0) /\
    primaryVars nat nat nat (nat * nat) c3 1 0
      = primaryVars nat nat nat (nat * nat) exCtx 1 0 /\
    volVars nat nat nat (nat * nat) c3 1 0 = volVars nat nat nat (nat * nat) exCtx 1 0.
Proof.
  split; [reflexivity|].
  apply (save_restore_roundtrip nat nat nat (nat * nat) 1 exCtx exCtxSaved exCtxPerturbed).
  - reflexivity.
  - reflexivity.
  - reflexivity.
  - simpl. lia.
Defined.

Lemma updateFVElemGeom_grow_only_witness :
  scvVars_ nat nat nat (nat * nat)
    (updateFVElemGeom nat nat nat (nat * nat) 0 0 0 exGeom (2, 1) exCtx)
    = scvVars_ nat nat nat (nat * nat) exCtx /\
  scvfVars_ nat nat nat (nat * nat)
    (updateFVElemGeom nat nat nat (nat * nat) 0 0 0 exGeom (2, 1) exCtx)
    = scvfVars_ nat nat nat (nat * nat) exCtx.
Proof.
  apply (proj1 (proj2 (updateFVElemGeom_grow_only nat nat nat (nat * nat)
                         0 0 0 exGeom)) (2, 1) exCtx); simpl; lia.
Defined.

(** In [exCtxPerturbed] control volume 1 is saved (200) and perturbed
    (217): it is the one control volume whose evaluation point differs,
    control volume 2 is unperturbed, and saving control volume 2 makes
    control volume 1 answer with its current volume variables again. *)
Lemma single_perturbed_scv_witness :
  (evalPointVolVars nat nat nat (nat * nat) exCtxPerturbed 1 0
     <> volVars nat nat nat (nat * nat) exCtxPerturbed 1 0 /\
   scvIdxSaved_ nat nat nat (nat * nat) exCtxPerturbed = Z.of_nat 1) /\
  (evalPointVolVars nat nat nat (nat * nat) exCtxPerturbed 1 0
     = volVars nat nat nat (nat * nat) exCtxPerturbed 1 0 \/
   evalPointVolVars nat nat nat (nat * nat) exCtxPerturbed 2 0
     = volVars nat nat nat (nat * nat) exCtxPerturbed 2 0) /\
  (exists c',
     saveScvVars nat nat nat (nat * nat) 2 exCtxPerturbed = Some c' /\
     scvIdxSaved_ nat nat nat (nat * nat) c' = Z.of_nat 2 /\
     evalPointVolVars nat nat nat (nat * nat) c' 1 0
       = volVars nat nat nat (nat * nat) c' 1 0).
Proof.
  destruct (single_perturbed_scv nat nat nat (nat * nat)) as (H1 & H2 & H3).
  assert (Hdiff : evalPointVolVars nat nat nat (nat * nat) exCtxPerturbed 1 0
                  <> volVars nat nat nat (nat * nat) exCtxPerturbed 1 0).
  { intros H. vm_compute in H. discriminate H. }
  split; [split; [exact Hdiff|exact (H1 exCtxPerturbed 1 Hdiff)]|].
  split; [apply (H2 exCtxPerturbed 1 2); lia|].
  eexists. split; [reflexivity|].
  apply (H3 exCtxPerturbed _ 1 2); [lia|reflexivity].
Defined.

(** *** A concrete model around the context

    Two time levels; control volume [s] of any element maps to the
    global vertex [s + 10]; the solution at time level [t] and vertex
    [g] is [100 t + g]. *)
Definition exVertexMap (elem : nat * nat) (s : nat) : nat := s + 10.
Definition exSolution (t g : nat) : nat := 100 * t + g.
Definition exHint (g t : nat) : option nat := Some (g + t).
Definition exVolVarsUpdate (c : BoxElementContext nat nat nat (nat * nat))
    (s t old : nat) : nat :=
  match primaryVars nat nat nat (nat * nat) c s t with
  | Some p => 2 * p
  | None => old
  end.
Definition exFluxVarsUpdate (c : BoxElementContext nat nat nat (nat * nat))
    (f t old : nat) : nat :=
  match volVars nat nat nat (nat * nat) c f t with
  | Some v => v + old
  | None => old
  end.
Definition exUpdateAll :=
  updateAll nat nat nat (nat * nat) 2 0 0 0 exGeom exVertexMap exSolution exHint
            exVolVarsUpdate exFluxVarsUpdate.

(** [exCtxPerturbed] after [restoreScvVars 1]. *)
Definition exCtxRestored : BoxElementContext nat nat nat (nat * nat) :=
  default exCtx (restoreScvVars nat nat nat (nat * nat) 1 exCtxPerturbed).

Lemma updateFVElemGeom_keeps_entries_witness :
  scvVars_ nat nat nat (nat * nat)
    (updateFVElemGeom nat nat nat (nat * nat) 0 0 0 exGeom (5, 4) exCtx) !! 1%nat
    = scvVars_ nat nat nat (nat * nat) exCtx !! 1%nat /\
  scvVars_ nat nat nat (nat * nat)
    (updateFVElemGeom nat nat nat (nat * nat) 0 0 0 exGeom (5, 4) exCtx) !! 4%nat
    = Some (defaultScvStore nat nat 0 0).
Proof.
  split.
  - apply (proj1 (updateFVElemGeom_keeps_entries nat nat nat (nat * nat)
                    0 0 0 exGeom (5, 4) exCtx) 1). simpl; lia.
  - apply (proj1 (proj2 (updateFVElemGeom_keeps_entries nat nat nat (nat * nat)
                           0 0 0 exGeom (5, 4) exCtx)) 4); simpl; lia.
Defined.

Lemma updateAll_populates_witness :
  primaryVars nat nat nat (nat * nat) (exUpdateAll (2, 1) exCtx) 1 1
    = Some (exSolution 1 (exVertexMap (2, 1) 1)) /\
  hint nat nat nat (nat * nat) (exUpdateAll (2, 1) exCtx) 1 1
    = exHint (exVertexMap (2, 1) 1) 1 /\
  volVarsUpdated nat nat nat (nat * nat) exVertexMap exSolution exHint exVolVarsUpdate
    (2, 1) (exUpdateAll (2, 1) exCtx) 1 1.
Proof.
  apply (updateAll_populates nat nat nat (nat * nat) 2 0 0 0 exGeom exVertexMap
           exSolution exHint exVolVarsUpdate exFluxVarsUpdate (2, 1) exCtx 1 1);
    simpl; lia.
Defined.

Lemma updateAll_stale_beyond_element_witness :
  scvVars_ nat nat nat (nat * nat) (exUpdateAll (2, 1) exCtx) !! 2%nat
    = scvVars_ nat nat nat (nat * nat) exCtx !! 2%nat.
Proof.
  apply (updateAll_stale_beyond_element nat nat nat (nat * nat) 2 0 0 0 exGeom
           exVertexMap exSolution exHint exVolVarsUpdate exFluxVarsUpdate
           (2, 1) exCtx 2); simpl; lia.
Defined.

Lemma updateAll_keeps_saved_scv_witness :
  evalPointVolVars nat nat nat (nat * nat) (exUpdateAll (3, 3) exCtxSaved) 1 0
    = Some 200.
Proof.
  apply (proj2 (proj2 (proj2 (proj2
           (updateAll_keeps_saved_scv nat nat nat (nat * nat) 2 0 0 0 exGeom
              exVertexMap exSolution exHint exVolVarsUpdate exFluxVarsUpdate
              (3, 3) exCtxSaved)))) 1).
  reflexivity.
Defined.

Lemma updateAll_flux_from_updated_volVars_witness :
  exists cf old,
    fluxVars nat nat nat (nat * nat) (exUpdateAll (2, 1) exCtx) 0 0
      = Some (exFluxVarsUpdate cf 0 0 old) /\
    scvVars_ nat nat nat (nat * nat) cf
      = scvVars_ nat nat nat (nat * nat) (exUpdateAll (2, 1) exCtx) /\
    fvElemGeom_ nat nat nat (nat * nat) cf = exGeom (2, 1).
Proof.
  apply (updateAll_flux_from_updated_volVars nat nat nat (nat * nat) 2 0 0 0 exGeom
           exVertexMap exSolution exHint exVolVarsUpdate exFluxVarsUpdate
           (2, 1) exCtx 0).
  simpl; lia.
Defined.

Lemma restoreScvVars_clears_perturbation_witness :
  (forall s t, evalPointVolVars nat nat nat (nat * nat) exCtxRestored s t
               = volVars nat nat nat (nat * nat) exCtxRestored s t) /\
  (forall s t, ~ (s = 1%nat /\ t = 0%nat) ->
     volVars nat nat nat (nat * nat) exCtxRestored s t
       = volVars nat nat nat (nat * nat) exCtxPerturbed s t /\
     primaryVars nat nat nat (nat * nat) exCtxRestored s t
       = primaryVars nat nat nat (nat * nat) exCtxPerturbed s t) /\
  (forall s t, hint nat nat nat (nat * nat) exCtxRestored s t
               = hint nat nat nat (nat * nat) exCtxPerturbed s t) /\
  scvfVars_ nat nat nat (nat * nat) exCtxRestored
    = scvfVars_ nat nat nat (nat * nat) exCtxPerturbed /\
  scvfVarsEval_ nat nat nat (nat * nat) exCtxRestored
    = scvfVarsEval_ nat nat nat (nat * nat) exCtxPerturbed.
Proof.
  apply (restoreScvVars_clears_perturbation nat nat nat (nat * nat) 1
           exCtxPerturbed exCtxRestored).
  reflexivity.
Defined.

Lemma restoreScvVars_unchecked_index_witness :
  exists c2,
    restoreScvVars nat nat nat (nat * nat) 2 exCtxSaved = Some c2 /\
    primaryVars nat nat nat (nat * nat) c2 2 0
      = primaryVars nat nat nat (nat * nat) exCtx 1 0 /\
    volVars nat nat nat (nat * nat) c2 2 0 = volVars nat nat nat (nat * nat) exCtx 1 0 /\
    scvIdxSaved_ nat nat nat (nat * nat) c2 = (-1)%Z.
Proof.
  apply (restoreScvVars_unchecked_index nat nat nat (nat * nat) 1 2 exCtx exCtxSaved).
  - reflexivity.
  - simpl. lia.
Defined.

Lemma updateAll_phase_order_witness :
  (exists c1 old,
     volVars nat nat nat (nat * nat) (exUpdateAll (2, 1) exCtx) 1 1
       = Some (exVolVarsUpdate c1 1 1 old) /\
     fvElemGeom_ nat nat nat (nat * nat) c1 = exGeom (2, 1) /\
     elemPtr_ nat nat nat (nat * nat) c1 = Some (2, 1) /\
     scvfVars_ nat nat nat (nat * nat) c1
       = scvfVars_ nat nat nat (nat * nat)
           (updateFVElemGeom nat nat nat (nat * nat) 0 0 0 exGeom (2, 1) exCtx)) /\
  (exists cf old,
     fluxVars nat nat nat (nat * nat) (exUpdateAll (2, 1) exCtx) 0 0
       = Some (exFluxVarsUpdate cf 0 0 old) /\
     fvElemGeom_ nat nat nat (nat * nat) cf = exGeom (2, 1) /\
     scvVars_ nat nat nat (nat * nat) cf
       = scvVars_ nat nat nat (nat * nat) (exUpdateAll (2, 1) exCtx) /\
     (forall s t, volVars nat nat nat (nat * nat) cf s t
                  = volVars nat nat nat (nat * nat) (exUpdateAll (2, 1) exCtx) s t)).
Proof.
  destruct (updateAll_phase_order nat nat nat (nat * nat) 2 0 0 0 exGeom exVertexMap
              exSolution exHint exVolVarsUpdate exFluxVarsUpdate (2, 1) exCtx)
    as (_ & _ & _ & _ & _ & _ & _ & _ & Hvol & Hflux).
  split.
  - apply (Hvol 1 1); simpl; lia.
  - apply (Hflux 0). simpl; lia.
Defined.

Lemma save_perturb_restore_witness :
  (forall s',
     evalPointVolVars nat nat nat (nat * nat)
       (updateScvVars3 nat nat nat (nat * nat) exVolVarsUpdate 21 1 0 exCtxSaved) s' 0
     = volVars nat nat nat (nat * nat) exCtx s' 0) /\
  primaryVars nat nat nat (nat * nat)
    (updateScvVars3 nat nat nat (nat * nat) exVolVarsUpdate 21 1 0 exCtxSaved) 1 0
    = Some 21 /\
  exists c3,
    restoreScvVars nat nat nat (nat * nat) 1
      (updateScvVars3 nat nat nat (nat * nat) exVolVarsUpdate 21 1 0 exCtxSaved)
      = Some c3 /\
    forall s' t,
      primaryVars nat nat nat (nat * nat) c3 s' t
        = primaryVars nat nat nat (nat * nat) exCtx s' t /\
      volVars nat nat nat (nat * nat) c3 s' t = volVars nat nat nat (nat * nat) exCtx s' t /\
      hint nat nat nat (nat * nat) c3 s' t = hint nat nat nat (nat * nat) exCtx s' t /\
      evalPointVolVars nat nat nat (nat * nat) c3 s' t
        = volVars nat nat nat (nat * nat) exCtx s' t.
Proof.
  apply (save_perturb_restore nat nat nat (nat * nat) exVolVarsUpdate 1 21 exCtx exCtxSaved).
  reflexivity.
Defined.

End ElemCtx.

(* ===================================================================== *)
(** ** ecfvdiscretization.hh *)
(* ===================================================================== *)

Module Ecfv.

(** The type tag the property specialisations of this file are keyed on. *)
Inductive TTag := EcfvDiscretization.

(** A property is a struct template with a static member [value]; it
    is looked up by (TypeTag, splice tag), and a partial specialisation
    is an instance. *)
Class LinearizeNonLocalElements (TypeTag : Type) (tag : TTag) :=
  { LinearizeNonLocalElements_value : bool }.
Class UseLinearizationLock (TypeTag : Type) (tag : TTag) :=
  { UseLinearizationLock_value : bool }.

Definition LinearizeNonLocalElements_Ecfv (TypeTag : Type) :
  LinearizeNonLocalElements TypeTag EcfvDiscretization :=
  {| LinearizeNonLocalElements_value := true |}.
Definition UseLinearizationLock_Ecfv (TypeTag : Type) :
  UseLinearizationLock TypeTag EcfvDiscretization :=
  {| UseLinearizationLock_value := false |}.

#[export] Existing Instance LinearizeNonLocalElements_Ecfv.
#[export] Existing Instance UseLinearizationLock_Ecfv.

(** [getPropValue<TypeTag, Properties::...>()], resolved at compile time. *)
Definition getLinearizeNonLocalElements (TypeTag : Type) (tag : TTag)
    `{P : LinearizeNonLocalElements TypeTag tag} : bool :=
  LinearizeNonLocalElements_value.
Definition getUseLinearizationLock (TypeTag : Type) (tag : TTag)
    `{P : UseLinearizationLock TypeTag tag} : bool :=
  UseLinearizationLock_value.

Section Discretization.

Variables SolutionVector Restarter Other : Type.

(** Modelled from the spec: the parent class [FvBaseDiscretization] is
    not among the sources.  What [deserialize] uses of it is the solution
    storage, one solution vector per time level (0 = current iterate,
    1 = previous time step), reached through [solution(timeIdx)]; the
    rest of the object is [other_]. *)
Record FvBaseDiscretization := MkDisc {
  solution_ : nat -> SolutionVector;
  other_ : Other
}.

Definition solution (m : FvBaseDiscretization) (timeIdx : nat) : SolutionVector :=
  solution_ m timeIdx.

(** [Restarter::deserializeEntities<0>(model, gridView)] reads the
    stored entities into the model. *)
Variable deserializeEntities :
  Restarter -> FvBaseDiscretization -> Restarter * FvBaseDiscretization.

Definition deserialize (res : Restarter) (m : FvBaseDiscretization)
    : Restarter * FvBaseDiscretization :=
  let '(res1, m1) := deserializeEntities res m in
  (res1, MkDisc (<[1%nat := solution m1 0]> (solution_ m1)) (other_ m1)).

(** C10.  After [deserialize] the solution of time level 1 equals the
    solution of time level 0, which is the one [deserializeEntities]
    produced; the older time levels and the rest of the model are as
    [deserializeEntities] left them. *)
Theorem deserialize_copies_current_solution res m :
  let m1 := snd (deserializeEntities res m) in
  let m' := snd (deserialize res m) in
  solution m' 1 = solution m' 0 /\
  solution m' 0 = solution m1 0 /\
  (forall t, t <> 1%nat -> solution m' t = solution m1 t) /\
  other_ m' = other_ m1 /\
  fst (deserialize res m) = fst (deserializeEntities res m).
Proof.
  unfold deserialize. destruct (deserializeEntities res m) as [res1 m1]. simpl.
  unfold solution; simpl.
  rewrite fn_lookup_insert. rewrite fn_lookup_insert_ne by lia.
  repeat split. intros t Ht. rewrite fn_lookup_insert_ne by congruence. reflexivity.
Qed.

End Discretization.

(** C9.  For every type tag, the element-centred scheme fixes the two
    assembly properties: non-local elements are linearised, and no
    linearisation lock is used. *)
Theorem ecfv_assembly_regime (TypeTag : Type) :
  getLinearizeNonLocalElements TypeTag EcfvDiscretization = true /\
  getUseLinearizationLock TypeTag EcfvDiscretization = false.
Proof. split; reflexivity. Qed.

End Ecfv.

(* ===================================================================== *)
(** ** Dense vectors and matrices ([Dune::FieldVector], [Dune::FieldMatrix]) *)
(* ===================================================================== *)

Module LinAlg.
Local Open Scope Q_scope.

Definition FieldVector := list Q.
Definition FieldMatrix := list (list Q).

(** [u * v], the scalar product.  The vectors of one world have the
    same length; on lists of different lengths the sum stops at the
    shorter one. *)
Definition dot (u v : FieldVector) : Q := fold_right Qplus 0 (zip_with Qmult u v).

(** [M.mv(x, y)]: [y = M x]. *)
Definition mv (M : FieldMatrix) (x : FieldVector) : FieldVector :=
  map (fun row => dot row x) M.

Definition vopp (u : FieldVector) : FieldVector := map Qopp u.
Definition vsub (u v : FieldVector) : FieldVector := zip_with Qminus u v.

(** [u /= s] *)
Definition vdivs (u : FieldVector) (s : Q) : FieldVector := map (fun x => x / s) u.

(** Componentwise equality of rationals. *)
Definition veq (u v : FieldVector) : Prop := Forall2 Qeq u v.

Lemma dot_vopp_r u v : dot u (vopp v) == - dot u v.
Proof.
  unfold dot, vopp. revert v. induction u as [|a u IH]; intros [|b v]; simpl; try ring.
  rewrite IH. ring.
Qed.

Lemma dot_vopp_l u v : dot (vopp u) v == - dot u v.
Proof.
  unfold dot, vopp. revert v. induction u as [|a u IH]; intros [|b v]; simpl; try ring.
  rewrite IH. ring.
Qed.

Lemma dot_veq_l u u' v : veq u u' -> dot u v == dot u' v.
Proof.
  unfold dot, veq. intros H. revert v.
  induction H as [|a a' u u' Ha _ IH]; intros [|b v]; simpl; try reflexivity.
  rewrite IH, Ha. reflexivity.
Qed.

Lemma mv_vopp M x : veq (mv M (vopp x)) (vopp (mv M x)).
Proof.
  unfold veq, mv, vopp. induction M as [|row M IH]; simpl; constructor.
  - apply dot_vopp_r.
  - exact IH.
Qed.

Lemma dot_mv_vopp M x g : dot (mv M (vopp x)) g == - dot (mv M x) g.
Proof. rewrite (dot_veq_l _ _ _ (mv_vopp M x)). apply dot_vopp_l. Qed.

End LinAlg.

(* ===================================================================== *)
(** ** 1p2clocalresidual.hh *)
(* ===================================================================== *)

Module OnePTwoC.
Import LinAlg.
Local Open Scope Q_scope.

(** What the local residual reads of [OnePTwoCVolumeVariables]. *)
Record VolumeVariables := MkVolVars {
  density : Q;
  viscosity : Q;
  porosity : Q;
  concentration : nat -> Q
}.

(** A sub-control-volume face: its two control volumes and its normal,
    which points from [i] to [j]. *)
Record SCVFace := MkFace {
  i : nat;
  j : nat;
  normal : FieldVector
}.

(** What the local residual reads of [OnePTwoCFluxVariables]. *)
Record FluxVariables := MkFluxVars {
  face : SCVFace;
  intrinsicPermeability : FieldMatrix;
  potentialGrad : FieldVector;
  porousDiffCoeff : Q;
  concentrationGrad : nat -> FieldVector;
  dispersionTensor : FieldMatrix
}.

(** The same face seen from the neighbouring control volume: the two
    control volumes change roles and the normal points the other way;
    the gradients and coefficients on the face are the same. *)
Definition flipFace (fv : FluxVariables) : FluxVariables :=
  MkFluxVars (MkFace (j (face fv)) (i (face fv)) (vopp (normal (face fv))))
             (intrinsicPermeability fv) (potentialGrad fv) (porousDiffCoeff fv)
             (concentrationGrad fv) (dispersionTensor fv).

(** A vector of primary variables, indexed by the equation. *)
Definition PrimaryVariables := nat -> Q.

Section Storage.

(** [Indices::contiEqIdx], [Indices::transEqIdx] *)
Variables contiEqIdx transEqIdx : nat.

(** [curVolVars_(idx)], [prevVolVars_(idx)] of the parent class. *)
Variables curVolVars_ prevVolVars_ : nat -> VolumeVariables.

Definition computeStorage (scvIdx : nat) (usePrevSol : bool) : PrimaryVariables :=
  let volVars := if usePrevSol then prevVolVars_ scvIdx else curVolVars_ scvIdx in
  <[transEqIdx := concentration volVars 1 * porosity volVars]>
    (<[contiEqIdx := density volVars * porosity volVars]> (fun _ => 0)).

End Storage.

Section LocalResidual.

(** [Indices::contiEqIdx], [Indices::transEqIdx] *)
Variables contiEqIdx transEqIdx : nat.

(** [GET_PROP_VALUE(TypeTag, UpwindAlpha)] *)
Variable upwindAlpha : Q.

(** [FluxVariables::upstreamIdx], [FluxVariables::downstreamIdx]:
    declared in 1p2cfluxvariables.hh, which is not among the sources. *)
Variables upstreamIdx downstreamIdx : FluxVariables -> Q -> nat.

(** [curVolVars_(idx)] of the parent class. *)
Variable curVolVars_ : nat -> VolumeVariables.

(** [- (tmpVec * fluxVars.face().normal)] with [tmpVec = K grad(potential)] *)
Definition normalFlux (fluxVars : FluxVariables) : Q :=
  let tmpVec := mv (intrinsicPermeability fluxVars) (potentialGrad fluxVars) in
  - dot tmpVec (normal (face fluxVars)).

(** The two upwinded coefficients of the advective fluxes. *)
Definition upwindMobility (up dn : VolumeVariables) : Q :=
  upwindAlpha * density up / viscosity up
  + (1 - upwindAlpha) * density dn / viscosity dn.

Definition upwindConcentrationMobility (up dn : VolumeVariables) : Q :=
  upwindAlpha * concentration up 1 / viscosity up
  + (1 - upwindAlpha) * concentration dn 1 / viscosity dn.

(** The body of [computeFlux] once [fluxVars] is constructed. *)
Definition computeFluxAt (fluxVars : FluxVariables) : PrimaryVariables :=
  let flux : PrimaryVariables := fun _ => 0 in
  let normalFlux := normalFlux fluxVars in
  let up := curVolVars_ (upstreamIdx fluxVars normalFlux) in
  let dn := curVolVars_ (downstreamIdx fluxVars normalFlux) in
  let flux := <[contiEqIdx := normalFlux * upwindMobility up dn]> flux in
  let flux := <[transEqIdx :=
      flux transEqIdx + normalFlux * upwindConcentrationMobility up dn]> flux in
  let c := (concentration up 1 + concentration dn 1) / 2 in
  let flux := <[transEqIdx :=
      flux transEqIdx
      + c * porousDiffCoeff fluxVars
        * dot (concentrationGrad fluxVars 1) (normal (face fluxVars))]> flux in
  let normalDisp := mv (dispersionTensor fluxVars) (normal (face fluxVars)) in
  let flux := <[transEqIdx :=
      flux transEqIdx + c * dot normalDisp (concentrationGrad fluxVars 1)]> flux in
  fun eqIdx => flux eqIdx * -1.

(** *** The upwind rule

    The specification fixes the upwind choice by the sign of the normal
    flux: the control volume the flux leaves is the upstream one.  At a
    zero normal flux the two control volumes of the face are still the
    ones selected, in either order. *)
Hypothesis upwind_pos : forall fv q, 0 < q ->
  upstreamIdx fv q = i (face fv) /\ downstreamIdx fv q = j (face fv).
Hypothesis upwind_neg : forall fv q, q < 0 ->
  upstreamIdx fv q = j (face fv) /\ downstreamIdx fv q = i (face fv).
Hypothesis upwind_tie : forall fv q, q == 0 ->
  (upstreamIdx fv q = i (face fv) /\ downstreamIdx fv q = j (face fv)) \/
  (upstreamIdx fv q = j (face fv) /\ downstreamIdx fv q = i (face fv)).

(** The four contributions [computeFlux] adds up, before the final
    change of sign. *)
Definition upOf (fv : FluxVariables) : VolumeVariables :=
  curVolVars_ (upstreamIdx fv (normalFlux fv)).
Definition dnOf (fv : FluxVariables) : VolumeVariables :=
  curVolVars_ (downstreamIdx fv (normalFlux fv)).
Definition meanConcentration (fv : FluxVariables) : Q :=
  (concentration (upOf fv) 1 + concentration (dnOf fv) 1) / 2.
Definition massFluxTerm (fv : FluxVariables) : Q :=
  normalFlux fv * upwindMobility (upOf fv) (dnOf fv).
Definition advectiveTerm (fv : FluxVariables) : Q :=
  normalFlux fv * upwindConcentrationMobility (upOf fv) (dnOf fv).
Definition diffusiveTerm (fv : FluxVariables) : Q :=
  meanConcentration fv * porousDiffCoeff fv
  * dot (concentrationGrad fv 1) (normal (face fv)).
Definition dispersiveTerm (fv : FluxVariables) : Q :=
  meanConcentration fv
  * dot (mv (dispersionTensor fv) (normal (face fv))) (concentrationGrad fv 1).

(** *** The central scheme

    Following the words of the specification ("ties resolve to an
    arithmetic-mean (central) scheme"): the flux in which the two
    control volumes of the face enter the advective terms with their
    arithmetic mean instead of the upwind blend.  It is the reference
    [computeFlux] is compared with, not a part of the source. *)
Definition centralMobility (a b : VolumeVariables) : Q :=
  (density a / viscosity a + density b / viscosity b) / 2.

Definition centralConcentrationMobility (a b : VolumeVariables) : Q :=
  (concentration a 1 / viscosity a + concentration b 1 / viscosity b) / 2.

Definition centralFluxAt (fluxVars : FluxVariables) : PrimaryVariables :=
  let a := curVolVars_ (i (face fluxVars)) in
  let b := curVolVars_ (j (face fluxVars)) in
  let flux : PrimaryVariables := fun _ => 0 in
  let flux := <[contiEqIdx := normalFlux fluxVars * centralMobility a b]> flux in
  let flux := <[transEqIdx :=
      flux transEqIdx + normalFlux fluxVars * centralConcentrationMobility a b]> flux in
  let c := (concentration a 1 + concentration b 1) / 2 in
  let flux := <[transEqIdx :=
      flux transEqIdx
      + c * porousDiffCoeff fluxVars
        * dot (concentrationGrad fluxVars 1) (normal (face fluxVars))]> flux in
  let normalDisp := mv (dispersionTensor fluxVars) (normal (face fluxVars)) in
  let flux := <[transEqIdx :=
      flux transEqIdx + c * dot normalDisp (concentrationGrad fluxVars 1)]> flux in
  fun eqIdx => flux eqIdx * -1.

(** C3 as the specification states it for the upwinded quantity of
    [computeFlux]: at a zero normal flux the upwinded mobility is the
    arithmetic mean of the mobilities of the two control volumes. *)
Definition tieResolvesToMean : Prop :=
  forall fv, normalFlux fv == 0 ->
    upwindMobility (upOf fv) (dnOf fv)
    == centralMobility (curVolVars_ (i (face fv))) (curVolVars_ (j (face fv))).

(** How far the upwind blend is from the mean, per equation. *)
Definition mobilityDeviation (fv : FluxVariables) : Q :=
  upwindMobility (upOf fv) (dnOf fv)
  - centralMobility (curVolVars_ (i (face fv))) (curVolVars_ (j (face fv))).

Definition concentrationMobilityDeviation (fv : FluxVariables) : Q :=
  upwindConcentrationMobility (upOf fv) (dnOf fv)
  - centralConcentrationMobility (curVolVars_ (i (face fv))) (curVolVars_ (j (face fv))).

Definition blendDeviation (fv : FluxVariables) (eqIdx : nat) : Q :=
  if decide (transEqIdx = eqIdx)
  then (if decide (contiEqIdx = transEqIdx) then mobilityDeviation fv else 0)
       + concentrationMobilityDeviation fv
  else if decide (contiEqIdx = eqIdx) then mobilityDeviation fv else 0.

Lemma computeFluxAt_terms fv eqIdx :
  computeFluxAt fv eqIdx
  = (if decide (transEqIdx = eqIdx)
     then (if decide (contiEqIdx = transEqIdx) then massFluxTerm fv else 0)
          + advectiveTerm fv + diffusiveTerm fv + dispersiveTerm fv
     else if decide (contiEqIdx = eqIdx) then massFluxTerm fv else 0) * -1.
Proof.
  unfold computeFluxAt, insert, fn_insert. cbv zeta.
  destruct (decide (transEqIdx = eqIdx)) as [->|Ht].
  - rewrite !decide_True by reflexivity. reflexivity.
  - reflexivity.
Qed.

Lemma normalFlux_flip fv : normalFlux (flipFace fv) == - normalFlux fv.
Proof. unfold normalFlux, flipFace; simpl. rewrite dot_vopp_r. reflexivity. Qed.

(** Seen from the other side, the same two control volumes are selected
    unless the normal flux is zero, where they may change places. *)
Lemma upwind_flip fv :
  (~ normalFlux fv == 0 /\ upOf (flipFace fv) = upOf fv /\ dnOf (flipFace fv) = dnOf fv)
  \/ (normalFlux fv == 0 /\
      ((upOf (flipFace fv) = upOf fv /\ dnOf (flipFace fv) = dnOf fv) \/
       (upOf (flipFace fv) = dnOf fv /\ dnOf (flipFace fv) = upOf fv))).
Proof.
  pose proof (normalFlux_flip fv) as Hf. unfold upOf, dnOf.
  destruct (Q_dec (normalFlux fv) 0) as [[Hneg|Hpos]|Hz].
  - left. split; [lra|].
    destruct (upwind_neg fv _ Hneg) as [-> ->].
    destruct (upwind_pos (flipFace fv) (normalFlux (flipFace fv))) as [-> ->]; [lra|].
    split; reflexivity.
  - left. split; [lra|].
    destruct (upwind_pos fv _ Hpos) as [-> ->].
    destruct (upwind_neg (flipFace fv) (normalFlux (flipFace fv))) as [-> ->]; [lra|].
    split; reflexivity.
  - right. split; [exact Hz|].
    assert (Hz' : normalFlux (flipFace fv) == 0) by lra.
    destruct (upwind_tie fv _ Hz) as [[-> ->]|[-> ->]];
      destruct (upwind_tie (flipFace fv) _ Hz') as [[-> ->]|[-> ->]]; simpl; tauto.
Qed.

Lemma meanConcentration_flip fv : meanConcentration (flipFace fv) == meanConcentration fv.
Proof.
  unfold meanConcentration.
  destruct (upwind_flip fv) as [(_ & -> & ->)|(_ & [[-> ->]|[-> ->]])];
    try reflexivity.
  unfold Qdiv. ring.
Qed.

Lemma massFluxTerm_flip fv : massFluxTerm (flipFace fv) == - massFluxTerm fv.
Proof.
  unfold massFluxTerm. pose proof (normalFlux_flip fv) as Hf.
  destruct (upwind_flip fv) as [(_ & -> & ->)|(Hz & _)].
  - rewrite Hf. ring.
  - rewrite Hf, Hz. ring.
Qed.

Lemma advectiveTerm_flip fv : advectiveTerm (flipFace fv) == - advectiveTerm fv.
Proof.
  unfold advectiveTerm. pose proof (normalFlux_flip fv) as Hf.
  destruct (upwind_flip fv) as [(_ & -> & ->)|(Hz & _)].
  - rewrite Hf. ring.
  - rewrite Hf, Hz. ring.
Qed.

Lemma diffusiveTerm_flip fv : diffusiveTerm (flipFace fv) == - diffusiveTerm fv.
Proof.
  unfold diffusiveTerm. rewrite meanConcentration_flip. simpl.
  rewrite dot_vopp_r. ring.
Qed.

Lemma dispersiveTerm_flip fv : dispersiveTerm (flipFace fv) == - dispersiveTerm fv.
Proof.
  unfold dispersiveTerm. rewrite meanConcentration_flip. simpl.
  rewrite dot_mv_vopp. ring.
Qed.

Lemma meanConcentration_faces fv :
  meanConcentration fv
  == (concentration (curVolVars_ (i (face fv))) 1
      + concentration (curVolVars_ (j (face fv))) 1) / 2.
Proof.
  unfold meanConcentration, upOf, dnOf.
  destruct (Q_dec (normalFlux fv) 0) as [[Hneg|Hpos]|Hz].
  - destruct (upwind_neg fv _ Hneg) as [-> ->]. unfold Qdiv. ring.
  - destruct (upwind_pos fv _ Hpos) as [-> ->]. reflexivity.
  - destruct (upwind_tie fv _ Hz) as [[-> ->]|[-> ->]]; [reflexivity|].
    unfold Qdiv. ring.
Qed.

Lemma computeFluxAt_minus_central fv eqIdx :
  computeFluxAt fv eqIdx - centralFluxAt fv eqIdx
  == - normalFlux fv * blendDeviation fv eqIdx.
Proof.
  rewrite computeFluxAt_terms.
  unfold centralFluxAt, insert, fn_insert. cbv zeta.
  pose proof (meanConcentration_faces fv) as Hc.
  unfold blendDeviation, mobilityDeviation, concentrationMobilityDeviation.
  unfold massFluxTerm, advectiveTerm, diffusiveTerm, dispersiveTerm.
  set (c := meanConcentration fv) in *.
  set (c' := (concentration (curVolVars_ (i (face fv))) 1
              + concentration (curVolVars_ (j (face fv))) 1) / 2) in *.
  repeat case_decide; try congruence; rewrite ?Hc; ring.
Qed.

Lemma blendDeviation_bound fv eqIdx B :
  Qabs (mobilityDeviation fv) <= B ->
  Qabs (concentrationMobilityDeviation fv) <= B ->
  Qabs (blendDeviation fv eqIdx) <= 2 * B.
Proof.
  intros HM HC. apply Qabs_Qle_condition in HM, HC.
  apply Qabs_Qle_condition. unfold blendDeviation.
  repeat case_decide; lra.
Qed.

(** *** The blend parameter and the sign of the flux *)

(** The two control volumes [computeFlux] reads are the two of the
    face, in one order or the other. *)
Lemma upOf_dnOf_faces fv :
  (upOf fv = curVolVars_ (i (face fv)) /\ dnOf fv = curVolVars_ (j (face fv))) \/
  (upOf fv = curVolVars_ (j (face fv)) /\ dnOf fv = curVolVars_ (i (face fv))).
Proof.
  unfold upOf, dnOf.
  destruct (Q_dec (normalFlux fv) 0) as [[Hneg|Hpos]|Hz].
  - right. destruct (upwind_neg fv _ Hneg) as [-> ->]. split; reflexivity.
  - left. destruct (upwind_pos fv _ Hpos) as [-> ->]. split; reflexivity.
  - destruct (upwind_tie fv _ Hz) as [[-> ->]|[-> ->]]; [left|right]; split; reflexivity.
Qed.

Lemma upwindMobility_pos up dn :
  0 <= upwindAlpha -> upwindAlpha <= 1 ->
  0 < density up -> 0 < viscosity up -> 0 < density dn -> 0 < viscosity dn ->
  0 < upwindMobility up dn.
Proof.
  intros Ha0 Ha1 Hru Hmu Hrd Hmd. unfold upwindMobility, Qdiv.
  pose proof (Qinv_lt_0_compat _ Hmu) as Hiu.
  pose proof (Qinv_lt_0_compat _ Hmd) as Hid.
  set (a := density up * / viscosity up).
  set (b := density dn * / viscosity dn).
  assert (Hpa : 0 < a) by (unfold a; nra).
  assert (Hpb : 0 < b) by (unfold b; nra).
  assert (E : upwindAlpha * density up * / viscosity up
              + (1 - upwindAlpha) * density dn * / viscosity dn
              == upwindAlpha * a + (1 - upwindAlpha) * b) by (unfold a, b; ring).
  rewrite E. clearbody a b.
  destruct (Qlt_le_dec upwindAlpha (1#2)); nra.
Qed.

(** X18.  The sign of the mass flux.  With a blend parameter between 0
    and 1 and positive densities and viscosities, the mass component
    [computeFlux] returns has the sign opposite to the normal flux
    [-(K grad p) . n], and is zero exactly when the normal flux is: the
    final multiplication by -1 turns an outflow from [i] into a
    negative entry. *)
Theorem massFlux_opposes_normalFlux fv :
  contiEqIdx <> transEqIdx ->
  0 <= upwindAlpha -> upwindAlpha <= 1 ->
  (forall s, 0 < density (curVolVars_ s) /\ 0 < viscosity (curVolVars_ s)) ->
  (0 < normalFlux fv -> computeFluxAt fv contiEqIdx < 0) /\
  (normalFlux fv < 0 -> 0 < computeFluxAt fv contiEqIdx) /\
  (normalFlux fv == 0 -> computeFluxAt fv contiEqIdx == 0).
Proof.
  intros Hne Ha0 Ha1 Hpos.
  assert (HM : 0 < upwindMobility (upOf fv) (dnOf fv)).
  { unfold upOf, dnOf. apply upwindMobility_pos; try assumption; apply Hpos. }
  rewrite computeFluxAt_terms.
  rewrite decide_False by congruence. rewrite decide_True by reflexivity.
  unfold massFluxTerm.
  set (M := upwindMobility (upOf fv) (dnOf fv)) in *.
  set (q := normalFlux fv).
  repeat split; intros Hq; nra.
Qed.

(** X19.  In a homogeneous state the blend has no effect: when the two
    control volumes of a face hold the same volume variables, the flux
    is the central flux for every value of the blend parameter. *)
Theorem homogeneous_flux_is_central fv eqIdx :
  curVolVars_ (i (face fv)) = curVolVars_ (j (face fv)) ->
  computeFluxAt fv eqIdx == centralFluxAt fv eqIdx.
Proof.
  intros Heq.
  assert (H : computeFluxAt fv eqIdx - centralFluxAt fv eqIdx == 0); [|lra].
  rewrite computeFluxAt_minus_central.
  assert (Hup : upOf fv = curVolVars_ (j (face fv)) /\ dnOf fv = curVolVars_ (j (face fv))).
  { destruct (upOf_dnOf_faces fv) as [[-> ->]|[-> ->]]; rewrite ?Heq; split; reflexivity. }
  destruct Hup as [Hu Hd].
  assert (HMd : mobilityDeviation fv == 0).
  { unfold mobilityDeviation, upwindMobility, centralMobility.
    rewrite Hu, Hd, Heq. unfold Qdiv.
    generalize (/ viscosity (curVolVars_ (j (face fv)))). intros nu. field. }
  assert (HCd : concentrationMobilityDeviation fv == 0).
  { unfold concentrationMobilityDeviation, upwindConcentrationMobility,
      centralConcentrationMobility.
    rewrite Hu, Hd, Heq. unfold Qdiv.
    generalize (/ viscosity (curVolVars_ (j (face fv)))). intros nu. field. }
  unfold blendDeviation. repeat case_decide; rewrite ?HMd, ?HCd; ring.
Qed.

(** X20.  With the blend parameter at one half, [computeFlux] is the
    central scheme at every face and for every flux. *)
Theorem half_blend_is_central fv eqIdx :
  upwindAlpha == 1#2 ->
  computeFluxAt fv eqIdx == centralFluxAt fv eqIdx.
Proof.
  intros Ha.
  assert (H : computeFluxAt fv eqIdx - centralFluxAt fv eqIdx == 0); [|lra].
  rewrite computeFluxAt_minus_central.
  assert (HMd : mobilityDeviation fv == 0).
  { unfold mobilityDeviation, upwindMobility, centralMobility.
    destruct (upOf_dnOf_faces fv) as [[-> ->]|[-> ->]]; rewrite Ha; unfold Qdiv;
      generalize (/ viscosity (curVolVars_ (i (face fv))))
                 (/ viscosity (curVolVars_ (j (face fv)))); intros nu1 nu2; field. }
  assert (HCd : concentrationMobilityDeviation fv == 0).
  { unfold concentrationMobilityDeviation, upwindConcentrationMobility,
      centralConcentrationMobility.
    destruct (upOf_dnOf_faces fv) as [[-> ->]|[-> ->]]; rewrite Ha; unfold Qdiv;
      generalize (/ viscosity (curVolVars_ (i (face fv))))
                 (/ viscosity (curVolVars_ (j (face fv)))); intros nu1 nu2; field. }
  unfold blendDeviation. repeat case_decide; rewrite ?HMd, ?HCd; ring.
Qed.

(** X21.  Full upwinding.  With the blend parameter at one, the
    advective terms read the upstream control volume only: for a flux
    that leaves [i] the mass component is the normal flux times the
    mobility of [i], for a flux that leaves [j] it is the normal flux
    times the mobility of [j], each with the sign turned. *)
Theorem full_upwind_reads_upstream fv :
  upwindAlpha == 1 ->
  contiEqIdx <> transEqIdx ->
  (0 < normalFlux fv ->
   computeFluxAt fv contiEqIdx
   == - (normalFlux fv
         * (density (curVolVars_ (i (face fv))) / viscosity (curVolVars_ (i (face fv)))))) /\
  (normalFlux fv < 0 ->
   computeFluxAt fv contiEqIdx
   == - (normalFlux fv
         * (density (curVolVars_ (j (face fv))) / viscosity (curVolVars_ (j (face fv)))))).
Proof.
  intros Ha Hne.
  rewrite computeFluxAt_terms.
  rewrite decide_False by congruence. rewrite decide_True by reflexivity.
  unfold massFluxTerm, upwindMobility, upOf, dnOf.
  split; intros Hq.
  - destruct (upwind_pos fv _ Hq) as [-> ->]. rewrite Ha. unfold Qdiv. ring.
  - destruct (upwind_neg fv _ Hq) as [-> ->]. rewrite Ha. unfold Qdiv. ring.
Qed.

Section Faces.

(** The constructor [FluxVariables(problem, elem, fvElemGeom, faceId, curVolVars)]. *)
Variable FluxVariables_ctor : nat -> FluxVariables.

Definition computeFlux (faceId : nat) : PrimaryVariables :=
  computeFluxAt (FluxVariables_ctor faceId).

(** C2.  For a face seen from its two sides, every component of the
    flux computed from the side of [j] is the negative of the component
    computed from the side of [i]. *)
Theorem computeFlux_antisymmetric faceI faceJ :
  FluxVariables_ctor faceJ = flipFace (FluxVariables_ctor faceI) ->
  forall eqIdx, computeFlux faceJ eqIdx == - computeFlux faceI eqIdx.
Proof.
  intros Hflip eqIdx. unfold computeFlux. rewrite Hflip.
  rewrite !computeFluxAt_terms.
  pose proof (massFluxTerm_flip (FluxVariables_ctor faceI)).
  pose proof (advectiveTerm_flip (FluxVariables_ctor faceI)).
  pose proof (diffusiveTerm_flip (FluxVariables_ctor faceI)).
  pose proof (dispersiveTerm_flip (FluxVariables_ctor faceI)).
  repeat case_decide; lra.
Qed.

End Faces.

End LocalResidual.

(** *** A concrete upwind rule and a concrete face *)

(** Modelled from the spec: 1p2cfluxvariables.hh is not among the
    sources.  "The CV on the side from which the potential gradient
    points is the upstream CV": a flux that leaves [i] makes [i] the
    upstream control volume; a zero flux is counted as leaving [i]. *)
Definition upstreamIdx_sign (fv : FluxVariables) (normalFlux : Q) : nat :=
  if Qlt_le_dec normalFlux 0 then j (face fv) else i (face fv).

Definition downstreamIdx_sign (fv : FluxVariables) (normalFlux : Q) : nat :=
  if Qlt_le_dec normalFlux 0 then i (face fv) else j (face fv).

Lemma upstreamIdx_sign_pos fv q : 0 < q ->
  upstreamIdx_sign fv q = i (face fv) /\ downstreamIdx_sign fv q = j (face fv).
Proof.
  intros Hq. unfold upstreamIdx_sign, downstreamIdx_sign.
  destruct (Qlt_le_dec q 0); [lra|split; reflexivity].
Qed.

Lemma upstreamIdx_sign_neg fv q : q < 0 ->
  upstreamIdx_sign fv q = j (face fv) /\ downstreamIdx_sign fv q = i (face fv).
Proof.
  intros Hq. unfold upstreamIdx_sign, downstreamIdx_sign.
  destruct (Qlt_le_dec q 0); [split; reflexivity|lra].
Qed.

Lemma upstreamIdx_sign_tie fv q : q == 0 ->
  (upstreamIdx_sign fv q = i (face fv) /\ downstreamIdx_sign fv q = j (face fv)) \/
  (upstreamIdx_sign fv q = j (face fv) /\ downstreamIdx_sign fv q = i (face fv)).
Proof.
  intros Hq. unfold upstreamIdx_sign, downstreamIdx_sign.
  destruct (Qlt_le_dec q 0); [lra|left; split; reflexivity].
Qed.

(** Two control volumes with mobilities 1 and 3, and one face between
    them in a one-dimensional world, with and without a potential
    gradient. *)
Definition exVolVars (scvIdx : nat) : VolumeVariables :=
  match scvIdx with
  | O => MkVolVars 1 1 (1#5) (fun _ => 2)
  | _ => MkVolVars 3 1 (1#5) (fun _ => 4)
  end.

Definition exFluxVars (gradient : Q) : FluxVariables :=
  MkFluxVars (MkFace 0%nat 1%nat [1]) [[2]] [gradient] (1#2) (fun _ => [5]) [[7]].

Definition exCtor (faceId : nat) : FluxVariables :=
  match faceId with
  | O => exFluxVars (-3)
  | _ => flipFace (exFluxVars (-3))
  end.

Example exFlux_side_i :
  computeFlux 0%nat 1%nat 1 upstreamIdx_sign downstreamIdx_sign exVolVars exCtor 0%nat 0%nat == -6 /\
  computeFlux 0%nat 1%nat 1 upstreamIdx_sign downstreamIdx_sign exVolVars exCtor 0%nat 1%nat == -(249#2).
Proof. split; reflexivity. Qed.

Example exFlux_side_j :
  computeFlux 0%nat 1%nat 1 upstreamIdx_sign downstreamIdx_sign exVolVars exCtor 1%nat 0%nat == 6 /\
  computeFlux 0%nat 1%nat 1 upstreamIdx_sign downstreamIdx_sign exVolVars exCtor 1%nat 1%nat == 249#2.
Proof. split; reflexivity. Qed.

Lemma computeFlux_antisymmetric_witness :
  exCtor 1%nat = flipFace (exCtor 0%nat) /\
  computeFlux 0%nat 1%nat 1 upstreamIdx_sign downstreamIdx_sign exVolVars exCtor 1%nat 0%nat
  == - computeFlux 0%nat 1%nat 1 upstreamIdx_sign downstreamIdx_sign exVolVars exCtor 0%nat 0%nat /\
  computeFlux 0%nat 1%nat 1 upstreamIdx_sign downstreamIdx_sign exVolVars exCtor 1%nat 1%nat
  == - computeFlux 0%nat 1%nat 1 upstreamIdx_sign downstreamIdx_sign exVolVars exCtor 0%nat 1%nat.
Proof.
  split; [reflexivity|].
  split;
    apply (computeFlux_antisymmetric 0%nat 1%nat 1 upstreamIdx_sign downstreamIdx_sign
             exVolVars upstreamIdx_sign_pos upstreamIdx_sign_neg
             upstreamIdx_sign_tie exCtor 0%nat 1%nat);
    reflexivity.
Defined.

(** The face with the potential falling from [i] to [j]: the normal
    flux is 6, the mobility of the upstream control volume [i] is 1. *)
Lemma massFlux_opposes_normalFlux_witness :
  computeFluxAt 0%nat 1%nat 1 upstreamIdx_sign downstreamIdx_sign exVolVars
                (exFluxVars (-3)) 0%nat < 0.
Proof.
  destruct (massFlux_opposes_normalFlux 0%nat 1%nat 1 upstreamIdx_sign downstreamIdx_sign
              exVolVars (exFluxVars (-3))) as (Hpos & _).
  - lia.
  - lra.
  - lra.
  - intros [|s]; split; reflexivity.
  - apply Hpos. reflexivity.
Defined.

Lemma homogeneous_flux_is_central_witness :
  computeFluxAt 0%nat 1%nat 1 upstreamIdx_sign downstreamIdx_sign (fun _ => exVolVars 0)
                (exFluxVars (-3)) 1%nat
  == centralFluxAt 0%nat 1%nat (fun _ => exVolVars 0) (exFluxVars (-3)) 1%nat.
Proof.
  apply (homogeneous_flux_is_central 0%nat 1%nat 1 upstreamIdx_sign downstreamIdx_sign
           (fun _ => exVolVars 0) upstreamIdx_sign_pos upstreamIdx_sign_neg
           upstreamIdx_sign_tie (exFluxVars (-3)) 1%nat).
  reflexivity.
Defined.

Lemma half_blend_is_central_witness :
  computeFluxAt 0%nat 1%nat (1#2) upstreamIdx_sign downstreamIdx_sign exVolVars
                (exFluxVars (-3)) 0%nat
  == centralFluxAt 0%nat 1%nat exVolVars (exFluxVars (-3)) 0%nat.
Proof.
  apply (half_blend_is_central 0%nat 1%nat (1#2) upstreamIdx_sign downstreamIdx_sign
           exVolVars upstreamIdx_sign_pos upstreamIdx_sign_neg
           upstreamIdx_sign_tie (exFluxVars (-3)) 0%nat).
  reflexivity.
Defined.

Lemma full_upwind_reads_upstream_witness :
  computeFluxAt 0%nat 1%nat 1 upstreamIdx_sign downstreamIdx_sign exVolVars
                (exFluxVars (-3)) 0%nat
  == - (normalFlux (exFluxVars (-3))
        * (density (exVolVars 0) / viscosity (exVolVars 0))).
Proof.
  destruct (full_upwind_reads_upstream 0%nat 1%nat 1 upstreamIdx_sign downstreamIdx_sign
              exVolVars upstreamIdx_sign_pos upstreamIdx_sign_neg (exFluxVars (-3)))
    as (Hpos & _).
  - reflexivity.
  - lia.
  - apply Hpos. reflexivity.
Defined.

End OnePTwoC.

(* ===================================================================== *)
(** ** fvpressure1p.hh *)
(* ===================================================================== *)

Module FVPressure.
Import LinAlg.
Local Open Scope Q_scope.

(** [BoundaryTypes], read for the pressure equation. *)
Record BoundaryTypes := MkBoundaryTypes {
  isDirichlet : bool;
  isNeumann : bool
}.

(** A grid cell with what the grid and the problem answer for it. *)
Record Entity := MkEntity {
  index : nat;                          (* problem_.variables().index(e) *)
  center : FieldVector;                 (* e.geometry().center() *)
  volume : Q;                           (* e.geometry().volume() *)
  temperature : Q;                      (* problem_.temperature(e) *)
  referencePressure : Q;                (* problem_.referencePressure(e) *)
  source : Q;                           (* problem_.source(source, e) *)
  intrinsicPermeability : FieldMatrix   (* spatialParameters().intrinsicPermeability(e) *)
}.

(** An intersection of a cell.  [outside] is meaningful when [neighbor]
    holds; the boundary data are meaningful when [boundary] holds. *)
Record Intersection := MkIntersection {
  centerUnitOuterNormal : FieldVector;
  faceVolume : Q;                       (* isIt->geometry().volume() *)
  faceCenter : FieldVector;             (* isIt->geometry().center() *)
  neighbor : bool;
  boundary : bool;
  outside : Entity;
  boundaryTypes : BoundaryTypes;        (* problem_.boundaryTypes(bcType, is) *)
  dirichlet : Q;                        (* problem_.dirichlet(boundValues, is) *)
  neumann : Q                           (* problem_.neumann(boundValues, is) *)
}.

Record Element := MkElement {
  inside : Entity;
  intersections : list Intersection
}.

(** The grid view: the cells in traversal order. *)
Definition GridView := list Element.

Definition Matrix := nat -> nat -> Q.
Definition Vector := nat -> Q.

(** The assembler, together with the part of [problem_.variables()] it
    reads and writes: the cell pressures and the face potentials. *)
Record FVPressure1P := MkFV {
  A_ : Matrix;
  f_ : Vector;
  pressHard_ : Q;
  idxPressHard_ : Q;
  setPressHard_ : bool;
  variables_pressure : Vector;
  variables_potential : nat -> nat -> Q
}.

Definition set_A (A : Matrix) (st : FVPressure1P) : FVPressure1P :=
  MkFV A (f_ st) (pressHard_ st) (idxPressHard_ st) (setPressHard_ st)
       (variables_pressure st) (variables_potential st).
Definition set_f (f : Vector) (st : FVPressure1P) : FVPressure1P :=
  MkFV (A_ st) f (pressHard_ st) (idxPressHard_ st) (setPressHard_ st)
       (variables_pressure st) (variables_potential st).
Definition set_pressure (p : Vector) (st : FVPressure1P) : FVPressure1P :=
  MkFV (A_ st) (f_ st) (pressHard_ st) (idxPressHard_ st) (setPressHard_ st)
       p (variables_potential st).
Definition set_potential (pot : nat -> nat -> Q) (st : FVPressure1P) : FVPressure1P :=
  MkFV (A_ st) (f_ st) (pressHard_ st) (idxPressHard_ st) (setPressHard_ st)
       (variables_pressure st) pot.

(** [A_[r][c] = v] and [f_[r] = v] *)
Definition A_store (r c : nat) (v : Q) (st : FVPressure1P) : FVPressure1P :=
  set_A (<[r := <[c := v]> (A_ st r)]> (A_ st)) st.
Definition f_store (r : nat) (v : Q) (st : FVPressure1P) : FVPressure1P :=
  set_f (<[r := v]> (f_ st)) st.

(** An index held in a [Scalar] ([idxPressHard_]) and read back as an
    index in [A_[idxPressHard_]]: the conversion truncates. *)
Definition scalarOfIdx (n : nat) : Q := inject_Z (Z.of_nat n).
Definition idxOfScalar (q : Q) : nat := Z.to_nat (Qfloor q).

Definition setPressureHard (pressure : Q) (globalIdx : nat) (st : FVPressure1P)
    : FVPressure1P :=
  MkFV (A_ st) (f_ st) pressure (scalarOfIdx globalIdx) true
       (variables_pressure st) (variables_potential st).

Definition unsetPressureHard (globalIdx : nat) (st : FVPressure1P) : FVPressure1P :=
  MkFV (A_ st) (f_ st) 0 0 false (variables_pressure st) (variables_potential st).

(** The upwind choice of the density, as written twice in [assemble]:
    [density = (potential > 0.) ? densityI : densityJ;]
    [density = (potential == 0.) ? rhoMean : density;] *)
Definition upwindDensity (potential densityI densityJ rhoMean : Q) : Q :=
  let density := if Qlt_le_dec 0 potential then densityI else densityJ in
  if Qeq_dec potential 0 then rhoMean else density.

(** C3 as the specification states it for the assembler: the upwind
    density, and with it the gravity term of the flux, is continuous in
    the potential where the potential is zero. *)
Definition upwindDensityContinuousAtTie (densityI densityJ : Q) : Prop :=
  forall eps, 0 < eps ->
    exists delta, 0 < delta /\
      forall potential, Qabs potential < delta ->
        Qabs (upwindDensity potential densityI densityJ ((1#2) * (densityI + densityJ))
              - upwindDensity 0 densityI densityJ ((1#2) * (densityI + densityJ)))
        < eps.

Section Assembler.

(** [Fluid::density(T, p)], [Fluid::viscosity(T, p)] *)
Variables Fluid_density Fluid_viscosity : Q -> Q -> Q.

(** [spatialParameters().meanK], with two and with one permeability *)
Variable meanK2 : FieldMatrix -> FieldMatrix -> FieldMatrix.
Variable meanK1 : FieldMatrix -> FieldMatrix.

(** [FieldVector::two_norm] *)
Variable two_norm : FieldVector -> Q.

(** [problem.gravity()] *)
Variable gravity : FieldVector.

(** The linear solver: [solver.solve(A_, pressure, f_)] returns the new
    pressure. *)
Variable linearSolve : Matrix -> Vector -> Vector -> Vector.

(** The transmissibility of an interior face ([entry]). *)
Definition interiorPermeability (eI : Entity) (viscosityI : Q) (isIt : Intersection)
    : FieldVector :=
  let meanPermeability :=
    meanK2 (intrinsicPermeability eI) (intrinsicPermeability (outside isIt)) in
  vdivs (mv meanPermeability (centerUnitOuterNormal isIt)) viscosityI.

Definition interiorEntry (eI : Entity) (viscosityI : Q) (isIt : Intersection) : Q :=
  let distVec := vsub (center (outside isIt)) (center eI) in
  let dist := two_norm distVec in
  dot (interiorPermeability eI viscosityI isIt) (centerUnitOuterNormal isIt) / dist
  * faceVolume isIt.

(** The potential of an interior face and the state after it has been
    stored ([if (!first) { ... }]). *)
Definition interiorPotential (first : bool) (eI : Entity) (densityI : Q)
    (isIndex : nat) (isIt : Intersection) (st : FVPressure1P) : Q * FVPressure1P :=
  let globalIdxI := index eI in
  let globalIdxJ := index (outside isIt) in
  let unitOuterNormal := centerUnitOuterNormal isIt in
  let distVec := vsub (center (outside isIt)) (center eI) in
  let dist := two_norm distVec in
  let densityJ :=
    Fluid_density (temperature (outside isIt)) (referencePressure (outside isIt)) in
  let rhoMean := (1#2) * (densityI + densityJ) in
  if first then (0, st)
  else
    let potential := variables_potential st globalIdxI isIndex in
    let density := upwindDensity potential densityI densityJ rhoMean in
    let potential :=
      (variables_pressure st globalIdxI - variables_pressure st globalIdxJ) / dist in
    let potential := potential + density * dot unitOuterNormal gravity in
    (potential,
     set_potential
       (<[globalIdxI := <[isIndex := potential]> (variables_potential st globalIdxI)]>
          (variables_potential st)) st).

(** The density that multiplies the gravity term of the right-hand side. *)
Definition interiorDensity (first : bool) (eI : Entity) (densityI : Q)
    (isIndex : nat) (isIt : Intersection) (st : FVPressure1P) : Q :=
  let densityJ :=
    Fluid_density (temperature (outside isIt)) (referencePressure (outside isIt)) in
  let rhoMean := (1#2) * (densityI + densityJ) in
  upwindDensity (fst (interiorPotential first eI densityI isIndex isIt st))
                densityI densityJ rhoMean.

(** [if (isIt->neighbor()) { ... }] *)
Definition assembleInterior (first : bool) (eI : Entity) (densityI viscosityI : Q)
    (isIndex : nat) (isIt : Intersection) (st : FVPressure1P) : FVPressure1P :=
  let globalIdxI := index eI in
  let globalIdxJ := index (outside isIt) in
  let faceArea := faceVolume isIt in
  let permeability := interiorPermeability eI viscosityI isIt in
  let st1 := snd (interiorPotential first eI densityI isIndex isIt st) in
  let density := interiorDensity first eI densityI isIndex isIt st in
  let entry := interiorEntry eI viscosityI isIt in
  let rightEntry := density * dot permeability gravity * faceArea in
  let st2 := f_store globalIdxI (f_ st1 globalIdxI - rightEntry) st1 in
  let st3 := A_store globalIdxI globalIdxI (A_ st2 globalIdxI globalIdxI + entry) st2 in
  A_store globalIdxI globalIdxJ (- entry) st3.

(** The transmissibility and the gravity term of a Dirichlet face. *)
Definition boundaryPermeability (eI : Entity) (viscosityI : Q) (isIt : Intersection)
    : FieldVector :=
  vdivs (mv (meanK1 (intrinsicPermeability eI)) (centerUnitOuterNormal isIt)) viscosityI.

Definition boundaryEntry (eI : Entity) (viscosityI : Q) (isIt : Intersection) : Q :=
  let distVec := vsub (faceCenter isIt) (center eI) in
  let dist := two_norm distVec in
  dot (boundaryPermeability eI viscosityI isIt) (centerUnitOuterNormal isIt) / dist
  * faceVolume isIt.

Definition boundaryRightEntry (eI : Entity) (densityI viscosityI : Q)
    (isIt : Intersection) : Q :=
  densityI * dot (boundaryPermeability eI viscosityI isIt) gravity * faceVolume isIt.

(** [else if (isIt->boundary()) { ... }] *)
Definition assembleBoundary (eI : Entity) (densityI viscosityI : Q)
    (isIt : Intersection) (st : FVPressure1P) : FVPressure1P :=
  let globalIdxI := index eI in
  let faceArea := faceVolume isIt in
  let bcType := boundaryTypes isIt in
  if isDirichlet bcType then
    let pressBound := dirichlet isIt in
    let entry := boundaryEntry eI viscosityI isIt in
    let rightEntry := boundaryRightEntry eI densityI viscosityI isIt in
    let st1 := A_store globalIdxI globalIdxI (A_ st globalIdxI globalIdxI + entry) st in
    let st2 := f_store globalIdxI (f_ st1 globalIdxI + entry * pressBound) st1 in
    f_store globalIdxI (f_ st2 globalIdxI - rightEntry) st2
  else if isNeumann bcType then
    let J := neumann isIt / densityI in
    f_store globalIdxI (f_ st globalIdxI - J * faceArea) st
  else st.

(** The body of the loop over the intersections of a cell. *)
Definition assembleIntersection (first : bool) (eI : Entity) (densityI viscosityI : Q)
    (acc : FVPressure1P * nat) (isIt : Intersection) : FVPressure1P * nat :=
  let '(st, isIndex) := acc in
  (if neighbor isIt then assembleInterior first eI densityI viscosityI isIndex isIt st
   else if boundary isIt then assembleBoundary eI densityI viscosityI isIt st
   else st,
   S isIndex).

(** The body of the loop over the cells. *)
Definition assembleElement (first : bool) (st : FVPressure1P) (elem : Element)
    : FVPressure1P :=
  let eI := inside elem in
  let globalIdxI := index eI in
  let densityI := Fluid_density (temperature eI) (referencePressure eI) in
  let viscosityI := Fluid_viscosity (temperature eI) (referencePressure eI) in
  let st1 := f_store globalIdxI (source eI / densityI * volume eI) st in
  fst (fold_left (assembleIntersection first eI densityI viscosityI)
                 (intersections elem) (st1, 0%nat)).

Definition assemble (first : bool) (grid : GridView) (st : FVPressure1P) : FVPressure1P :=
  fold_left (assembleElement first) grid
            (set_f (fun _ => 0) (set_A (fun _ _ => 0) st)).

(** The system [solve] hands to the linear solver. *)
Definition solveSystem (st : FVPressure1P) : FVPressure1P :=
  if setPressHard_ st then
    let idx := idxOfScalar (idxPressHard_ st) in
    let st1 := set_A (<[idx := fun _ => 0]> (A_ st)) st in
    let st2 := A_store idx idx 1 st1 in
    f_store idx (pressHard_ st2) st2
  else st.

Definition solve (st : FVPressure1P) : FVPressure1P :=
  let st1 := solveSystem st in
  set_pressure (linearSolve (A_ st1) (variables_pressure st1) (f_ st1)) st1.

Definition initialize (solveTwice : bool) (grid : GridView) (st : FVPressure1P)
    : FVPressure1P :=
  let st1 := solve (assemble true grid st) in
  if solveTwice then solve (assemble false grid st1) else st1.

Definition pressure (grid : GridView) (st : FVPressure1P) : FVPressure1P :=
  solve (assemble false grid st).


(** *** Linear systems

    The vocabulary in which the claims speak about the assembled system:
    the product of a matrix row with a vector over the first [n] degrees
    of freedom, and what it means for a vector to solve the system. *)
Definition rowDot (n : nat) (row x : Vector) : Q :=
  fold_right (fun c acc => row c * x c + acc) 0 (seq 0 n).

Definition solves (n : nat) (A : Matrix) (x f : Vector) : Prop :=
  forall r, (r < n)%nat -> rowDot n (A r) x == f r.

(** A system whose rows sum to zero and whose right-hand side vanishes:
    what a boundary without Dirichlet faces, without sources and without
    gravity leaves.  The constant vectors are in the kernel. *)
Definition pureNeumann (n : nat) (A : Matrix) (f : Vector) : Prop :=
  forall r, (r < n)%nat -> rowDot n (A r) (fun _ => 1) == 0 /\ f r == 0.

(** The identity row of the degree of freedom [k]. *)
Definition identityRow (k : nat) : Vector := fun c => if decide (c = k) then 1 else 0.

(** The discrete Laplacian of [x] at [r]: the weighted differences to
    the neighbours.  [edges r] lists the neighbours of [r] with the
    weights of the connections. *)
Definition edgeSum (l : list (nat * Q)) (x : Vector) (r : nat) : Q :=
  fold_right Qplus 0 (map (fun cw => snd cw * (x r - x (fst cw))) l).

Definition laplacianAt (edges : nat -> list (nat * Q)) (x : Vector) (r : nat) : Q :=
  edgeSum (edges r) x r.

(** [reaches edges k r]: [k] can be reached from [r] along edges. *)
Inductive reaches (edges : nat -> list (nat * Q)) (k : nat) : nat -> Prop :=
| reaches_here : reaches edges k k
| reaches_step r c wt :
    (c, wt) ∈ edges r -> reaches edges k c -> reaches edges k r.

(** The rows of [A] other than [k] are rows of a graph Laplacian with
    positive weights on a graph in which every node reaches [k]. *)
Record laplacianSystem (n k : nat) (edges : nat -> list (nat * Q))
    (A : Matrix) (f : Vector) : Prop := MkLaplacianSystem {
  lap_weights : forall r c wt, (r < n)%nat -> (c, wt) ∈ edges r -> 0 < wt /\ (c < n)%nat;
  lap_rows : forall r x, (r < n)%nat -> r <> k ->
               rowDot n (A r) x == laplacianAt edges x r;
  lap_rhs : forall r, (r < n)%nat -> r <> k -> f r == 0;
  lap_connected : forall r, (r < n)%nat -> reaches edges k r
}.

(** The three members that hold the fixed pressure. *)
Definition hardConstraint (st : FVPressure1P) : Q * Q * bool :=
  (pressHard_ st, idxPressHard_ st, setPressHard_ st).

(** The density of the neighbouring cell of an interior face. *)
Definition densityOutside (isIt : Intersection) : Q :=
  Fluid_density (temperature (outside isIt)) (referencePressure (outside isIt)).

(** *** Pure-Neumann grids *)

(** The neighbours of a cell with the transmissibilities of the faces,
    in the order of the intersections. *)
Definition viscosityOf (e : Entity) : Q :=
  Fluid_viscosity (temperature e) (referencePressure e).
Definition densityOf (e : Entity) : Q :=
  Fluid_density (temperature e) (referencePressure e).

Fixpoint faceEdges (eI : Entity) (faces : list Intersection) : list (nat * Q) :=
  match faces with
  | [] => []
  | isIt :: rest =>
    if neighbor isIt
    then (index (outside isIt), interiorEntry eI (viscosityOf eI) isIt)
         :: faceEdges eI rest
    else faceEdges eI rest
  end.

Definition cellEdges (elem : Element) : list (nat * Q) :=
  faceEdges (inside elem) (intersections elem).

Fixpoint gridEdges (grid : GridView) (r : nat) : list (nat * Q) :=
  match grid with
  | [] => []
  | elem :: rest =>
    if decide (index (inside elem) = r) then cellEdges elem else gridEdges rest r
  end.

(** A face of a pure-Neumann problem without gravity: an interior face
    leads to another cell of the grid, has a positive transmissibility
    and no gravity term; a boundary face is not a Dirichlet face and
    prescribes no flux. *)
Definition faceOK (n : nat) (eI : Entity) (isIt : Intersection) : Prop :=
  if neighbor isIt then
    (index (outside isIt) < n)%nat /\
    index (outside isIt) <> index eI /\
    0 < interiorEntry eI (viscosityOf eI) isIt /\
    dot (interiorPermeability eI (viscosityOf eI) isIt) gravity == 0
  else if boundary isIt then
    isDirichlet (boundaryTypes isIt) = false /\ neumann isIt == 0
  else True.

(** A grid of [n] cells, numbered without repetition, without sources,
    whose faces are as above and in which no cell meets the same
    neighbour twice. *)
Record pureNeumannGrid (n : nat) (grid : GridView) : Prop := MkPureNeumannGrid {
  png_nodup : NoDup (map (fun e => index (inside e)) grid);
  png_cover : forall r, (r < n)%nat -> exists e, e ∈ grid /\ index (inside e) = r;
  png_bound : forall e, e ∈ grid -> (index (inside e) < n)%nat;
  png_source : forall e, e ∈ grid -> source (inside e) == 0;
  png_faces : forall e isIt, e ∈ grid -> isIt ∈ intersections e ->
                faceOK n (inside e) isIt;
  png_neighbours : forall e, e ∈ grid -> NoDup (map fst (cellEdges e))
}.

(** C1 as the specification states it: after assembly, the row of every
    cell with a Dirichlet face is the identity row and the right-hand
    side holds the prescribed value. *)
Definition dirichletRowsAreIdentity (grid : GridView) (st : FVPressure1P) : Prop :=
  forall elem isIt,
    elem ∈ grid -> isIt ∈ intersections elem ->
    neighbor isIt = false -> boundary isIt = true ->
    isDirichlet (boundaryTypes isIt) = true ->
    (forall c, A_ st (index (inside elem)) c == identityRow (index (inside elem)) c) /\
    f_ st (index (inside elem)) == dirichlet isIt.

(** C5 as the specification states it.  A pure-Neumann problem has no
    Dirichlet face: every face of a cell that is not interior is a
    Neumann boundary face.  On such a problem, after the pressure of
    one cell has been fixed to [v], every solution of the system handed
    to the solver is uniform and equal to [v]. *)
Definition pureNeumannProblem (grid : GridView) : Prop :=
  forall e isIt, e ∈ grid -> isIt ∈ intersections e -> neighbor isIt = false ->
    boundary isIt = true /\
    isDirichlet (boundaryTypes isIt) = false /\
    isNeumann (boundaryTypes isIt) = true.

Definition hardPressureGivesUniform (n : nat) (grid : GridView) : Prop :=
  pureNeumannProblem grid ->
  forall first st0 v k x, (k < n)%nat ->
    solves n (A_ (solveSystem (assemble first grid (setPressureHard v k st0)))) x
             (f_ (solveSystem (assemble first grid (setPressureHard v k st0)))) ->
    forall r, (r < n)%nat -> x r == v.

(** *** Facts about linear systems *)

Lemma rowDot_seq_identity k x start len :
  fold_right (fun c acc => identityRow k c * x c + acc) 0 (seq start len)
  == if decide (start <= k < start + len)%nat then x k else 0.
Proof.
  revert start. induction len as [|len IH]; intros start; simpl.
  - case_decide; [lia|reflexivity].
  - rewrite IH. unfold identityRow.
    repeat case_decide; subst; try lia; ring.
Qed.

Lemma rowDot_identity n k x : (k < n)%nat -> rowDot n (identityRow k) x == x k.
Proof.
  intros Hk. unfold rowDot. rewrite rowDot_seq_identity.
  case_decide; [reflexivity|lia].
Qed.

Lemma rowDot_const n row v : rowDot n row (fun _ => v) == v * rowDot n row (fun _ => 1).
Proof.
  unfold rowDot. induction (seq 0 n) as [|c l IH]; simpl; [ring|].
  rewrite IH. ring.
Qed.

Lemma idxOfScalar_scalarOfIdx n : idxOfScalar (scalarOfIdx n) = n.
Proof.
  unfold idxOfScalar, scalarOfIdx. rewrite Qfloor_Z. apply Nat2Z.id.
Qed.

(** *** Frame: what assembly leaves alone *)

Lemma assembleInterior_hard first eI dI vI isIndex isIt st :
  hardConstraint (assembleInterior first eI dI vI isIndex isIt st) = hardConstraint st.
Proof.
  unfold assembleInterior, interiorPotential. destruct first; reflexivity.
Qed.

Lemma assembleBoundary_hard eI dI vI isIt st :
  hardConstraint (assembleBoundary eI dI vI isIt st) = hardConstraint st.
Proof.
  unfold assembleBoundary.
  destruct (isDirichlet _); [reflexivity|]. destruct (isNeumann _); reflexivity.
Qed.

Lemma assembleIntersection_hard first eI dI vI acc isIt :
  hardConstraint (fst (assembleIntersection first eI dI vI acc isIt))
  = hardConstraint (fst acc).
Proof.
  destruct acc as [st isIndex]. simpl.
  destruct (neighbor isIt); [apply assembleInterior_hard|].
  destruct (boundary isIt); [apply assembleBoundary_hard|reflexivity].
Qed.

Lemma assembleIntersections_hard first eI dI vI l acc :
  hardConstraint (fst (fold_left (assembleIntersection first eI dI vI) l acc))
  = hardConstraint (fst acc).
Proof.
  revert acc. induction l as [|isIt l IH]; intros acc; simpl.
  - reflexivity.
  - rewrite IH. apply assembleIntersection_hard.
Qed.

Lemma assembleElement_hard first st elem :
  hardConstraint (assembleElement first st elem) = hardConstraint st.
Proof. unfold assembleElement. rewrite assembleIntersections_hard. reflexivity. Qed.

Lemma assemble_hard first grid st :
  hardConstraint (assemble first grid st) = hardConstraint st.
Proof.
  unfold assemble.
  change (hardConstraint st)
    with (hardConstraint (set_f (fun _ => 0) (set_A (fun _ _ => 0) st))).
  generalize (set_f (fun _ => 0) (set_A (fun _ _ => 0) st)).
  induction grid as [|elem grid IH]; intros st'; simpl.
  - reflexivity.
  - rewrite IH. apply assembleElement_hard.
Qed.

(** The system handed to the solver when a pressure is fixed. *)
Lemma solveSystem_hard st :
  setPressHard_ st = true ->
  let k := idxOfScalar (idxPressHard_ st) in
  (forall c, A_ (solveSystem st) k c = identityRow k c) /\
  f_ (solveSystem st) k = pressHard_ st /\
  (forall r, r <> k ->
     A_ (solveSystem st) r = A_ st r /\ f_ (solveSystem st) r = f_ st r).
Proof.
  intros Hset k. unfold solveSystem. rewrite Hset. fold k.
  unfold A_store, f_store, set_A, set_f, identityRow, insert, fn_insert; simpl.
  split; [|split].
  - intros c. repeat case_decide; congruence.
  - case_decide; congruence.
  - intros r Hr. repeat case_decide; try congruence. split; reflexivity.
Qed.

(** *** The rows of the assembled matrix on a pure-Neumann grid *)

Lemma rowDot_seq_insert (row x : Vector) c v start len :
  fold_right (fun c' acc => (<[c := v]> row) c' * x c' + acc) 0 (seq start len)
  == fold_right (fun c' acc => row c' * x c' + acc) 0 (seq start len)
     + (if decide (start <= c < start + len)%nat then (v - row c) * x c else 0).
Proof.
  revert start. induction len as [|len IH]; intros start; simpl.
  - case_decide; [lia|ring].
  - rewrite IH. unfold insert, fn_insert.
    repeat case_decide; subst; try lia; ring.
Qed.

Lemma rowDot_insert n (row x : Vector) c v :
  (c < n)%nat ->
  rowDot n (<[c := v]> row) x == rowDot n row x + (v - row c) * x c.
Proof.
  intros Hc. unfold rowDot. rewrite rowDot_seq_insert.
  case_decide; [reflexivity|lia].
Qed.

Lemma rowDot_ext n (row row' x : Vector) :
  (forall c, row c == row' c) -> rowDot n row x == rowDot n row' x.
Proof.
  intros H. unfold rowDot. induction (seq 0 n) as [|c l IH]; simpl; [reflexivity|].
  rewrite IH, H. reflexivity.
Qed.

Lemma rowDot_zero n (row x : Vector) :
  (forall c, row c == 0) -> rowDot n row x == 0.
Proof.
  intros H. unfold rowDot. induction (seq 0 n) as [|c l IH]; simpl; [reflexivity|].
  rewrite IH, H. ring.
Qed.

Lemma faceEdges_elem eI faces c wt :
  (c, wt) ∈ faceEdges eI faces ->
  exists isIt, isIt ∈ faces /\ neighbor isIt = true /\
    c = index (outside isIt) /\ wt = interiorEntry eI (viscosityOf eI) isIt.
Proof.
  induction faces as [|isIt rest IH]; simpl; intros H.
  - inversion H.
  - destruct (neighbor isIt) eqn:Hn.
    + apply elem_of_cons in H as [Heq|H].
      * injection Heq as -> ->. exists isIt. repeat split; [left|exact Hn].
      * destruct (IH H) as (isIt' & Hin & Hrest). exists isIt'. split; [right; exact Hin|exact Hrest].
    + destruct (IH H) as (isIt' & Hin & Hrest). exists isIt'. split; [right; exact Hin|exact Hrest].
Qed.

(** What one interior face does to the matrix and to the right-hand side. *)
Lemma assembleInterior_A first eI dI vI isIndex isIt st r c :
  A_ (assembleInterior first eI dI vI isIndex isIt st) r c
  = if decide (r = index eI)
    then if decide (c = index (outside isIt)) then - interiorEntry eI vI isIt
         else if decide (c = index eI)
              then A_ st (index eI) (index eI) + interiorEntry eI vI isIt
              else A_ st r c
    else A_ st r c.
Proof.
  unfold assembleInterior, interiorPotential, A_store, f_store, set_A, set_f,
    insert, fn_insert.
  destruct first; simpl; repeat case_decide; subst; congruence.
Qed.

Lemma assembleInterior_f first eI dI vI isIndex isIt st r :
  f_ (assembleInterior first eI dI vI isIndex isIt st) r
  = if decide (r = index eI)
    then f_ st (index eI)
         - interiorDensity first eI dI isIndex isIt st
           * dot (interiorPermeability eI vI isIt) gravity * faceVolume isIt
    else f_ st r.
Proof.
  unfold assembleInterior, interiorPotential, A_store, f_store, set_A, set_f,
    insert, fn_insert.
  destruct first; simpl; repeat case_decide; subst; congruence.
Qed.

Lemma assembleInterior_row n first eI dI isIndex isIt st x :
  (index eI < n)%nat ->
  (index (outside isIt) < n)%nat ->
  index (outside isIt) <> index eI ->
  A_ st (index eI) (index (outside isIt)) == 0 ->
  rowDot n (A_ (assembleInterior first eI dI (viscosityOf eI) isIndex isIt st) (index eI)) x
  == rowDot n (A_ st (index eI)) x
     + interiorEntry eI (viscosityOf eI) isIt * (x (index eI) - x (index (outside isIt))).
Proof.
  intros HI HJ Hne Hz.
  set (I := index eI) in *. set (J := index (outside isIt)) in *.
  set (e := interiorEntry eI (viscosityOf eI) isIt).
  rewrite (rowDot_ext n _ (<[J := - e]> (<[I := A_ st I I + e]> (A_ st I)))).
  - rewrite !rowDot_insert by assumption.
    unfold insert at 1, fn_insert at 1. rewrite decide_False by congruence.
    rewrite Hz. ring.
  - intros c. rewrite assembleInterior_A. fold I J e.
    unfold insert, fn_insert. repeat case_decide; subst; try congruence; reflexivity.
Qed.

(** A boundary face of a pure-Neumann problem changes nothing. *)
Lemma assembleBoundary_neumann eI dI vI isIt st :
  isDirichlet (boundaryTypes isIt) = false -> neumann isIt == 0 ->
  (forall r c, A_ (assembleBoundary eI dI vI isIt st) r c = A_ st r c) /\
  (forall r, f_ (assembleBoundary eI dI vI isIt st) r == f_ st r).
Proof.
  intros Hd Hn. unfold assembleBoundary. rewrite Hd.
  destruct (isNeumann (boundaryTypes isIt)); simpl; [|split; reflexivity].
  split; [reflexivity|].
  intros r. unfold insert, fn_insert. case_decide; [subst|reflexivity].
  rewrite Hn. unfold Qdiv. ring.
Qed.

(** The loop over the faces of a cell of a pure-Neumann grid adds the
    discrete Laplacian of the cell to its row and leaves the right-hand
    side and the other rows as they are. *)
Lemma assembleIntersections_row n first eI dI faces : forall st isIndex,
  (index eI < n)%nat ->
  (forall isIt, isIt ∈ faces -> faceOK n eI isIt) ->
  NoDup (map fst (faceEdges eI faces)) ->
  (forall c wt, (c, wt) ∈ faceEdges eI faces -> A_ st (index eI) c == 0) ->
  let st' := fst (fold_left (assembleIntersection first eI dI (viscosityOf eI))
                            faces (st, isIndex)) in
  (forall x, rowDot n (A_ st' (index eI)) x
             == rowDot n (A_ st (index eI)) x + edgeSum (faceEdges eI faces) x (index eI)) /\
  f_ st' (index eI) == f_ st (index eI) /\
  (forall r c, r <> index eI -> A_ st' r c = A_ st r c) /\
  (forall r, r <> index eI -> f_ st' r = f_ st r).
Proof.
  induction faces as [|isIt rest IH]; intros st isIndex HI Hok Hnd Hzero; simpl.
  - repeat split; try reflexivity. intros x. unfold edgeSum. simpl. ring.
  - assert (Hok_rest : forall isIt', isIt' ∈ rest -> faceOK n eI isIt')
      by (intros isIt' Hin; apply Hok; right; exact Hin).
    pose proof (Hok isIt ltac:(left)) as Hface. unfold faceOK in Hface.
    simpl in Hnd, Hzero.
    destruct (neighbor isIt) eqn:Hn.
    + destruct Hface as (HJ & Hne & Hpos & Hg).
      simpl in Hnd. apply list.NoDup_cons in Hnd as [Hnotin Hnd].
      set (st1 := assembleInterior first eI dI (viscosityOf eI) isIndex isIt st).
      assert (Hzero1 : forall c wt, (c, wt) ∈ faceEdges eI rest -> A_ st1 (index eI) c == 0).
      { intros c wt Hin. unfold st1. rewrite assembleInterior_A.
        destruct (faceEdges_elem eI rest c wt Hin) as (isIt' & Hin' & Hn' & Hc & _).
        pose proof (Hok_rest isIt' Hin') as Hface'. unfold faceOK in Hface'.
        rewrite Hn' in Hface'. destruct Hface' as (_ & Hne' & _).
        rewrite decide_True by reflexivity.
        rewrite decide_False.
        - rewrite decide_False by congruence. apply (Hzero c wt). right. exact Hin.
        - intros ->. apply Hnotin. apply list_elem_of_fmap.
          exists (index (outside isIt), wt). split; [reflexivity|exact Hin]. }
      destruct (IH st1 (S isIndex) HI Hok_rest Hnd Hzero1) as (Hrow & Hf & HA' & Hf').
      split; [|split; [|split]].
      * intros x. rewrite Hrow. unfold st1.
        rewrite (assembleInterior_row n first eI dI isIndex isIt st x HI HJ Hne).
        -- unfold edgeSum. simpl. ring.
        -- apply (Hzero _ (interiorEntry eI (viscosityOf eI) isIt)). left.
      * rewrite Hf. unfold st1. rewrite assembleInterior_f.
        rewrite decide_True by reflexivity. rewrite Hg. ring.
      * intros r c Hr. rewrite (HA' r c Hr). unfold st1.
        rewrite assembleInterior_A. rewrite decide_False by exact Hr. reflexivity.
      * intros r Hr. rewrite (Hf' r Hr). unfold st1.
        rewrite assembleInterior_f. rewrite decide_False by exact Hr. reflexivity.
    + destruct (boundary isIt) eqn:Hb.
      * destruct Hface as (Hd & Hq).
        destruct (assembleBoundary_neumann eI dI (viscosityOf eI) isIt st Hd Hq)
          as (HAb & Hfb).
        set (st1 := assembleBoundary eI dI (viscosityOf eI) isIt st) in *.
        assert (Hzero1 : forall c wt, (c, wt) ∈ faceEdges eI rest -> A_ st1 (index eI) c == 0).
        { intros c wt Hin. rewrite HAb. apply (Hzero c wt Hin). }
        destruct (IH st1 (S isIndex) HI Hok_rest Hnd Hzero1) as (Hrow & Hf & HA' & Hf').
        split; [|split; [|split]].
        -- intros x. rewrite Hrow.
           rewrite (rowDot_ext n (A_ st1 (index eI)) (A_ st (index eI)) x); [reflexivity|].
           intros c. rewrite HAb. reflexivity.
        -- rewrite Hf. apply Hfb.
        -- intros r c Hr. rewrite (HA' r c Hr). apply HAb.
        -- intros r Hr. rewrite (Hf' r Hr). unfold st1, assembleBoundary.
           rewrite Hd. destruct (isNeumann (boundaryTypes isIt)); [|reflexivity].
           simpl. unfold insert, fn_insert. rewrite decide_False by congruence. reflexivity.
      * apply (IH st (S isIndex) HI Hok_rest Hnd Hzero).
Qed.

(** One cell of a pure-Neumann grid, assembled into a row that was
    zero: the row becomes the discrete Laplacian of the cell. *)
Lemma assembleElement_row n first elem st :
  (index (inside elem) < n)%nat ->
  source (inside elem) == 0 ->
  (forall isIt, isIt ∈ intersections elem -> faceOK n (inside elem) isIt) ->
  NoDup (map fst (cellEdges elem)) ->
  (forall c, A_ st (index (inside elem)) c == 0) ->
  (forall x, rowDot n (A_ (assembleElement first st elem) (index (inside elem))) x
             == edgeSum (cellEdges elem) x (index (inside elem))) /\
  f_ (assembleElement first st elem) (index (inside elem)) == 0 /\
  (forall r c, r <> index (inside elem) ->
     A_ (assembleElement first st elem) r c = A_ st r c) /\
  (forall r, r <> index (inside elem) -> f_ (assembleElement first st elem) r = f_ st r).
Proof.
  intros HI Hsrc Hok Hnd Hzero. unfold assembleElement. cbv zeta.
  set (eI := inside elem) in *.
  change (Fluid_viscosity (temperature eI) (referencePressure eI)) with (viscosityOf eI).
  set (st1 := f_store (index eI)
                (source eI / Fluid_density (temperature eI) (referencePressure eI)
                 * volume eI) st).
  destruct (assembleIntersections_row n first eI
              (Fluid_density (temperature eI) (referencePressure eI))
              (intersections elem) st1 0%nat HI Hok Hnd)
    as (Hrow & Hf & HA & Hf').
  { intros c wt _. apply Hzero. }
  split; [|split; [|split]].
  - intros x. rewrite (Hrow x). rewrite rowDot_zero by (intros c; apply Hzero).
    unfold cellEdges. fold eI. ring.
  - rewrite Hf. unfold st1, f_store, set_f, insert, fn_insert. simpl.
    rewrite decide_True by reflexivity. rewrite Hsrc. unfold Qdiv. ring.
  - intros r c Hr. rewrite (HA r c Hr). reflexivity.
  - intros r Hr. rewrite (Hf' r Hr). unfold st1, f_store, set_f, insert, fn_insert. simpl.
    rewrite decide_False by congruence. reflexivity.
Qed.

Lemma assemble_fold_rows n first grid : forall st,
  NoDup (map (fun e => index (inside e)) grid) ->
  (forall e, e ∈ grid -> (index (inside e) < n)%nat) ->
  (forall e, e ∈ grid -> source (inside e) == 0) ->
  (forall e isIt, e ∈ grid -> isIt ∈ intersections e -> faceOK n (inside e) isIt) ->
  (forall e, e ∈ grid -> NoDup (map fst (cellEdges e))) ->
  (forall e c, e ∈ grid -> A_ st (index (inside e)) c == 0) ->
  (forall e, e ∈ grid ->
     (forall x, rowDot n (A_ (fold_left (assembleElement first) grid st)
                            (index (inside e))) x
                == edgeSum (cellEdges e) x (index (inside e))) /\
     f_ (fold_left (assembleElement first) grid st) (index (inside e)) == 0) /\
  (forall r, (forall e, e ∈ grid -> index (inside e) <> r) ->
     (forall c, A_ (fold_left (assembleElement first) grid st) r c = A_ st r c) /\
     f_ (fold_left (assembleElement first) grid st) r = f_ st r).
Proof.
  induction grid as [|e0 g IH]; intros st Hnd Hb Hsrc Hok Hedges Hzero; simpl.
  - split; [intros e He; inversion He|]. intros r _. split; reflexivity.
  - simpl in Hnd. apply list.NoDup_cons in Hnd as [Hnotin Hnd].
    assert (Hdiff : forall e, e ∈ g -> index (inside e) <> index (inside e0)).
    { intros e He Heq. apply Hnotin. apply list_elem_of_fmap. exists e. split; [congruence|exact He]. }
    destruct (assembleElement_row n first e0 st) as (Hrow0 & Hf0 & HA0 & Hf0').
    { apply Hb. left. }
    { apply Hsrc. left. }
    { intros isIt Hin. apply Hok; [left|exact Hin]. }
    { apply Hedges. left. }
    { intros c. apply Hzero. left. }
    set (st1 := assembleElement first st e0) in *.
    destruct (IH st1 Hnd) as (IH1 & IH2).
    { intros e He. apply Hb. right. exact He. }
    { intros e He. apply Hsrc. right. exact He. }
    { intros e isIt He. apply Hok. right. exact He. }
    { intros e He. apply Hedges. right. exact He. }
    { intros e c He. rewrite HA0 by (apply Hdiff; exact He). apply Hzero. right. exact He. }
    split.
    + intros e He. apply elem_of_cons in He as [->|He]; [|apply IH1; exact He].
      destruct (IH2 (index (inside e0))) as (HA2 & Hf2).
      { intros e He. apply Hdiff. exact He. }
      split.
      * intros x. rewrite <- (Hrow0 x). apply rowDot_ext. intros c. rewrite HA2. reflexivity.
      * rewrite Hf2. exact Hf0.
    + intros r Hr. destruct (IH2 r) as (HA2 & Hf2).
      { intros e He. apply Hr. right. exact He. }
      assert (Hr0 : r <> index (inside e0)) by (intros ->; apply (Hr e0); [left|reflexivity]).
      split.
      * intros c. rewrite HA2. apply HA0. exact Hr0.
      * rewrite Hf2. apply Hf0'. exact Hr0.
Qed.

Lemma gridEdges_cell grid e :
  NoDup (map (fun e => index (inside e)) grid) ->
  e ∈ grid -> gridEdges grid (index (inside e)) = cellEdges e.
Proof.
  induction grid as [|e0 g IH]; intros Hnd He; [inversion He|].
  simpl in *. apply list.NoDup_cons in Hnd as [Hnotin Hnd].
  apply elem_of_cons in He as [->|He].
  - rewrite decide_True by reflexivity. reflexivity.
  - rewrite decide_False; [apply IH; assumption|].
    intros Heq. apply Hnotin. apply list_elem_of_fmap. exists e. split; [congruence|exact He].
Qed.

(** The system assembled on a connected pure-Neumann grid is a graph
    Laplacian. *)
Lemma assemble_pureNeumann_laplacian n k first grid st :
  pureNeumannGrid n grid ->
  (forall r, (r < n)%nat -> reaches (gridEdges grid) k r) ->
  laplacianSystem n k (gridEdges grid)
    (A_ (assemble first grid st)) (f_ (assemble first grid st)).
Proof.
  intros [Hnd Hcover Hb Hsrc Hok Hedges] Hconn.
  destruct (assemble_fold_rows n first grid
              (set_f (fun _ => 0) (set_A (fun _ _ => 0) st)) Hnd Hb Hsrc Hok Hedges)
    as (Hrows & _).
  { intros e c _. simpl. reflexivity. }
  fold (assemble first grid st) in Hrows.
  constructor.
  - intros r c wt Hr Hin. destruct (Hcover r Hr) as (e & He & <-).
    rewrite (gridEdges_cell grid e Hnd He) in Hin.
    destruct (faceEdges_elem _ _ _ _ Hin) as (isIt & HisIt & Hn & -> & ->).
    pose proof (Hok e isIt He HisIt) as Hface. unfold faceOK in Hface.
    rewrite Hn in Hface. destruct Hface as (HJ & _ & Hpos & _). split; assumption.
  - intros r x Hr _. destruct (Hcover r Hr) as (e & He & <-).
    unfold laplacianAt. rewrite (gridEdges_cell grid e Hnd He).
    apply (Hrows e He).
  - intros r Hr _. destruct (Hcover r Hr) as (e & He & <-). apply (Hrows e He).
  - exact Hconn.
Qed.

Lemma edgeSum_const l v r : edgeSum l (fun _ => v) r == 0.
Proof.
  unfold edgeSum. induction l as [|cw l IH]; simpl; [reflexivity|].
  rewrite IH. ring.
Qed.

(** Without a fixed pressure that system is singular: its rows sum to
    zero and its right-hand side vanishes. *)
Lemma assemble_pureNeumann_singular n first grid st :
  pureNeumannGrid n grid ->
  pureNeumann n (A_ (assemble first grid st)) (f_ (assemble first grid st)).
Proof.
  intros [Hnd Hcover Hb Hsrc Hok Hedges] r Hr.
  destruct (assemble_fold_rows n first grid
              (set_f (fun _ => 0) (set_A (fun _ _ => 0) st)) Hnd Hb Hsrc Hok Hedges)
    as (Hrows & _).
  { intros e c _. simpl. reflexivity. }
  fold (assemble first grid st) in Hrows.
  destruct (Hcover r Hr) as (e & He & <-).
  destruct (Hrows e He) as (Hrow & Hf). split; [|exact Hf].
  rewrite Hrow. apply edgeSum_const.
Qed.

(** *** The discrete maximum principle *)

Lemma sum_nonneg (l : list Q) :
  (forall q, q ∈ l -> 0 <= q) -> 0 <= fold_right Qplus 0 l.
Proof.
  induction l as [|a l IH]; intros H; simpl; [lra|].
  assert (0 <= a) by (apply H; left).
  assert (0 <= fold_right Qplus 0 l) by (apply IH; intros q Hq; apply H; right; exact Hq).
  lra.
Qed.

Lemma sum_nonneg_zero (l : list Q) :
  (forall q, q ∈ l -> 0 <= q) -> fold_right Qplus 0 l == 0 ->
  forall q, q ∈ l -> q == 0.
Proof.
  induction l as [|a l IH]; intros H Hsum q Hq; simpl in *.
  - inversion Hq.
  - assert (0 <= a) by (apply H; left).
    assert (0 <= fold_right Qplus 0 l)
      by (apply sum_nonneg; intros q' Hq'; apply H; right; exact Hq').
    apply elem_of_cons in Hq as [->|Hq]; [lra|].
    apply IH; [intros q' Hq'; apply H; right; exact Hq'|lra|exact Hq].
Qed.

Lemma argmax (x : Vector) n :
  (0 < n)%nat -> exists m, (m < n)%nat /\ forall r, (r < n)%nat -> x r <= x m.
Proof.
  induction n as [|n IH]; intros Hn; [lia|].
  destruct n as [|n'].
  - exists 0%nat. split; [lia|]. intros r Hr. assert (r = 0%nat) as -> by lia. lra.
  - destruct IH as (m & Hm & Hmax); [lia|].
    destruct (Qlt_le_dec (x m) (x (S n'))) as [Hlt|Hle].
    + exists (S n'). split; [lia|]. intros r Hr.
      destruct (decide (r = S n')) as [->|Hne]; [lra|].
      specialize (Hmax r ltac:(lia)). lra.
    + exists m. split; [lia|]. intros r Hr.
      destruct (decide (r = S n')) as [->|Hne]; [lra|].
      apply Hmax. lia.
Qed.

Lemma laplacianAt_opp edges x r :
  laplacianAt edges (fun c => - x c) r == - laplacianAt edges x r.
Proof.
  unfold laplacianAt, edgeSum. induction (edges r) as [|c l IH]; simpl; [ring|].
  rewrite IH. ring.
Qed.

Lemma max_principle n k edges v (y : Vector) :
  (forall r c wt, (r < n)%nat -> (c, wt) ∈ edges r -> 0 < wt /\ (c < n)%nat) ->
  (k < n)%nat ->
  y k == v ->
  (forall r, (r < n)%nat -> r <> k -> laplacianAt edges y r == 0) ->
  (forall r, (r < n)%nat -> reaches edges k r) ->
  forall r, (r < n)%nat -> y r <= v.
Proof.
  intros Hw Hk Hyk Hlap Hconn.
  destruct (argmax y n ltac:(lia)) as (m & Hm & Hmax).
  assert (Hreach : forall r, reaches edges k r -> (r < n)%nat -> y r == y m -> y m == v).
  { intros r Hr. induction Hr as [|r c wt Hc Hr IH]; intros Hrn Heq.
    - lra.
    - destruct (decide (r = k)) as [->|Hne]; [lra|].
      destruct (Hw r c wt Hrn Hc) as [Hwpos Hcn].
      apply IH; [exact Hcn|].
      assert (Hterm : wt * (y r - y c) == 0).
      { apply (sum_nonneg_zero (map (fun cw => snd cw * (y r - y (fst cw))) (edges r))).
        - intros q Hq. apply list_elem_of_fmap in Hq as ([c' wt'] & -> & Hc').
          destruct (Hw r c' wt' Hrn Hc') as [Hwpos' Hcn'].
          specialize (Hmax c' Hcn'). simpl. nra.
        - apply (Hlap r Hrn Hne).
        - apply list_elem_of_fmap. exists (c, wt). split; [reflexivity|exact Hc]. }
      nra. }
  assert (Hmv : y m == v) by (apply (Hreach m); [apply Hconn; exact Hm|exact Hm|lra]).
  intros r Hr. specialize (Hmax r Hr). lra.
Qed.

(** A vector that has the value [v] at [k] and a vanishing discrete
    Laplacian everywhere else has the value [v] everywhere. *)
Lemma laplacian_unique n k edges v (x : Vector) :
  (forall r c wt, (r < n)%nat -> (c, wt) ∈ edges r -> 0 < wt /\ (c < n)%nat) ->
  (k < n)%nat ->
  x k == v ->
  (forall r, (r < n)%nat -> r <> k -> laplacianAt edges x r == 0) ->
  (forall r, (r < n)%nat -> reaches edges k r) ->
  forall r, (r < n)%nat -> x r == v.
Proof.
  intros Hw Hk Hxk Hlap Hconn r Hr.
  pose proof (max_principle n k edges v x Hw Hk Hxk Hlap Hconn r Hr) as Hle.
  assert (Hge : - x r <= - v).
  { apply (max_principle n k edges (- v) (fun c => - x c) Hw Hk); auto.
    - lra.
    - intros r' Hr' Hne. rewrite laplacianAt_opp, (Hlap r' Hr' Hne). reflexivity. }
  lra.
Qed.

(** *** The upwind density of the assembler *)

Lemma upwindDensity_tie potential densityI densityJ :
  potential == 0 ->
  upwindDensity potential densityI densityJ ((1#2) * (densityI + densityJ))
  == (densityI + densityJ) / 2.
Proof.
  intros Hz. unfold upwindDensity.
  destruct (Qeq_dec potential 0) as [_|Hne]; [|contradiction].
  field.
Qed.

Lemma upwindDensity_pos potential densityI densityJ rhoMean :
  0 < potential -> upwindDensity potential densityI densityJ rhoMean = densityI.
Proof.
  intros Hp. unfold upwindDensity.
  destruct (Qeq_dec potential 0) as [Hz|_]; [lra|].
  destruct (Qlt_le_dec 0 potential); [reflexivity|lra].
Qed.

Lemma upwindDensity_neg potential densityI densityJ rhoMean :
  potential < 0 -> upwindDensity potential densityI densityJ rhoMean = densityJ.
Proof.
  intros Hp. unfold upwindDensity.
  destruct (Qeq_dec potential 0) as [Hz|_]; [lra|].
  destruct (Qlt_le_dec 0 potential); [lra|reflexivity].
Qed.

(** What the assembler does at a tie: in the first pass the potential
    is zero and the gravity term of the right-hand side carries the mean
    density; in later passes the same holds whenever the potential just
    computed is zero, and a stored potential of zero puts the mean
    density into the gravity term of the new potential. *)
Lemma assembler_tie eI densityI isIndex isIt st :
  interiorDensity true eI densityI isIndex isIt st
    == (densityI + densityOutside isIt) / 2 /\
  (forall first,
     fst (interiorPotential first eI densityI isIndex isIt st) == 0 ->
     interiorDensity first eI densityI isIndex isIt st
       == (densityI + densityOutside isIt) / 2) /\
  (variables_potential st (index eI) isIndex == 0 ->
   fst (interiorPotential false eI densityI isIndex isIt st)
     == (variables_pressure st (index eI) - variables_pressure st (index (outside isIt)))
        / two_norm (vsub (center (outside isIt)) (center eI))
        + (densityI + densityOutside isIt) / 2
          * dot (centerUnitOuterNormal isIt) gravity).
Proof.
  split; [|split].
  - unfold interiorDensity, interiorPotential. simpl.
    apply upwindDensity_tie. reflexivity.
  - intros first Hz. unfold interiorDensity. apply upwindDensity_tie. exact Hz.
  - intros Hz. unfold interiorPotential. simpl.
    rewrite (upwindDensity_tie _ _ _ Hz). reflexivity.
Qed.

(** *** The fixed pressure *)

(** C5, amended.  After [setPressureHard v k], the system the next
    [solve] hands to the linear solver has the identity row in row [k]
    and [v] as the right-hand side of [k]; the other rows are those of
    the assembly, and every solution of that system has the value [v]
    at [k].  The solution is uniform only under conditions the absence
    of Dirichlet faces does not give: when the assembled rows sum to
    zero and the right-hand side vanishes, the uniform vector [v]
    solves the system, and when the rows are those of a connected graph
    Laplacian with positive weights it is the only solution.  The
    assembly produces such a system on every grid without sources, with
    zero Neumann fluxes, without gravity term on any interior face, with
    positive transmissibilities and in which no cell meets the same
    neighbour twice. *)
Theorem setPressureHard_solve first grid st0 v k :
  let st := assemble first grid (setPressureHard v k st0) in
  let st1 := solveSystem st in
  (forall c, A_ st1 k c = identityRow k c) /\
  f_ st1 k = v /\
  (forall r, r <> k -> A_ st1 r = A_ st r /\ f_ st1 r = f_ st r) /\
  variables_pressure (solve st)
    = linearSolve (A_ st1) (variables_pressure st1) (f_ st1) /\
  (forall n x, (k < n)%nat -> solves n (A_ st1) x (f_ st1) -> x k == v) /\
  (forall n, (k < n)%nat -> pureNeumann n (A_ st) (f_ st) ->
     solves n (A_ st1) (fun _ => v) (f_ st1)) /\
  (forall n edges x, (k < n)%nat ->
     laplacianSystem n k edges (A_ st) (f_ st) ->
     solves n (A_ st1) x (f_ st1) ->
     forall r, (r < n)%nat -> x r == v) /\
  (forall n x, (k < n)%nat ->
     pureNeumannGrid n grid ->
     (forall r, (r < n)%nat -> reaches (gridEdges grid) k r) ->
     solves n (A_ st1) x (f_ st1) ->
     forall r, (r < n)%nat -> x r == v) /\
  (forall n, pureNeumannGrid n grid -> pureNeumann n (A_ st) (f_ st)).
Proof.
  intros st st1.
  pose proof (assemble_hard first grid (setPressureHard v k st0)) as Hh.
  unfold hardConstraint in Hh. simpl in Hh. injection Hh as Hp Hi Hs.
  fold st in Hp, Hi, Hs.
  destruct (solveSystem_hard st Hs) as (HA & Hf & Hrest).
  rewrite Hi, idxOfScalar_scalarOfIdx in HA, Hf, Hrest. rewrite Hp in Hf.
  fold st1 in HA, Hf, Hrest.
  assert (Hxk : forall n x, (k < n)%nat -> solves n (A_ st1) x (f_ st1) -> x k == v).
  { intros n x Hk Hsol. specialize (Hsol k Hk).
    rewrite Hf in Hsol. rewrite <- Hsol.
    transitivity (rowDot n (identityRow k) x).
    - symmetry. apply rowDot_identity. exact Hk.
    - unfold rowDot. induction (seq 0 n) as [|c l IH]; simpl; [reflexivity|].
      rewrite IH, HA. reflexivity. }
  assert (Huniq : forall n edges x, (k < n)%nat ->
     laplacianSystem n k edges (A_ st) (f_ st) ->
     solves n (A_ st1) x (f_ st1) ->
     forall r, (r < n)%nat -> x r == v).
  { intros n edges x Hk Hlap Hsol r Hr.
    destruct Hlap as [Hw Hrows Hrhs Hconn].
    apply (laplacian_unique n k edges v x Hw Hk (Hxk n x Hk Hsol)); [|exact Hconn|exact Hr].
    intros r' Hr' Hne. rewrite <- (Hrows r' x Hr' Hne).
    specialize (Hsol r' Hr'). destruct (Hrest r' Hne) as [HAr Hfr].
    rewrite HAr, Hfr in Hsol. rewrite Hsol. apply Hrhs; assumption. }
  split; [exact HA|]. split; [exact Hf|]. split; [exact Hrest|].
  split; [reflexivity|]. split; [exact Hxk|].
  split; [|split; [exact Huniq|split]].
  - intros n Hk Hpn r Hr. destruct (decide (r = k)) as [->|Hne].
    + rewrite Hf.
      transitivity (rowDot n (identityRow k) (fun _ => v)).
      * unfold rowDot. induction (seq 0 n) as [|c l IH]; simpl; [reflexivity|].
        rewrite IH, HA. reflexivity.
      * apply rowDot_identity. exact Hk.
    + destruct (Hrest r Hne) as [-> ->]. destruct (Hpn r Hr) as [Hsum Hfr].
      rewrite rowDot_const, Hsum, Hfr. ring.
  - intros n x Hk Hgrid Hconn.
    apply (Huniq n (gridEdges grid) x Hk).
    apply assemble_pureNeumann_laplacian; assumption.
  - intros n Hgrid. apply assemble_pureNeumann_singular. exact Hgrid.
Qed.


(** *** initializeMatrix: the sparsity pattern *)

(** The pattern of a [BCRSMatrix] that is being set up: the declared
    row sizes and, per row, the column indices added so far, in the
    order of the [addindex] calls. *)
Record Pattern := MkPattern {
  rowsize : nat -> nat;
  indices : nat -> list nat
}.

Definition setrowsize (r size : nat) (p : Pattern) : Pattern :=
  MkPattern (<[r := size]> (rowsize p)) (indices p).
Definition addindex (r c : nat) (p : Pattern) : Pattern :=
  MkPattern (rowsize p) (<[r := indices p r ++ [c]]> (indices p)).

(** [int rowSize = 1; ... if (isIt->neighbor()) rowSize++;] *)
Definition rowSizeOf (elem : Element) : nat :=
  fold_left (fun rowSize isIt => if neighbor isIt then S rowSize else rowSize)
            (intersections elem) 1%nat.

(** The body of the second loop over the cells. *)
Definition addIndicesOf (p : Pattern) (elem : Element) : Pattern :=
  let globalIdxI := index (inside elem) in
  fold_left (fun p isIt =>
               if neighbor isIt then addindex globalIdxI (index (outside isIt)) p else p)
            (intersections elem) (addindex globalIdxI globalIdxI p).

Definition initializeMatrix (grid : GridView) : Pattern :=
  let p1 := fold_left (fun p elem => setrowsize (index (inside elem)) (rowSizeOf elem) p)
                      grid (MkPattern (fun _ => 0%nat) (fun _ => [])) in
  fold_left addIndicesOf grid p1.

(** The cells behind the interior faces of a cell, in face order. *)
Definition neighbourIndices (faces : list Intersection) : list nat :=
  map (fun isIt => index (outside isIt)) (filter (fun isIt => neighbor isIt = true) faces).

(** The column indices one cell adds to its row. *)
Definition cellIndices (elem : Element) : list nat :=
  index (inside elem) :: neighbourIndices (intersections elem).

Lemma neighbourIndices_cons isIt faces :
  neighbourIndices (isIt :: faces)
  = if neighbor isIt then index (outside isIt) :: neighbourIndices faces
    else neighbourIndices faces.
Proof.
  unfold neighbourIndices. rewrite filter_cons.
  destruct (neighbor isIt); reflexivity.
Qed.

Lemma rowSizeOf_fold faces : forall n,
  fold_left (fun rowSize isIt => if neighbor isIt then S rowSize else rowSize) faces n
  = (n + length (neighbourIndices faces))%nat.
Proof.
  induction faces as [|isIt faces IH]; intros n; simpl; [lia|].
  rewrite IH, neighbourIndices_cons. destruct (neighbor isIt); simpl; lia.
Qed.

Lemma rowSizeOf_cellIndices elem : rowSizeOf elem = length (cellIndices elem).
Proof. unfold rowSizeOf, cellIndices. rewrite rowSizeOf_fold. reflexivity. Qed.

Lemma addIndices_faces I faces : forall p,
  rowsize (fold_left (fun p isIt =>
             if neighbor isIt then addindex I (index (outside isIt)) p else p) faces p)
    = rowsize p /\
  forall r,
    indices (fold_left (fun p isIt =>
               if neighbor isIt then addindex I (index (outside isIt)) p else p) faces p) r
    = if decide (r = I) then indices p r ++ neighbourIndices faces else indices p r.
Proof.
  induction faces as [|isIt faces IH]; intros p; simpl.
  - split; [reflexivity|]. intros r. rewrite app_nil_r. destruct (decide (r = I)); reflexivity.
  - destruct (IH (if neighbor isIt then addindex I (index (outside isIt)) p else p))
      as [Hs Hi].
    rewrite Hs. split; [destruct (neighbor isIt); reflexivity|].
    intros r. rewrite Hi, neighbourIndices_cons.
    destruct (neighbor isIt); [|reflexivity]. simpl. unfold insert, fn_insert.
    destruct (decide (r = I)) as [->|Hne].
    + rewrite decide_True by reflexivity. rewrite <- app_assoc. reflexivity.
    + rewrite decide_False by congruence. reflexivity.
Qed.

Lemma addIndicesOf_view p elem :
  rowsize (addIndicesOf p elem) = rowsize p /\
  forall r,
    indices (addIndicesOf p elem) r
    = if decide (r = index (inside elem)) then indices p r ++ cellIndices elem
      else indices p r.
Proof.
  unfold addIndicesOf. cbv zeta.
  destruct (addIndices_faces (index (inside elem)) (intersections elem)
              (addindex (index (inside elem)) (index (inside elem)) p)) as [Hs Hi].
  split; [rewrite Hs; reflexivity|].
  intros r. rewrite Hi. simpl. unfold insert, fn_insert, cellIndices.
  destruct (decide (r = index (inside elem))) as [->|Hne].
  - rewrite decide_True by reflexivity. rewrite <- app_assoc. reflexivity.
  - rewrite decide_False by congruence. reflexivity.
Qed.

(** The indices a grid adds to row [r], cell by cell. *)
Definition rowIndices (grid : GridView) (r : nat) : list nat :=
  flat_map (fun e => if decide (index (inside e) = r) then cellIndices e else []) grid.

Lemma addIndicesOf_fold grid : forall p,
  rowsize (fold_left addIndicesOf grid p) = rowsize p /\
  forall r, indices (fold_left addIndicesOf grid p) r = indices p r ++ rowIndices grid r.
Proof.
  induction grid as [|e grid IH]; intros p; simpl.
  - split; [reflexivity|]. intros r. rewrite app_nil_r. reflexivity.
  - destruct (IH (addIndicesOf p e)) as [Hs Hi].
    destruct (addIndicesOf_view p e) as [Hs1 Hi1].
    split; [congruence|].
    intros r. rewrite Hi, Hi1.
    destruct (decide (r = index (inside e))) as [->|Hne].
    + rewrite decide_True by reflexivity. rewrite <- app_assoc. reflexivity.
    + rewrite decide_False by congruence. reflexivity.
Qed.

Lemma setrowsize_fold_other grid r : forall p,
  r ∉ map (fun e => index (inside e)) grid ->
  rowsize (fold_left (fun p elem => setrowsize (index (inside elem)) (rowSizeOf elem) p)
                     grid p) r
  = rowsize p r.
Proof.
  induction grid as [|e1 grid IH]; intros p Hn; simpl; [reflexivity|].
  simpl in Hn. apply not_elem_of_cons in Hn as [Hne Hn].
  rewrite IH by exact Hn. simpl. unfold insert, fn_insert.
  rewrite decide_False by congruence. reflexivity.
Qed.

Lemma setrowsize_fold grid : forall p e,
  NoDup (map (fun e => index (inside e)) grid) ->
  e ∈ grid ->
  rowsize (fold_left (fun p elem => setrowsize (index (inside elem)) (rowSizeOf elem) p)
                     grid p) (index (inside e))
  = rowSizeOf e.
Proof.
  induction grid as [|e0 grid IH]; intros p e Hnd He; [inversion He|].
  simpl in Hnd. apply list.NoDup_cons in Hnd as [Hnotin Hnd]. simpl.
  apply elem_of_cons in He as [->|He]; [|apply IH; assumption].
  rewrite setrowsize_fold_other by exact Hnotin.
  simpl. unfold insert, fn_insert. rewrite decide_True by reflexivity. reflexivity.
Qed.

Lemma rowIndices_cell grid e :
  NoDup (map (fun e => index (inside e)) grid) ->
  e ∈ grid ->
  rowIndices grid (index (inside e)) = cellIndices e.
Proof.
  induction grid as [|e0 grid IH]; intros Hnd He; [inversion He|].
  simpl in Hnd. apply list.NoDup_cons in Hnd as [Hnotin Hnd].
  unfold rowIndices. simpl. fold (rowIndices grid (index (inside e))).
  apply elem_of_cons in He as [->|He].
  - rewrite decide_True by reflexivity.
    assert (Hnil : rowIndices grid (index (inside e0)) = []).
    { clear -Hnotin. induction grid as [|e1 grid IH]; [reflexivity|].
      simpl in Hnotin. apply not_elem_of_cons in Hnotin as [Hne Hn].
      unfold rowIndices. simpl. rewrite decide_False by congruence.
      apply IH. exact Hn. }
    rewrite Hnil, app_nil_r. reflexivity.
  - rewrite decide_False.
    + apply IH; assumption.
    + intros Heq. apply Hnotin. apply list_elem_of_fmap. exists e. split; [congruence|exact He].
Qed.

(** X11.  [initializeMatrix] fills every row exactly.  The indices it
    adds to a row are, cell by cell, the cell's own index followed by
    the indices of the cells behind its interior faces; when the cells
    are numbered without repetition, the row of a cell receives exactly
    as many indices as the first loop declared for it, one more than
    the cell has interior faces. *)
Theorem initializeMatrix_fills_rows grid :
  (forall r, indices (initializeMatrix grid) r = rowIndices grid r) /\
  (forall e,
     NoDup (map (fun e => index (inside e)) grid) ->
     e ∈ grid ->
     indices (initializeMatrix grid) (index (inside e)) = cellIndices e /\
     rowsize (initializeMatrix grid) (index (inside e))
       = length (indices (initializeMatrix grid) (index (inside e))) /\
     rowsize (initializeMatrix grid) (index (inside e))
       = S (length (neighbourIndices (intersections e)))).
Proof.
  unfold initializeMatrix. cbv zeta.
  set (p1 := fold_left (fun p elem => setrowsize (index (inside elem)) (rowSizeOf elem) p)
                       grid (MkPattern (fun _ => 0%nat) (fun _ => []))).
  destruct (addIndicesOf_fold grid p1) as [Hs Hi].
  assert (Hidx : forall r, indices (fold_left addIndicesOf grid p1) r = rowIndices grid r).
  { intros r. rewrite Hi. unfold p1.
    assert (Hnil : forall g p, indices (fold_left (fun p elem =>
                setrowsize (index (inside elem)) (rowSizeOf elem) p) g p) r = indices p r).
    { induction g as [|e1 g IHg]; intros p; simpl; [reflexivity|]. rewrite IHg. reflexivity. }
    rewrite Hnil. reflexivity. }
  split; [exact Hidx|].
  intros e Hnd He. rewrite Hidx, Hs. unfold p1.
  rewrite (setrowsize_fold grid _ e Hnd He), (rowIndices_cell grid e Hnd He).
  rewrite rowSizeOf_cellIndices. repeat split.
Qed.

(** *** Assembly writes only what [initializeMatrix] has allocated *)

Lemma assembleBoundary_A eI dI vI isIt st r c :
  A_ (assembleBoundary eI dI vI isIt st) r c
  = if decide (r = index eI /\ c = index eI)
    then if isDirichlet (boundaryTypes isIt)
         then A_ st (index eI) (index eI) + boundaryEntry eI vI isIt
         else A_ st r c
    else A_ st r c.
Proof.
  unfold assembleBoundary.
  destruct (isDirichlet (boundaryTypes isIt)).
  - unfold A_store, f_store, set_A, set_f, insert, fn_insert; simpl.
    destruct (decide (r = index eI /\ c = index eI)) as [[-> ->]|Hne].
    + rewrite !decide_True by reflexivity. reflexivity.
    + destruct (decide (index eI = r)) as [<-|Hr]; [|reflexivity].
      rewrite decide_False; [reflexivity|]. intros <-. apply Hne. split; reflexivity.
  - destruct (isNeumann (boundaryTypes isIt));
      destruct (decide (r = index eI /\ c = index eI)); reflexivity.
Qed.

Lemma neighbourIndices_elem isIt faces :
  isIt ∈ faces -> neighbor isIt = true -> index (outside isIt) ∈ neighbourIndices faces.
Proof.
  intros Hin Hn. unfold neighbourIndices.
  apply (list_elem_of_fmap_2 (fun isIt => index (outside isIt))).
  apply list_elem_of_filter. split; assumption.
Qed.

Lemma rowIndices_elem grid e c :
  e ∈ grid -> c ∈ cellIndices e -> c ∈ rowIndices grid (index (inside e)).
Proof.
  intros He Hc. unfold rowIndices. apply list_elem_of_In, in_flat_map.
  exists e. split; [apply list_elem_of_In; exact He|].
  rewrite decide_True by reflexivity. apply list_elem_of_In. exact Hc.
Qed.

(** The loop over the faces of a cell writes the matrix at the diagonal
    position of the cell and at the positions of its neighbours only. *)
Lemma assembleIntersections_within (ok : nat -> nat -> Prop) first eI dI vI faces :
  forall st isIndex,
  ok (index eI) (index eI) ->
  (forall isIt, isIt ∈ faces -> neighbor isIt = true ->
     ok (index eI) (index (outside isIt))) ->
  forall r c, ~ ok r c ->
    A_ (fst (fold_left (assembleIntersection first eI dI vI) faces (st, isIndex))) r c
    = A_ st r c.
Proof.
  induction faces as [|isIt faces IH]; intros st isIndex HII HIJ r c Hrc; [reflexivity|].
  simpl. rewrite IH; [|exact HII|intros f Hf; apply HIJ; right; exact Hf|exact Hrc].
  destruct (neighbor isIt) eqn:Hn.
  - rewrite assembleInterior_A.
    destruct (decide (r = index eI)) as [->|Hr]; [|reflexivity].
    destruct (decide (c = index (outside isIt))) as [->|Hc].
    + destruct Hrc. apply HIJ; [left|exact Hn].
    + destruct (decide (c = index eI)) as [->|Hc']; [contradiction|reflexivity].
  - destruct (boundary isIt); [|reflexivity].
    rewrite assembleBoundary_A.
    destruct (decide (r = index eI /\ c = index eI)) as [[-> ->]|Hne];
      [contradiction|reflexivity].
Qed.

Lemma assemble_fold_within (ok : nat -> nat -> Prop) first grid : forall st,
  (forall e, e ∈ grid -> ok (index (inside e)) (index (inside e))) ->
  (forall e isIt, e ∈ grid -> isIt ∈ intersections e -> neighbor isIt = true ->
     ok (index (inside e)) (index (outside isIt))) ->
  forall r c, ~ ok r c ->
    A_ (fold_left (assembleElement first) grid st) r c = A_ st r c.
Proof.
  induction grid as [|e grid IH]; intros st HII HIJ r c Hrc; [reflexivity|].
  simpl. rewrite IH; [|intros e' He'; apply HII; right; exact He'
                      |intros e' f He'; apply HIJ; right; exact He'|exact Hrc].
  unfold assembleElement. cbv zeta.
  rewrite (assembleIntersections_within ok); [reflexivity|apply HII; left| |exact Hrc].
  intros f Hf. apply HIJ; [left|exact Hf].
Qed.

(** X12.  [assemble] writes the matrix only where [initializeMatrix]
    has added an index: an entry whose column is not among the indices
    of its row is zero after assembly, on every grid and from every
    state. *)
Theorem assemble_within_pattern first grid st r c :
  c ∉ indices (initializeMatrix grid) r ->
  A_ (assemble first grid st) r c = 0.
Proof.
  intros Hc. unfold assemble.
  rewrite (assemble_fold_within (fun r c => c ∈ rowIndices grid r)).
  - reflexivity.
  - intros e He. apply rowIndices_elem; [exact He|left].
  - intros e isIt He Hin Hn. apply rowIndices_elem; [exact He|].
    right. apply neighbourIndices_elem; assumption.
  - intros Hin. apply Hc.
    unfold initializeMatrix. cbv zeta.
    destruct (addIndicesOf_fold grid
                (fold_left (fun p elem => setrowsize (index (inside elem)) (rowSizeOf elem) p)
                           grid (MkPattern (fun _ => 0%nat) (fun _ => [])))) as [_ Hi].
    rewrite Hi. apply elem_of_app. right. exact Hin.
Qed.

(** *** What [assemble] reads and what it leaves alone *)

(** The part of [problem_.variables()] the assembler shares with the
    rest of the program. *)
Definition variablesOf (st : FVPressure1P) : Vector * (nat -> nat -> Q) :=
  (variables_pressure st, variables_potential st).

Lemma assembleIntersection_first eI dI vI acc acc' isIt :
  A_ (fst acc) = A_ (fst acc') -> f_ (fst acc) = f_ (fst acc') ->
  A_ (fst (assembleIntersection true eI dI vI acc isIt))
    = A_ (fst (assembleIntersection true eI dI vI acc' isIt)) /\
  f_ (fst (assembleIntersection true eI dI vI acc isIt))
    = f_ (fst (assembleIntersection true eI dI vI acc' isIt)) /\
  variablesOf (fst (assembleIntersection true eI dI vI acc isIt)) = variablesOf (fst acc).
Proof.
  destruct acc as [[A f ph ih sh p pot] i], acc' as [[A' f' ph' ih' sh' p' pot'] i'].
  simpl. intros <- <-. unfold assembleIntersection.
  destruct (neighbor isIt); [repeat split|].
  destruct (boundary isIt); [|repeat split].
  unfold assembleBoundary.
  destruct (isDirichlet (boundaryTypes isIt)); [repeat split|].
  destruct (isNeumann (boundaryTypes isIt)); repeat split.
Qed.

Lemma assembleIntersections_first eI dI vI faces : forall acc acc',
  A_ (fst acc) = A_ (fst acc') -> f_ (fst acc) = f_ (fst acc') ->
  A_ (fst (fold_left (assembleIntersection true eI dI vI) faces acc))
    = A_ (fst (fold_left (assembleIntersection true eI dI vI) faces acc')) /\
  f_ (fst (fold_left (assembleIntersection true eI dI vI) faces acc))
    = f_ (fst (fold_left (assembleIntersection true eI dI vI) faces acc')) /\
  variablesOf (fst (fold_left (assembleIntersection true eI dI vI) faces acc))
    = variablesOf (fst acc).
Proof.
  induction faces as [|isIt faces IH]; intros acc acc' HA Hf; simpl.
  - repeat split; assumption.
  - destruct (assembleIntersection_first eI dI vI acc acc' isIt HA Hf) as (HA1 & Hf1 & Hv1).
    destruct (IH _ _ HA1 Hf1) as (HA2 & Hf2 & Hv2).
    repeat split; congruence.
Qed.

Lemma assembleElement_first e st st' :
  A_ st = A_ st' -> f_ st = f_ st' ->
  A_ (assembleElement true st e) = A_ (assembleElement true st' e) /\
  f_ (assembleElement true st e) = f_ (assembleElement true st' e) /\
  variablesOf (assembleElement true st e) = variablesOf st.
Proof.
  intros HA Hf. unfold assembleElement. cbv zeta.
  set (eI := inside e). set (dI := Fluid_density _ _). set (vI := Fluid_viscosity _ _).
  destruct (assembleIntersections_first eI dI vI (intersections e)
              (f_store (index eI) (source eI / dI * volume eI) st, 0%nat)
              (f_store (index eI) (source eI / dI * volume eI) st', 0%nat))
    as (HA1 & Hf1 & Hv1).
  { simpl. exact HA. }
  { simpl. rewrite Hf. reflexivity. }
  split; [exact HA1|split; [exact Hf1|exact Hv1]].
Qed.

Lemma assemble_fold_first grid : forall st st',
  A_ st = A_ st' -> f_ st = f_ st' ->
  A_ (fold_left (assembleElement true) grid st)
    = A_ (fold_left (assembleElement true) grid st') /\
  f_ (fold_left (assembleElement true) grid st)
    = f_ (fold_left (assembleElement true) grid st') /\
  variablesOf (fold_left (assembleElement true) grid st) = variablesOf st.
Proof.
  induction grid as [|e grid IH]; intros st st' HA Hf; simpl.
  - repeat split; assumption.
  - destruct (assembleElement_first e st st' HA Hf) as (HA1 & Hf1 & Hv1).
    destruct (IH _ _ HA1 Hf1) as (HA2 & Hf2 & Hv2).
    split; [exact HA2|split; [exact Hf2|]]. rewrite Hv2, Hv1. reflexivity.
Qed.

(** X13.  The first assembly starts from scratch: with [first = true]
    the assembled matrix and right-hand side are the same from every
    state, whatever matrix, right-hand side, pressures, potentials and
    fixed pressure the state held, and the pressures and the stored
    potentials are left as they were. *)
Theorem assemble_first_from_scratch grid st st' :
  A_ (assemble true grid st) = A_ (assemble true grid st') /\
  f_ (assemble true grid st) = f_ (assemble true grid st') /\
  variables_pressure (assemble true grid st) = variables_pressure st /\
  variables_potential (assemble true grid st) = variables_potential st.
Proof.
  unfold assemble.
  destruct (assemble_fold_first grid
              (set_f (fun _ => 0) (set_A (fun _ _ => 0) st))
              (set_f (fun _ => 0) (set_A (fun _ _ => 0) st')))
    as (HA & Hf & Hv); [reflexivity|reflexivity|].
  unfold variablesOf in Hv. simpl in Hv. injection Hv as Hp Hpot.
  repeat split; assumption.
Qed.

(** *** The potentials stored by a later assembly *)

(** The new potential of a face reads the state only through the cell
    pressures and the old potential of that face. *)
Lemma interiorPotential_ext eI dI i isIt st st' :
  variables_pressure st = variables_pressure st' ->
  variables_potential st (index eI) i = variables_potential st' (index eI) i ->
  fst (interiorPotential false eI dI i isIt st)
  = fst (interiorPotential false eI dI i isIt st').
Proof. intros Hp Hpot. unfold interiorPotential. simpl. rewrite Hp, Hpot. reflexivity. Qed.

Lemma assembleIntersection_potential eI dI vI st i isIt :
  variables_pressure (fst (assembleIntersection false eI dI vI (st, i) isIt))
    = variables_pressure st /\
  forall r k,
    variables_potential (fst (assembleIntersection false eI dI vI (st, i) isIt)) r k
    = if decide (r = index eI /\ k = i)
      then if neighbor isIt then fst (interiorPotential false eI dI i isIt st)
           else variables_potential st r k
      else variables_potential st r k.
Proof.
  unfold assembleIntersection. simpl.
  destruct (neighbor isIt).
  - split; [reflexivity|]. intros r k.
    unfold assembleInterior, interiorPotential, A_store, f_store, set_A, set_f. simpl.
    unfold insert, fn_insert.
    destruct (decide (r = index eI /\ k = i)) as [[-> ->]|Hne].
    + rewrite !decide_True by reflexivity. reflexivity.
    + destruct (decide (index eI = r)) as [<-|Hr]; [|reflexivity].
      rewrite decide_False; [reflexivity|]. intros <-. apply Hne. split; reflexivity.
  - assert (H : variablesOf (if boundary isIt then assembleBoundary eI dI vI isIt st else st)
                = variablesOf st).
    { destruct (boundary isIt); [|reflexivity]. unfold assembleBoundary.
      destruct (isDirichlet (boundaryTypes isIt)); [reflexivity|].
      destruct (isNeumann (boundaryTypes isIt)); reflexivity. }
    unfold variablesOf in H. injection H as Hp Hpot. rewrite Hp, Hpot.
    split; [reflexivity|]. intros r k. destruct (decide (r = index eI /\ k = i)); reflexivity.
Qed.

Lemma assembleIntersections_potential eI dI vI faces : forall st i0,
  variables_pressure (fst (fold_left (assembleIntersection false eI dI vI) faces (st, i0)))
    = variables_pressure st /\
  (forall r k, r <> index eI \/ (k < i0)%nat ->
     variables_potential
       (fst (fold_left (assembleIntersection false eI dI vI) faces (st, i0))) r k
     = variables_potential st r k) /\
  (forall j isIt, faces !! j = Some isIt ->
     variables_potential
       (fst (fold_left (assembleIntersection false eI dI vI) faces (st, i0)))
       (index eI) (i0 + j)
     = if neighbor isIt then fst (interiorPotential false eI dI (i0 + j)%nat isIt st)
       else variables_potential st (index eI) (i0 + j)) /\
  (forall j, (length faces <= j)%nat ->
     variables_potential
       (fst (fold_left (assembleIntersection false eI dI vI) faces (st, i0)))
       (index eI) (i0 + j)
     = variables_potential st (index eI) (i0 + j)).
Proof.
  induction faces as [|isIt faces IH]; intros st i0.
  - simpl. repeat split; try reflexivity. intros j f Hf. discriminate.
  - destruct (assembleIntersection_potential eI dI vI st i0 isIt) as (Hp1 & Hpot1).
    change (fold_left (assembleIntersection false eI dI vI) (isIt :: faces) (st, i0))
      with (fold_left (assembleIntersection false eI dI vI) faces
              (assembleIntersection false eI dI vI (st, i0) isIt)).
    set (st1 := fst (assembleIntersection false eI dI vI (st, i0) isIt)) in *.
    replace (assembleIntersection false eI dI vI (st, i0) isIt) with (st1, S i0)
      by (unfold st1; reflexivity).
    destruct (IH st1 (S i0)) as (Hp & Hb & Hc & Hd).
    assert (Hother : forall r k, r <> index eI \/ k <> i0 ->
              variables_potential st1 r k = variables_potential st r k).
    { intros r k Hrk. rewrite Hpot1. rewrite decide_False; [reflexivity|].
      intros [-> ->]. destruct Hrk as [H|H]; apply H; reflexivity. }
    split; [congruence|split; [|split]].
    + intros r k Hrk. rewrite Hb by (destruct Hrk; [left; assumption|right; lia]).
      apply Hother. destruct Hrk; [left; assumption|right; lia].
    + intros j f Hf. destruct j as [|j].
      * simpl in Hf. injection Hf as <-.
        rewrite Hb by (right; lia). rewrite Hpot1.
        replace (i0 + 0)%nat with i0 by lia.
        rewrite decide_True by (split; reflexivity). reflexivity.
      * simpl in Hf. replace (i0 + S j)%nat with (S i0 + j)%nat by lia.
        rewrite (Hc j f Hf).
        rewrite (Hother (index eI) (S i0 + j)%nat) by (right; lia).
        destruct (neighbor f); [|reflexivity].
        apply interiorPotential_ext; [exact Hp1|]. apply Hother. right; lia.
    + intros j Hj. simpl in Hj. destruct j as [|j]; [lia|].
      replace (i0 + S j)%nat with (S i0 + j)%nat by lia.
      rewrite Hd by lia. apply Hother. right; lia.
Qed.

Lemma assembleElement_potential e st :
  variables_pressure (assembleElement false st e) = variables_pressure st /\
  (forall r k, r <> index (inside e) ->
     variables_potential (assembleElement false st e) r k = variables_potential st r k) /\
  (forall j isIt, intersections e !! j = Some isIt ->
     variables_potential (assembleElement false st e) (index (inside e)) j
     = if neighbor isIt
       then fst (interiorPotential false (inside e) (densityOf (inside e)) j isIt st)
       else variables_potential st (index (inside e)) j) /\
  (forall j, (length (intersections e) <= j)%nat ->
     variables_potential (assembleElement false st e) (index (inside e)) j
     = variables_potential st (index (inside e)) j).
Proof.
  unfold assembleElement. cbv zeta.
  set (eI := inside e).
  change (Fluid_density (temperature eI) (referencePressure eI)) with (densityOf eI).
  set (vI := Fluid_viscosity _ _).
  set (st1 := f_store (index eI) (source eI / densityOf eI * volume eI) st).
  destruct (assembleIntersections_potential eI (densityOf eI) vI (intersections e) st1 0%nat)
    as (Hp & Hb & Hc & Hd).
  split; [exact Hp|split; [|split]].
  - intros r k Hr. apply Hb. left. exact Hr.
  - intros j f Hf. apply (Hc j f Hf).
  - intros j Hj. apply (Hd j Hj).
Qed.

Lemma assemble_fold_potential_other grid r : forall st,
  r ∉ map (fun e => index (inside e)) grid ->
  variables_pressure (fold_left (assembleElement false) grid st) = variables_pressure st /\
  forall k, variables_potential (fold_left (assembleElement false) grid st) r k
            = variables_potential st r k.
Proof.
  induction grid as [|e grid IH]; intros st Hr; simpl; [split; reflexivity|].
  simpl in Hr. apply not_elem_of_cons in Hr as [Hne Hr].
  destruct (assembleElement_potential e st) as (Hp1 & Hb1 & _).
  destruct (IH (assembleElement false st e) Hr) as (Hp & Hk).
  split; [congruence|]. intros k. rewrite Hk. apply Hb1. exact Hne.
Qed.

Lemma assemble_fold_pressure first grid : forall st,
  variables_pressure (fold_left (assembleElement first) grid st) = variables_pressure st.
Proof.
  induction grid as [|e grid IH]; intros st; simpl; [reflexivity|].
  rewrite IH. destruct first.
  - destruct (assembleElement_first e st st eq_refl eq_refl) as (_ & _ & Hv).
    unfold variablesOf in Hv. injection Hv as Hp _. exact Hp.
  - apply assembleElement_potential.
Qed.

Lemma assemble_fold_potential grid : forall st e j isIt,
  NoDup (map (fun e => index (inside e)) grid) ->
  e ∈ grid ->
  intersections e !! j = Some isIt ->
  variables_potential (fold_left (assembleElement false) grid st) (index (inside e)) j
  = if neighbor isIt
    then fst (interiorPotential false (inside e) (densityOf (inside e)) j isIt st)
    else variables_potential st (index (inside e)) j.
Proof.
  induction grid as [|e0 grid IH]; intros st e j isIt Hnd He Hj; [inversion He|].
  simpl in Hnd. apply list.NoDup_cons in Hnd as [Hnotin Hnd]. simpl.
  destruct (assembleElement_potential e0 st) as (Hp1 & Hb1 & Hc1 & _).
  apply elem_of_cons in He as [->|He].
  - destruct (assemble_fold_potential_other grid (index (inside e0))
                (assembleElement false st e0) Hnotin) as (_ & Hk).
    rewrite Hk. apply Hc1. exact Hj.
  - assert (Hne : index (inside e) <> index (inside e0)).
    { intros Heq. apply Hnotin. apply list_elem_of_fmap. exists e. split; [congruence|exact He]. }
    rewrite (IH (assembleElement false st e0) e j isIt Hnd He Hj).
    rewrite (Hb1 _ j Hne).
    destruct (neighbor isIt); [|reflexivity].
    apply interiorPotential_ext; [exact Hp1|]. apply Hb1. exact Hne.
Qed.

(** X14.  A later assembly ([first = false]) stores, for every interior
    face of every cell, the new potential of the face: the pressure
    difference over the distance of the cell centres plus the gravity
    term, in which the density is upwinded by the potential the face
    had before this assembly.  The potentials at the positions of the
    other faces and the cell pressures are left as they were.  The
    cells are numbered without repetition. *)
Theorem assemble_stores_potentials grid st e j isIt :
  NoDup (map (fun e => index (inside e)) grid) ->
  e ∈ grid ->
  intersections e !! j = Some isIt ->
  variables_pressure (assemble false grid st) = variables_pressure st /\
  (neighbor isIt = true ->
   variables_potential (assemble false grid st) (index (inside e)) j
   = (variables_pressure st (index (inside e))
      - variables_pressure st (index (outside isIt)))
     / two_norm (vsub (center (outside isIt)) (center (inside e)))
     + upwindDensity (variables_potential st (index (inside e)) j)
         (densityOf (inside e)) (densityOutside isIt)
         ((1#2) * (densityOf (inside e) + densityOutside isIt))
       * dot (centerUnitOuterNormal isIt) gravity) /\
  (neighbor isIt = false ->
   variables_potential (assemble false grid st) (index (inside e)) j
   = variables_potential st (index (inside e)) j).
Proof.
  intros Hnd He Hj. unfold assemble.
  split; [rewrite assemble_fold_pressure; reflexivity|].
  rewrite (assemble_fold_potential grid _ e j isIt Hnd He Hj).
  split; intros Hn; rewrite Hn; reflexivity.
Qed.

(** *** The row of a cell after assembly *)

(** What one face adds to the diagonal entry of its cell: an interior
    face and a Dirichlet face add their transmissibility. *)
Definition faceDiagonal (eI : Entity) (isIt : Intersection) : Q :=
  if neighbor isIt then interiorEntry eI (viscosityOf eI) isIt
  else if boundary isIt then
    if isDirichlet (boundaryTypes isIt) then boundaryEntry eI (viscosityOf eI) isIt
    else 0
  else 0.

(** What the face at position [isIndex] adds to the right-hand side of
    its cell. *)
Definition faceRhs (first : bool) (st : FVPressure1P) (eI : Entity)
    (isIndex : nat) (isIt : Intersection) : Q :=
  if neighbor isIt then
    - (interiorDensity first eI (densityOf eI) isIndex isIt st
       * dot (interiorPermeability eI (viscosityOf eI) isIt) gravity * faceVolume isIt)
  else if boundary isIt then
    if isDirichlet (boundaryTypes isIt) then
      boundaryEntry eI (viscosityOf eI) isIt * dirichlet isIt
      - boundaryRightEntry eI (densityOf eI) (viscosityOf eI) isIt
    else if isNeumann (boundaryTypes isIt) then
      - (neumann isIt / densityOf eI * faceVolume isIt)
    else 0
  else 0.

(** The sum of a quantity over the faces of a cell, the faces counted
    from [isIndex]. *)
Fixpoint faceSum (g : nat -> Intersection -> Q) (isIndex : nat)
    (faces : list Intersection) : Q :=
  match faces with
  | [] => 0
  | isIt :: rest => g isIndex isIt + faceSum g (S isIndex) rest
  end.

(** The entry in column [c] of the row of a cell, [c] not the cell
    itself: minus the transmissibility of the last interior face that
    leads to [c]. *)
Definition offDiagonal (eI : Entity) (faces : list Intersection) (c : nat) (a0 : Q) : Q :=
  fold_left (fun acc isIt =>
               if neighbor isIt
               then if decide (index (outside isIt) = c)
                    then - interiorEntry eI (viscosityOf eI) isIt else acc
               else acc) faces a0.

(** No interior face of the cell leads back to the cell. *)
Definition noSelfNeighbour (eI : Entity) (faces : list Intersection) : Prop :=
  forall isIt, isIt ∈ faces -> neighbor isIt = true -> index (outside isIt) <> index eI.

Lemma interiorDensity_ext first eI dI i isIt st st' :
  variables_pressure st = variables_pressure st' ->
  variables_potential st (index eI) i = variables_potential st' (index eI) i ->
  interiorDensity first eI dI i isIt st = interiorDensity first eI dI i isIt st'.
Proof.
  intros Hp Hpot. unfold interiorDensity. destruct first; [reflexivity|].
  rewrite (interiorPotential_ext eI dI i isIt st st' Hp Hpot). reflexivity.
Qed.

Lemma faceRhs_ext first eI i isIt st st' :
  variables_pressure st = variables_pressure st' ->
  variables_potential st (index eI) i = variables_potential st' (index eI) i ->
  faceRhs first st eI i isIt = faceRhs first st' eI i isIt.
Proof.
  intros Hp Hpot. unfold faceRhs.
  rewrite (interiorDensity_ext first eI (densityOf eI) i isIt st st' Hp Hpot). reflexivity.
Qed.

Lemma faceSum_ext (g g' : nat -> Intersection -> Q) faces : forall i0,
  (forall j isIt, (i0 <= j)%nat -> g j isIt = g' j isIt) ->
  faceSum g i0 faces = faceSum g' i0 faces.
Proof.
  induction faces as [|isIt faces IH]; intros i0 H; simpl; [reflexivity|].
  rewrite (H i0 isIt) by lia. rewrite (IH (S i0)); [reflexivity|].
  intros j f Hj. apply H. lia.
Qed.

Lemma offDiagonal_interior eI faces c : forall a0,
  offDiagonal eI faces c a0
  = offDiagonal eI (filter (fun isIt => neighbor isIt = true) faces) c a0.
Proof.
  unfold offDiagonal. induction faces as [|isIt faces IH]; intros a0; [reflexivity|].
  rewrite filter_cons. destruct (neighbor isIt) eqn:Hn.
  - rewrite decide_True by reflexivity. simpl. rewrite Hn. apply IH.
  - rewrite decide_False by discriminate. simpl. rewrite Hn. apply IH.
Qed.

(** One face leaves the pressures alone, and the potentials except the
    one at its own position. *)
Lemma assembleIntersection_vars first eI dI vI st i isIt :
  variables_pressure (fst (assembleIntersection first eI dI vI (st, i) isIt))
    = variables_pressure st /\
  forall r k, ~ (r = index eI /\ k = i) ->
    variables_potential (fst (assembleIntersection first eI dI vI (st, i) isIt)) r k
    = variables_potential st r k.
Proof.
  destruct first.
  - unfold assembleIntersection. simpl.
    destruct (neighbor isIt); [split; [reflexivity|intros; reflexivity]|].
    destruct (boundary isIt); [|split; [reflexivity|intros; reflexivity]].
    unfold assembleBoundary.
    destruct (isDirichlet (boundaryTypes isIt)); [split; [reflexivity|intros; reflexivity]|].
    destruct (isNeumann (boundaryTypes isIt)); split; try reflexivity; intros; reflexivity.
  - destruct (assembleIntersection_potential eI dI vI st i isIt) as (Hp & Hpot).
    split; [exact Hp|]. intros r k Hne. rewrite Hpot.
    rewrite decide_False by exact Hne. reflexivity.
Qed.

Lemma assembleBoundary_f eI dI vI isIt st r :
  f_ (assembleBoundary eI dI vI isIt st) r
  = if decide (r = index eI)
    then if isDirichlet (boundaryTypes isIt)
         then f_ st (index eI) + boundaryEntry eI vI isIt * dirichlet isIt
              - boundaryRightEntry eI dI vI isIt
         else if isNeumann (boundaryTypes isIt)
              then f_ st (index eI) - neumann isIt / dI * faceVolume isIt
              else f_ st r
    else f_ st r.
Proof.
  unfold assembleBoundary.
  destruct (isDirichlet (boundaryTypes isIt)).
  - unfold A_store, f_store, set_A, set_f, insert, fn_insert; simpl.
    destruct (decide (r = index eI)) as [->|Hne].
    + rewrite !decide_True by reflexivity. reflexivity.
    + rewrite !decide_False by congruence. reflexivity.
  - destruct (isNeumann (boundaryTypes isIt)).
    + unfold f_store, set_f, insert, fn_insert; simpl.
      destruct (decide (r = index eI)) as [->|Hne].
      * rewrite decide_True by reflexivity. reflexivity.
      * rewrite decide_False by congruence. reflexivity.
    + destruct (decide (r = index eI)); reflexivity.
Qed.

(** What one face does to the row of its cell, and to the other rows. *)
Lemma assembleIntersection_row first eI st i isIt :
  let st1 := fst (assembleIntersection first eI (densityOf eI) (viscosityOf eI)
                    (st, i) isIt) in
  ((neighbor isIt = true -> index (outside isIt) <> index eI) ->
   A_ st1 (index eI) (index eI) == A_ st (index eI) (index eI) + faceDiagonal eI isIt) /\
  (forall c, c <> index eI ->
     A_ st1 (index eI) c
     = if neighbor isIt
       then if decide (index (outside isIt) = c)
            then - interiorEntry eI (viscosityOf eI) isIt else A_ st (index eI) c
       else A_ st (index eI) c) /\
  f_ st1 (index eI) == f_ st (index eI) + faceRhs first st eI i isIt /\
  (forall r, r <> index eI ->
     (forall c, A_ st1 r c = A_ st r c) /\ f_ st1 r = f_ st r).
Proof.
  unfold assembleIntersection, faceDiagonal, faceRhs. cbv zeta. simpl.
  destruct (neighbor isIt) eqn:Hn.
  - split; [|split; [|split]].
    + intros Hself. specialize (Hself eq_refl). rewrite assembleInterior_A.
      rewrite decide_True by reflexivity.
      rewrite decide_False by congruence.
      rewrite decide_True by reflexivity. reflexivity.
    + intros c Hc. rewrite assembleInterior_A.
      rewrite decide_True by reflexivity.
      destruct (decide (c = index (outside isIt))) as [->|Hne].
      * rewrite decide_True by reflexivity. reflexivity.
      * rewrite (decide_False (P := c = index eI)) by exact Hc.
        rewrite decide_False by congruence. reflexivity.
    + rewrite assembleInterior_f. rewrite decide_True by reflexivity. ring.
    + intros r Hr. split.
      * intros c. rewrite assembleInterior_A. rewrite decide_False by exact Hr. reflexivity.
      * rewrite assembleInterior_f. rewrite decide_False by exact Hr. reflexivity.
  - destruct (boundary isIt) eqn:Hb.
    + split; [|split; [|split]].
      * intros _. rewrite assembleBoundary_A.
        rewrite decide_True by (split; reflexivity).
        destruct (isDirichlet (boundaryTypes isIt)); [reflexivity|ring].
      * intros c Hc. rewrite assembleBoundary_A.
        rewrite decide_False; [reflexivity|]. intros [_ H]. contradiction.
      * rewrite assembleBoundary_f. rewrite decide_True by reflexivity.
        destruct (isDirichlet (boundaryTypes isIt)); [ring|].
        destruct (isNeumann (boundaryTypes isIt)); ring.
      * intros r Hr. split.
        -- intros c. rewrite assembleBoundary_A.
           rewrite decide_False; [reflexivity|]. intros [H _]. contradiction.
        -- rewrite assembleBoundary_f. rewrite decide_False by exact Hr. reflexivity.
    + split; [|split; [|split]].
      * intros _. ring.
      * intros c _. reflexivity.
      * ring.
      * intros r _. split; reflexivity.
Qed.

(** The loop over the faces of a cell. *)
Lemma assembleIntersections_rowsum first eI faces : forall st i0,
  let st' := fst (fold_left (assembleIntersection first eI (densityOf eI) (viscosityOf eI))
                            faces (st, i0)) in
  (noSelfNeighbour eI faces ->
   A_ st' (index eI) (index eI)
   == A_ st (index eI) (index eI) + faceSum (fun _ => faceDiagonal eI) i0 faces) /\
  (forall c, c <> index eI ->
     A_ st' (index eI) c = offDiagonal eI faces c (A_ st (index eI) c)) /\
  f_ st' (index eI) == f_ st (index eI) + faceSum (faceRhs first st eI) i0 faces /\
  (forall r, r <> index eI ->
     (forall c, A_ st' r c = A_ st r c) /\ f_ st' r = f_ st r).
Proof.
  induction faces as [|isIt faces IH]; intros st i0.
  - simpl. split; [intros _; ring|]. split; [intros c _; reflexivity|].
    split; [ring|]. intros r _. split; reflexivity.
  - cbv zeta.
    change (fold_left (assembleIntersection first eI (densityOf eI) (viscosityOf eI))
              (isIt :: faces) (st, i0))
      with (fold_left (assembleIntersection first eI (densityOf eI) (viscosityOf eI)) faces
              (assembleIntersection first eI (densityOf eI) (viscosityOf eI) (st, i0) isIt)).
    destruct (assembleIntersection_row first eI st i0 isIt) as (Ha1 & Hb1 & Hc1 & Hd1).
    destruct (assembleIntersection_vars first eI (densityOf eI) (viscosityOf eI) st i0 isIt)
      as (Hp1 & Hpot1).
    set (st1 := fst (assembleIntersection first eI (densityOf eI) (viscosityOf eI)
                       (st, i0) isIt)) in *.
    replace (assembleIntersection first eI (densityOf eI) (viscosityOf eI) (st, i0) isIt)
      with (st1, S i0) by (unfold st1; reflexivity).
    destruct (IH st1 (S i0)) as (Ha & Hb & Hc & Hd).
    split; [|split; [|split]].
    + intros Hself. rewrite Ha by (intros f Hf; apply Hself; right; exact Hf).
      rewrite Ha1 by (apply Hself; left). simpl. ring.
    + intros c Hc'. rewrite (Hb c Hc'), (Hb1 c Hc'). reflexivity.
    + rewrite Hc, Hc1.
      rewrite (faceSum_ext (faceRhs first st1 eI) (faceRhs first st eI) faces (S i0)).
      * simpl. ring.
      * intros j f Hj. apply faceRhs_ext; [exact Hp1|].
        apply Hpot1. intros [_ H]. lia.
    + intros r Hr. destruct (Hd r Hr) as [HA Hf]. destruct (Hd1 r Hr) as [HA1 Hf1].
      split; [intros c; rewrite HA; apply HA1|rewrite Hf; exact Hf1].
Qed.

(** One cell. *)
Lemma assembleElement_rowsum first st e :
  (noSelfNeighbour (inside e) (intersections e) ->
   A_ (assembleElement first st e) (index (inside e)) (index (inside e))
   == A_ st (index (inside e)) (index (inside e))
      + faceSum (fun _ => faceDiagonal (inside e)) 0 (intersections e)) /\
  (forall c, c <> index (inside e) ->
     A_ (assembleElement first st e) (index (inside e)) c
     = offDiagonal (inside e) (intersections e) c (A_ st (index (inside e)) c)) /\
  f_ (assembleElement first st e) (index (inside e))
  == source (inside e) / densityOf (inside e) * volume (inside e)
     + faceSum (faceRhs first st (inside e)) 0 (intersections e) /\
  (forall r, r <> index (inside e) ->
     (forall c, A_ (assembleElement first st e) r c = A_ st r c) /\
     f_ (assembleElement first st e) r = f_ st r).
Proof.
  unfold assembleElement. cbv zeta.
  set (eI := inside e).
  change (Fluid_density (temperature eI) (referencePressure eI)) with (densityOf eI).
  change (Fluid_viscosity (temperature eI) (referencePressure eI)) with (viscosityOf eI).
  set (st1 := f_store (index eI) (source eI / densityOf eI * volume eI) st).
  destruct (assembleIntersections_rowsum first eI (intersections e) st1 0%nat)
    as (Ha & Hb & Hc & Hd).
  split; [|split; [|split]].
  - intros Hself. rewrite (Ha Hself). reflexivity.
  - intros c Hc'. rewrite (Hb c Hc'). reflexivity.
  - rewrite Hc.
    rewrite (faceSum_ext (faceRhs first st1 eI) (faceRhs first st eI) (intersections e) 0%nat)
      by (intros j f _; apply faceRhs_ext; reflexivity).
    unfold st1, f_store, set_f, insert, fn_insert. simpl.
    rewrite decide_True by reflexivity. reflexivity.
  - intros r Hr. destruct (Hd r Hr) as [HA Hf]. split.
    + intros c. rewrite HA. reflexivity.
    + rewrite Hf. unfold st1, f_store, set_f, insert, fn_insert. simpl.
      rewrite decide_False by congruence. reflexivity.
Qed.

Lemma assembleElement_vars first e st :
  variables_pressure (assembleElement first st e) = variables_pressure st /\
  forall r k, r <> index (inside e) ->
    variables_potential (assembleElement first st e) r k = variables_potential st r k.
Proof.
  destruct first.
  - destruct (assembleElement_first e st st eq_refl eq_refl) as (_ & _ & Hv).
    unfold variablesOf in Hv. injection Hv as Hp Hpot.
    split; [exact Hp|]. intros r k _. rewrite Hpot. reflexivity.
  - destruct (assembleElement_potential e st) as (Hp & Hb & _).
    split; [exact Hp|exact Hb].
Qed.

Lemma assemble_fold_other_rows first grid r : forall st,
  r ∉ map (fun e => index (inside e)) grid ->
  (forall c, A_ (fold_left (assembleElement first) grid st) r c = A_ st r c) /\
  f_ (fold_left (assembleElement first) grid st) r = f_ st r.
Proof.
  induction grid as [|e grid IH]; intros st Hr; simpl; [split; reflexivity|].
  simpl in Hr. apply not_elem_of_cons in Hr as [Hne Hr].
  destruct (IH (assembleElement first st e) Hr) as [HA Hf].
  destruct (assembleElement_rowsum first st e) as (_ & _ & _ & Hd).
  destruct (Hd r Hne) as [HA1 Hf1].
  split; [intros c; rewrite HA; apply HA1|rewrite Hf; exact Hf1].
Qed.

(** The loop over the cells, numbered without repetition. *)
Lemma assemble_fold_rowsum first grid : forall st e,
  NoDup (map (fun e => index (inside e)) grid) ->
  e ∈ grid ->
  (noSelfNeighbour (inside e) (intersections e) ->
   A_ (fold_left (assembleElement first) grid st) (index (inside e)) (index (inside e))
   == A_ st (index (inside e)) (index (inside e))
      + faceSum (fun _ => faceDiagonal (inside e)) 0 (intersections e)) /\
  (forall c, c <> index (inside e) ->
     A_ (fold_left (assembleElement first) grid st) (index (inside e)) c
     = offDiagonal (inside e) (intersections e) c (A_ st (index (inside e)) c)) /\
  f_ (fold_left (assembleElement first) grid st) (index (inside e))
  == source (inside e) / densityOf (inside e) * volume (inside e)
     + faceSum (faceRhs first st (inside e)) 0 (intersections e).
Proof.
  induction grid as [|e0 grid IH]; intros st e Hnd He; [inversion He|].
  simpl in Hnd. apply list.NoDup_cons in Hnd as [Hnotin Hnd]. simpl.
  destruct (assembleElement_rowsum first st e0) as (Ha0 & Hb0 & Hc0 & Hd0).
  apply elem_of_cons in He as [->|He].
  - destruct (assemble_fold_other_rows first grid (index (inside e0))
                (assembleElement first st e0) Hnotin) as [HA Hf].
    split; [|split].
    + intros Hself. rewrite HA. apply Ha0. exact Hself.
    + intros c Hc. rewrite HA. apply Hb0. exact Hc.
    + rewrite Hf. exact Hc0.
  - assert (Hne : index (inside e) <> index (inside e0)).
    { intros Heq. apply Hnotin. apply list_elem_of_fmap. exists e. split; [congruence|exact He]. }
    destruct (IH (assembleElement first st e0) e Hnd He) as (Ha & Hb & Hc).
    destruct (Hd0 _ Hne) as [HA1 Hf1].
    destruct (assembleElement_vars first e0 st) as (Hp & Hpot).
    split; [|split].
    + intros Hself. rewrite (Ha Hself), HA1. reflexivity.
    + intros c Hc'. rewrite (Hb c Hc'), HA1. reflexivity.
    + rewrite Hc.
      rewrite (faceSum_ext (faceRhs first (assembleElement first st e0) (inside e))
                           (faceRhs first st (inside e)) (intersections e) 0%nat);
        [reflexivity|].
      intros j f _. apply faceRhs_ext; [exact Hp|]. apply Hpot. exact Hne.
Qed.

(** The row of a cell and its right-hand side after [assemble]. *)
Lemma assemble_row first grid st e :
  NoDup (map (fun e => index (inside e)) grid) ->
  e ∈ grid ->
  (noSelfNeighbour (inside e) (intersections e) ->
   A_ (assemble first grid st) (index (inside e)) (index (inside e))
   == faceSum (fun _ => faceDiagonal (inside e)) 0 (intersections e)) /\
  (forall c, c <> index (inside e) ->
     A_ (assemble first grid st) (index (inside e)) c
     = offDiagonal (inside e) (intersections e) c 0) /\
  f_ (assemble first grid st) (index (inside e))
  == source (inside e) / densityOf (inside e) * volume (inside e)
     + faceSum (faceRhs first st (inside e)) 0 (intersections e).
Proof.
  intros Hnd He. unfold assemble.
  destruct (assemble_fold_rowsum first grid
              (set_f (fun _ => 0) (set_A (fun _ _ => 0) st)) e Hnd He) as (Ha & Hb & Hc).
  split; [|split].
  - intros Hself. rewrite (Ha Hself). simpl. ring.
  - intros c Hc'. rewrite (Hb c Hc'). reflexivity.
  - rewrite Hc.
    rewrite (faceSum_ext (faceRhs first (set_f (fun _ => 0) (set_A (fun _ _ => 0) st))
                                  (inside e))
                         (faceRhs first st (inside e)) (intersections e) 0%nat);
      [reflexivity|].
    intros j f _. apply faceRhs_ext; reflexivity.
Qed.

(** The assembly reads the state through the pressures and the
    potentials only. *)
Lemma assembleIntersection_sys first eI dI vI acc acc' isIt :
  snd acc = snd acc' ->
  A_ (fst acc) = A_ (fst acc') -> f_ (fst acc) = f_ (fst acc') ->
  variablesOf (fst acc) = variablesOf (fst acc') ->
  snd (assembleIntersection first eI dI vI acc isIt)
    = snd (assembleIntersection first eI dI vI acc' isIt) /\
  A_ (fst (assembleIntersection first eI dI vI acc isIt))
    = A_ (fst (assembleIntersection first eI dI vI acc' isIt)) /\
  f_ (fst (assembleIntersection first eI dI vI acc isIt))
    = f_ (fst (assembleIntersection first eI dI vI acc' isIt)) /\
  variablesOf (fst (assembleIntersection first eI dI vI acc isIt))
    = variablesOf (fst (assembleIntersection first eI dI vI acc' isIt)).
Proof.
  destruct acc as [[A f ph ih sh p pot] i], acc' as [[A' f' ph' ih' sh' p' pot'] i'].
  unfold variablesOf. simpl. intros <- <- <- Hv. injection Hv as <- <-.
  unfold assembleIntersection.
  destruct (neighbor isIt); [destruct first; repeat split|].
  destruct (boundary isIt); [|repeat split].
  unfold assembleBoundary.
  destruct (isDirichlet (boundaryTypes isIt)); [repeat split|].
  destruct (isNeumann (boundaryTypes isIt)); repeat split.
Qed.

Lemma assembleIntersections_sys first eI dI vI faces : forall acc acc',
  snd acc = snd acc' ->
  A_ (fst acc) = A_ (fst acc') -> f_ (fst acc) = f_ (fst acc') ->
  variablesOf (fst acc) = variablesOf (fst acc') ->
  A_ (fst (fold_left (assembleIntersection first eI dI vI) faces acc))
    = A_ (fst (fold_left (assembleIntersection first eI dI vI) faces acc')) /\
  f_ (fst (fold_left (assembleIntersection first eI dI vI) faces acc))
    = f_ (fst (fold_left (assembleIntersection first eI dI vI) faces acc')) /\
  variablesOf (fst (fold_left (assembleIntersection first eI dI vI) faces acc))
    = variablesOf (fst (fold_left (assembleIntersection first eI dI vI) faces acc')).
Proof.
  induction faces as [|isIt faces IH]; intros acc acc' Hi HA Hf Hv; simpl.
  - repeat split; assumption.
  - destruct (assembleIntersection_sys first eI dI vI acc acc' isIt Hi HA Hf Hv)
      as (Hi1 & HA1 & Hf1 & Hv1).
    apply IH; assumption.
Qed.

Lemma assemble_fold_sys first grid : forall st st',
  A_ st = A_ st' -> f_ st = f_ st' -> variablesOf st = variablesOf st' ->
  A_ (fold_left (assembleElement first) grid st)
    = A_ (fold_left (assembleElement first) grid st') /\
  f_ (fold_left (assembleElement first) grid st)
    = f_ (fold_left (assembleElement first) grid st') /\
  variablesOf (fold_left (assembleElement first) grid st)
    = variablesOf (fold_left (assembleElement first) grid st').
Proof.
  induction grid as [|e grid IH]; intros st st' HA Hf Hv; simpl.
  - repeat split; assumption.
  - apply IH; unfold assembleElement; cbv zeta;
      set (eI := inside e); set (dI := Fluid_density _ _); set (vI := Fluid_viscosity _ _);
      (destruct (assembleIntersections_sys first eI dI vI (intersections e)
                  (f_store (index eI) (source eI / dI * volume eI) st, 0%nat)
                  (f_store (index eI) (source eI / dI * volume eI) st', 0%nat))
        as (HA1 & Hf1 & Hv1);
       [reflexivity|exact HA|simpl; rewrite Hf; reflexivity|exact Hv|assumption]).
Qed.

(** [assemble] does not look at the fixed pressure. *)
Lemma assemble_ignores_hard first grid st v k :
  A_ (assemble first grid (setPressureHard v k st)) = A_ (assemble first grid st) /\
  f_ (assemble first grid (setPressureHard v k st)) = f_ (assemble first grid st).
Proof.
  unfold assemble.
  destruct (assemble_fold_sys first grid
              (set_f (fun _ => 0) (set_A (fun _ _ => 0) (setPressureHard v k st)))
              (set_f (fun _ => 0) (set_A (fun _ _ => 0) st)))
    as (HA & Hf & _); [reflexivity|reflexivity|reflexivity|].
  split; assumption.
Qed.

(** The gravity term an interior face adds to the right-hand side, by
    the sign of the potential of the face. *)
Lemma assembleInterior_gravity_term first eI dI vI i isIt st :
  let q := fst (interiorPotential first eI dI i isIt st) in
  let g := dot (interiorPermeability eI vI isIt) gravity * faceVolume isIt in
  (q == 0 ->
   f_ (assembleInterior first eI dI vI i isIt st) (index eI)
   == f_ st (index eI) - (dI + densityOutside isIt) / 2 * g) /\
  (0 < q ->
   f_ (assembleInterior first eI dI vI i isIt st) (index eI)
   == f_ st (index eI) - dI * g) /\
  (q < 0 ->
   f_ (assembleInterior first eI dI vI i isIt st) (index eI)
   == f_ st (index eI) - densityOutside isIt * g).
Proof.
  cbv zeta. rewrite assembleInterior_f. rewrite decide_True by reflexivity.
  unfold interiorDensity.
  fold (densityOutside isIt).
  split; [|split]; intros Hq.
  - rewrite (upwindDensity_tie _ dI (densityOutside isIt) Hq). ring.
  - rewrite (upwindDensity_pos _ dI (densityOutside isIt) _ Hq). ring.
  - rewrite (upwindDensity_neg _ dI (densityOutside isIt) _ Hq). ring.
Qed.

Lemma faceRhs_interior first st eI i isIt :
  neighbor isIt = true ->
  let q := fst (interiorPotential first eI (densityOf eI) i isIt st) in
  let g := dot (interiorPermeability eI (viscosityOf eI) isIt) gravity * faceVolume isIt in
  (q == 0 ->
   faceRhs first st eI i isIt == - ((densityOf eI + densityOutside isIt) / 2 * g)) /\
  (0 < q -> faceRhs first st eI i isIt == - (densityOf eI * g)) /\
  (q < 0 -> faceRhs first st eI i isIt == - (densityOutside isIt * g)).
Proof.
  intros Hn. cbv zeta. unfold faceRhs. rewrite Hn. unfold interiorDensity.
  fold (densityOutside isIt).
  split; [|split]; intros Hq.
  - rewrite (upwindDensity_tie _ (densityOf eI) (densityOutside isIt) Hq). ring.
  - rewrite (upwindDensity_pos _ (densityOf eI) (densityOutside isIt) _ Hq). ring.
  - rewrite (upwindDensity_neg _ (densityOf eI) (densityOutside isIt) _ Hq). ring.
Qed.

(** C1, amended.  A Dirichlet face enters the system through its flux.
    After assembly, on a grid whose cells are numbered without
    repetition, the diagonal entry of a cell is the sum of the
    transmissibilities of its interior and Dirichlet faces, the entry
    in another column is minus the transmissibility of the interior
    face that leads there, and the right-hand side is the source term
    plus what the faces add: a Dirichlet face adds its transmissibility
    to the diagonal and its transmissibility times the prescribed
    pressure, less the gravity term, to the right-hand side, and
    changes no other entry, so the off-diagonal entries written by the
    interior faces stay in the row.  The identity row is written in
    [solve] only, for the one degree of freedom fixed by
    [setPressureHard]: the assembly does not look at the fixed
    pressure, without a fixed pressure [solve] hands the assembled
    system to the solver as it is, and with one it replaces that one
    row, after assembly and whatever the assembly put there, and
    leaves the other rows as assembled. *)
Theorem dirichlet_flux_and_hard_row :
  (forall eI densityI viscosityI isIt st,
     isDirichlet (boundaryTypes isIt) = true ->
     let st' := assembleBoundary eI densityI viscosityI isIt st in
     A_ st' (index eI) (index eI)
       = A_ st (index eI) (index eI) + boundaryEntry eI viscosityI isIt /\
     (forall r c, ~ (r = index eI /\ c = index eI) -> A_ st' r c = A_ st r c) /\
     f_ st' (index eI)
       = f_ st (index eI) + boundaryEntry eI viscosityI isIt * dirichlet isIt
         - boundaryRightEntry eI densityI viscosityI isIt /\
     (forall r, r <> index eI -> f_ st' r = f_ st r)) /\
  (forall first grid st e,
     NoDup (map (fun e => index (inside e)) grid) ->
     e ∈ grid ->
     (noSelfNeighbour (inside e) (intersections e) ->
      A_ (assemble first grid st) (index (inside e)) (index (inside e))
      == faceSum (fun _ => faceDiagonal (inside e)) 0 (intersections e)) /\
     (forall c, c <> index (inside e) ->
        A_ (assemble first grid st) (index (inside e)) c
        = offDiagonal (inside e) (intersections e) c 0) /\
     f_ (assemble first grid st) (index (inside e))
     == source (inside e) / densityOf (inside e) * volume (inside e)
        + faceSum (faceRhs first st (inside e)) 0 (intersections e)) /\
  (forall first st eI isIndex isIt,
     neighbor isIt = false -> boundary isIt = true ->
     isDirichlet (boundaryTypes isIt) = true ->
     faceDiagonal eI isIt = boundaryEntry eI (viscosityOf eI) isIt /\
     faceRhs first st eI isIndex isIt
     = boundaryEntry eI (viscosityOf eI) isIt * dirichlet isIt
       - boundaryRightEntry eI (densityOf eI) (viscosityOf eI) isIt) /\
  (forall eI faces c a0,
     offDiagonal eI faces c a0
     = offDiagonal eI (filter (fun isIt => neighbor isIt = true) faces) c a0) /\
  (forall first grid st v k,
     A_ (assemble first grid (setPressureHard v k st)) = A_ (assemble first grid st) /\
     f_ (assemble first grid (setPressureHard v k st)) = f_ (assemble first grid st)) /\
  (forall first grid st,
     setPressHard_ st = false ->
     solveSystem (assemble first grid st) = assemble first grid st) /\
  (forall first grid st,
     setPressHard_ st = true ->
     let k := idxOfScalar (idxPressHard_ st) in
     let st' := solveSystem (assemble first grid st) in
     (forall c, A_ st' k c = identityRow k c) /\
     f_ st' k = pressHard_ st /\
     (forall r, r <> k ->
        A_ st' r = A_ (assemble first grid st) r /\
        f_ st' r = f_ (assemble first grid st) r)).
Proof.
  split; [|split; [|split; [|split; [|split; [|split]]]]].
  - intros eI densityI viscosityI isIt st Hd st'. subst st'.
    unfold assembleBoundary. rewrite Hd.
    unfold A_store, f_store, set_A, set_f, insert, fn_insert; simpl.
    repeat split.
    + rewrite !decide_True by reflexivity. reflexivity.
    + intros r c Hrc. repeat case_decide; subst; tauto.
    + rewrite !decide_True by reflexivity. reflexivity.
    + intros r Hr. rewrite !decide_False by congruence. reflexivity.
  - intros first grid st e Hnd He. apply assemble_row; assumption.
  - intros first st eI isIndex isIt Hn Hb Hd. unfold faceDiagonal, faceRhs.
    rewrite Hn, Hb, Hd. split; reflexivity.
  - intros eI faces c a0. apply offDiagonal_interior.
  - intros first grid st v k. apply assemble_ignores_hard.
  - intros first grid st Hset.
    pose proof (assemble_hard first grid st) as Hh.
    unfold hardConstraint in Hh. injection Hh as _ _ Hs.
    unfold solveSystem. rewrite Hs, Hset. reflexivity.
  - intros first grid st Hset k st'.
    pose proof (assemble_hard first grid st) as Hh.
    unfold hardConstraint in Hh. injection Hh as Hp Hi Hs.
    destruct (solveSystem_hard (assemble first grid st)) as (HA & Hf & Hrest);
      [congruence|].
    subst k st'. rewrite <- Hi, <- Hp. split; [exact HA|split; [exact Hf|exact Hrest]].
Qed.

(** *** Two faces to the same neighbour *)

(** X15.  The diagonal entry is accumulated ([+=]) but the off-diagonal
    entry is assigned ([=]): when a cell meets the same neighbour on two
    faces, the off-diagonal entry holds the transmissibility of the
    second face only while the diagonal holds both, so the row no longer
    sums to what it summed to before; the transmissibility of the first
    face is left over. *)
Theorem assembleInterior_duplicate_neighbour n first eI dI vI i1 i2 is1 is2 st :
  index (outside is1) = index (outside is2) ->
  index (outside is1) <> index eI ->
  (index eI < n)%nat ->
  (index (outside is1) < n)%nat ->
  let st' := assembleInterior first eI dI vI i2 is2
               (assembleInterior first eI dI vI i1 is1 st) in
  A_ st' (index eI) (index (outside is1)) = - interiorEntry eI vI is2 /\
  A_ st' (index eI) (index eI)
    = A_ st (index eI) (index eI) + interiorEntry eI vI is1 + interiorEntry eI vI is2 /\
  rowDot n (A_ st' (index eI)) (fun _ => 1)
    == rowDot n (A_ st (index eI)) (fun _ => 1)
       + interiorEntry eI vI is1 - A_ st (index eI) (index (outside is1)).
Proof.
  intros HJ Hne HI HJn st'. subst st'.
  set (I := index eI) in *. set (J := index (outside is1)) in *.
  set (e1 := interiorEntry eI vI is1). set (e2 := interiorEntry eI vI is2).
  assert (HA : forall c,
    A_ (assembleInterior first eI dI vI i2 is2 (assembleInterior first eI dI vI i1 is1 st)) I c
    = (<[J := - e2]> (<[I := A_ st I I + e1 + e2]> (A_ st I))) c).
  { intros c. rewrite !assembleInterior_A. fold I e1 e2. rewrite <- HJ. fold J.
    unfold insert, fn_insert.
    repeat case_decide; subst; try congruence; reflexivity. }
  split; [|split].
  - rewrite HA. unfold insert, fn_insert. rewrite decide_True by reflexivity. reflexivity.
  - rewrite HA. unfold insert, fn_insert.
    rewrite decide_False by congruence. rewrite decide_True by reflexivity. reflexivity.
  - rewrite (rowDot_ext n _ (<[J := - e2]> (<[I := A_ st I I + e1 + e2]> (A_ st I)))).
    + rewrite !rowDot_insert by assumption.
      unfold insert at 1, fn_insert at 1. rewrite decide_False by congruence. ring.
    + intros c. rewrite HA. reflexivity.
Qed.

(** *** The transmissibility seen from the two sides of a face *)

Lemma dot_vdivs u s v : dot (vdivs u s) v == dot u v / s.
Proof.
  unfold dot, vdivs. revert v.
  induction u as [|a u IH]; intros [|b v]; simpl; try (unfold Qdiv; ring).
  rewrite IH. unfold Qdiv. ring.
Qed.

Lemma dot_mv_vopp_vopp M x : dot (mv M (vopp x)) (vopp x) == dot (mv M x) x.
Proof. rewrite dot_mv_vopp, dot_vopp_r. ring. Qed.

(** X17.  Each side divides the mean permeability by the viscosity of
    its own cell.  On a conforming face (opposite normals, one area, a
    symmetric mean and a symmetric distance) the transmissibilities the
    two cells compute therefore differ by the ratio of their
    viscosities, and agree when the viscosities agree; only then are
    the two off-diagonal entries of the face equal. *)
Theorem interiorEntry_two_sided eI eJ vI vJ isI isJ :
  outside isI = eJ ->
  outside isJ = eI ->
  centerUnitOuterNormal isJ = vopp (centerUnitOuterNormal isI) ->
  faceVolume isJ == faceVolume isI ->
  meanK2 (intrinsicPermeability eJ) (intrinsicPermeability eI)
    = meanK2 (intrinsicPermeability eI) (intrinsicPermeability eJ) ->
  two_norm (vsub (center eI) (center eJ)) == two_norm (vsub (center eJ) (center eI)) ->
  ~ vI == 0 ->
  ~ vJ == 0 ->
  interiorEntry eJ vJ isJ == interiorEntry eI vI isI * (vI / vJ) /\
  (vI == vJ -> interiorEntry eJ vJ isJ == interiorEntry eI vI isI).
Proof.
  intros HoI HoJ Hn Harea HK Hdist HvI HvJ.
  assert (Hmain : interiorEntry eJ vJ isJ == interiorEntry eI vI isI * (vI / vJ)).
  { unfold interiorEntry, interiorPermeability. cbv zeta.
    rewrite HoI, HoJ, Hn, HK, Harea, Hdist.
    rewrite !dot_vdivs, dot_mv_vopp_vopp. unfold Qdiv.
    set (X := dot _ _). set (d := / two_norm _).
    assert (H1 : vI * / vI == 1) by (apply Qmult_inv_r; exact HvI).
    transitivity (X * / vJ * d * faceVolume isI * (vI * / vI)); [rewrite H1; ring|ring]. }
  split; [exact Hmain|].
  intros Heq.
  assert (H : vI / vJ == 1) by (unfold Qdiv; rewrite Heq; apply Qmult_inv_r; exact HvJ).
  rewrite Hmain, H. ring.
Qed.

End Assembler.

(** *** A concrete grid

    Two unit cells on a line, with centres at 1/2 and 3/2; unit
    permeability, density and viscosity; no gravity, no sources. *)
Definition exDensity (temperature pressure : Q) : Q := 1.
Definition exViscosity (temperature pressure : Q) : Q := 1.

(** The harmonic mean of the permeabilities, entry by entry. *)
Definition harmonicMean (x y : Q) : Q :=
  if Qlt_le_dec 0 (x * y) then 2 * x * y / (x + y) else 0.
Definition exMeanK2 (K1 K2 : FieldMatrix) : FieldMatrix :=
  zip_with (zip_with harmonicMean) K1 K2.
Definition exMeanK1 (K : FieldMatrix) : FieldMatrix := K.

(** The Euclidean norm in one dimension. *)
Definition exTwoNorm (v : FieldVector) : Q :=
  match v with
  | [x] => Qabs x
  | _ => 0
  end.

Definition exGravity : FieldVector := [0].

Definition exCell (idx : nat) (c : Q) : Entity := MkEntity idx [c] 1 0 0 0 [[1]].
Definition exCell0 : Entity := exCell 0%nat (1#2).
Definition exCell1 : Entity := exCell 1%nat (3#2).

Definition exInterior (n c : Q) (nb : Entity) : Intersection :=
  MkIntersection [n] 1 [c] true false nb (MkBoundaryTypes false false) 0 0.
Definition exDirichlet (n c : Q) (self : Entity) (p : Q) : Intersection :=
  MkIntersection [n] 1 [c] false true self (MkBoundaryTypes true false) p 0.
Definition exNeumann (n c : Q) (self : Entity) (q : Q) : Intersection :=
  MkIntersection [n] 1 [c] false true self (MkBoundaryTypes false true) 0 q.

(** Pressure 1 prescribed on the left end, no flow through the right end. *)
Definition exGridDirichlet : GridView :=
  [ MkElement exCell0
      [exDirichlet (-1) 0 exCell0 1; exInterior 1 1 exCell1];
    MkElement exCell1
      [exInterior (-1) 1 exCell0; exNeumann 1 2 exCell1 0] ].

(** No flow through either end. *)
Definition exGridNeumann : GridView :=
  [ MkElement exCell0
      [exNeumann (-1) 0 exCell0 0; exInterior 1 1 exCell1];
    MkElement exCell1
      [exInterior (-1) 1 exCell0; exNeumann 1 2 exCell1 0] ].

(** The assembler as its constructor leaves it. *)
Definition exState : FVPressure1P :=
  MkFV (fun _ _ => 0) (fun _ => 0) 0 0 false (fun _ => 0) (fun _ _ => 0).

Definition exAssemble (first : bool) (grid : GridView) (st : FVPressure1P) : FVPressure1P :=
  assemble exDensity exViscosity exMeanK2 exMeanK1 exTwoNorm exGravity first grid st.

(** The row of the cell with the Dirichlet face, after assembly. *)
Example exDirichlet_row :
  A_ (exAssemble true exGridDirichlet exState) 0%nat 0%nat == 3 /\
  A_ (exAssemble true exGridDirichlet exState) 0%nat 1%nat == -1 /\
  f_ (exAssemble true exGridDirichlet exState) 0%nat == 2.
Proof. repeat split; vm_compute; reflexivity. Qed.

(** C1 fails on the two-cell grid: the row of cell 0, which has a
    Dirichlet face, is not the identity row. *)
Lemma dirichlet_rows_not_identity :
  ~ dirichletRowsAreIdentity exGridDirichlet (exAssemble true exGridDirichlet exState).
Proof.
  intros H.
  destruct (H (MkElement exCell0
                 [exDirichlet (-1) 0 exCell0 1; exInterior 1 1 exCell1])
              (exDirichlet (-1) 0 exCell0 1)) as [HA _];
    try reflexivity.
  - apply list_elem_of_here.
  - apply list_elem_of_here.
  - specialize (HA 1%nat). vm_compute in HA. discriminate HA.
Qed.

(** The cell of [exGridDirichlet] with the Dirichlet face. *)
Definition exDirichletCell0 : Element :=
  MkElement exCell0 [exDirichlet (-1) 0 exCell0 1; exInterior 1 1 exCell1].

Lemma exGridDirichlet_nodup : NoDup (map (fun e => index (inside e)) exGridDirichlet).
Proof. apply (bool_decide_unpack _). vm_compute. exact I. Qed.

(** The Dirichlet face of cell 0 adds its transmissibility 2 to the
    diagonal entry and 2 times the prescribed pressure to the right-hand
    side: after assembly the diagonal entry of cell 0 is 2 + 1, the
    entry towards cell 1 is -1 and the right-hand side is 2.  With the
    pressure of cell 0 fixed, row 0 of the system handed to the solver
    is the identity row and row 1 is as assembled. *)
Lemma dirichlet_flux_and_hard_row_witness :
  (A_ (assembleBoundary exMeanK1 exTwoNorm exGravity exCell0 1 1
         (exDirichlet (-1) 0 exCell0 1) exState) 0%nat 0%nat
   = 0 + boundaryEntry exMeanK1 exTwoNorm exCell0 1 (exDirichlet (-1) 0 exCell0 1) /\
   boundaryEntry exMeanK1 exTwoNorm exCell0 1 (exDirichlet (-1) 0 exCell0 1) == 2) /\
  (A_ (exAssemble true exGridDirichlet exState) 0%nat 0%nat
   == faceSum (fun _ => faceDiagonal exViscosity exMeanK2 exMeanK1 exTwoNorm exCell0)
              0 (intersections exDirichletCell0) /\
   faceSum (fun _ => faceDiagonal exViscosity exMeanK2 exMeanK1 exTwoNorm exCell0)
           0 (intersections exDirichletCell0) == 3 /\
   A_ (exAssemble true exGridDirichlet exState) 0%nat 1%nat
   = offDiagonal exViscosity exMeanK2 exTwoNorm exCell0
                 (intersections exDirichletCell0) 1 0 /\
   f_ (exAssemble true exGridDirichlet exState) 0%nat
   == source exCell0 / densityOf exDensity exCell0 * volume exCell0
      + faceSum (faceRhs exDensity exViscosity exMeanK2 exMeanK1 exTwoNorm exGravity
                         true exState exCell0)
                0 (intersections exDirichletCell0) /\
   source exCell0 / densityOf exDensity exCell0 * volume exCell0
   + faceSum (faceRhs exDensity exViscosity exMeanK2 exMeanK1 exTwoNorm exGravity
                      true exState exCell0)
             0 (intersections exDirichletCell0) == 2) /\
  ((forall c,
      A_ (solveSystem (exAssemble true exGridDirichlet (setPressureHard 5 0%nat exState)))
         0%nat c
      = identityRow 0 c) /\
   f_ (solveSystem (exAssemble true exGridDirichlet (setPressureHard 5 0%nat exState))) 0%nat
   = 5 /\
   A_ (solveSystem (exAssemble true exGridDirichlet (setPressureHard 5 0%nat exState))) 1%nat
   = A_ (exAssemble true exGridDirichlet (setPressureHard 5 0%nat exState)) 1%nat) /\
  solveSystem (exAssemble true exGridDirichlet exState)
  = exAssemble true exGridDirichlet exState.
Proof.
  pose proof (dirichlet_flux_and_hard_row exDensity exViscosity exMeanK2 exMeanK1
                exTwoNorm exGravity) as (Hface & Hrow & _ & _ & _ & Hfree & Hhard).
  split; [split|split; [|split]].
  - apply (Hface exCell0 1 1 (exDirichlet (-1) 0 exCell0 1) exState). reflexivity.
  - vm_compute. reflexivity.
  - destruct (Hrow true exGridDirichlet exState exDirichletCell0) as (Hd & Ho & Hf).
    + exact exGridDirichlet_nodup.
    + apply list_elem_of_here.
    + split; [|split; [|split; [|split]]].
      * apply Hd. intros isIt Hin Hn.
        simpl in Hin. repeat (apply elem_of_cons in Hin as [->|Hin]);
          [discriminate Hn|simpl; lia|inversion Hin].
      * vm_compute. reflexivity.
      * apply (Ho 1%nat). simpl. lia.
      * exact Hf.
      * vm_compute. reflexivity.
  - destruct (Hhard true exGridDirichlet (setPressureHard 5 0%nat exState) eq_refl)
      as (HA & Hf & Hrest).
    split; [exact HA|split; [exact Hf|]].
    apply (Hrest 1%nat). vm_compute. lia.
  - apply (Hfree true exGridDirichlet exState). reflexivity.
Defined.

(** The two-cell grid without Dirichlet faces is a connected
    pure-Neumann grid. *)
Lemma exGridNeumann_pure :
  pureNeumannGrid exViscosity exMeanK2 exTwoNorm exGravity 2 exGridNeumann.
Proof.
  constructor.
  - apply (bool_decide_unpack _). vm_compute. exact I.
  - intros [|[|r]] Hr; [| |lia]; eexists.
    + split; [apply list_elem_of_here|reflexivity].
    + split; [apply list_elem_of_further, list_elem_of_here|reflexivity].
  - intros e He. repeat (apply elem_of_cons in He as [->|He]); simpl; [lia|lia|inversion He].
  - intros e He. repeat (apply elem_of_cons in He as [->|He]); simpl;
      [reflexivity|reflexivity|inversion He].
  - intros e isIt He HisIt.
    repeat (apply elem_of_cons in He as [->|He]); [| |inversion He];
      simpl in HisIt;
      repeat (apply elem_of_cons in HisIt as [->|HisIt]); try (inversion HisIt; fail);
      unfold faceOK; simpl; repeat split; try lia; try discriminate;
      vm_compute; reflexivity.
  - intros e He. repeat (apply elem_of_cons in He as [->|He]); [| |inversion He];
      apply (bool_decide_unpack _); vm_compute; exact I.
Qed.

Lemma exGridNeumann_connected r :
  (r < 2)%nat -> reaches (gridEdges exViscosity exMeanK2 exTwoNorm exGridNeumann) 0 r.
Proof.
  destruct r as [|[|r]]; intros Hr; [constructor| |lia].
  apply (reaches_step _ 0%nat 1%nat 0%nat
           (interiorEntry exMeanK2 exTwoNorm exCell1 (exViscosity 0 0)
                          (exInterior (-1) 1 exCell0)));
    [apply list_elem_of_here|constructor].
Qed.

(** C5 fails on the two-cell grid without Dirichlet faces as soon as
    gravity acts along the line: with the pressure of cell 0 fixed to
    5, the system handed to the solver has the rows (1, 0) and (-1, 1)
    and the right-hand side (5, 1); the vector (5, 6) solves it and is
    not uniform. *)
Lemma hard_pressure_not_uniform :
  ~ hardPressureGivesUniform exDensity exViscosity exMeanK2 exMeanK1 exTwoNorm [1]
      2 exGridNeumann.
Proof.
  intros H.
  assert (Hpn : pureNeumannProblem exGridNeumann).
  { intros e isIt He HisIt Hn.
    repeat (apply elem_of_cons in He as [->|He]); [| |inversion He];
      simpl in HisIt;
      repeat (apply elem_of_cons in HisIt as [->|HisIt]);
      try (inversion HisIt; fail); try discriminate Hn; repeat split. }
  specialize (H Hpn true exState 5 0%nat (fun r => if decide (r = 0%nat) then 5 else 6)).
  assert (Hx : (fun r => if decide (r = 0%nat) then 5 else 6) 1%nat == 5).
  { apply H; [lia| |lia].
    intros [|[|r]] Hr; [vm_compute; reflexivity|vm_compute; reflexivity|lia]. }
  vm_compute in Hx. discriminate Hx.
Qed.

(** With the pressure fixed to 5 in cell 0, every solution of the system
    handed to the solver is 5 in both cells. *)
Lemma setPressureHard_solve_witness :
  f_ (solveSystem (exAssemble true exGridNeumann (setPressureHard 5 0%nat exState))) 0%nat = 5 /\
  forall x,
    solves 2%nat (A_ (solveSystem (exAssemble true exGridNeumann (setPressureHard 5 0%nat exState))))
             x
             (f_ (solveSystem (exAssemble true exGridNeumann (setPressureHard 5 0%nat exState)))) ->
    x 0%nat == 5 /\ x 1%nat == 5.
Proof.
  pose proof (setPressureHard_solve exDensity exViscosity exMeanK2 exMeanK1 exTwoNorm
                exGravity (fun _ x _ => x) true exGridNeumann exState 5 0%nat)
    as (_ & Hf & _ & _ & _ & _ & _ & Huniq & _).
  split; [exact Hf|].
  intros x Hsol.
  split; apply (Huniq 2%nat x); try lia;
    solve [exact exGridNeumann_pure | exact exGridNeumann_connected | exact Hsol].
Defined.

(** *** The extras on the concrete grid *)

Definition exNeumannCell0 : Element :=
  MkElement exCell0 [exNeumann (-1) 0 exCell0 0; exInterior 1 1 exCell1].

Lemma exGridNeumann_nodup : NoDup (map (fun e => index (inside e)) exGridNeumann).
Proof. apply (bool_decide_unpack _). vm_compute. exact I. Qed.

Lemma initializeMatrix_fills_rows_witness :
  indices (initializeMatrix exGridNeumann) (index (inside exNeumannCell0))
    = cellIndices exNeumannCell0 /\
  rowsize (initializeMatrix exGridNeumann) (index (inside exNeumannCell0))
    = length (indices (initializeMatrix exGridNeumann) (index (inside exNeumannCell0))) /\
  rowsize (initializeMatrix exGridNeumann) (index (inside exNeumannCell0))
    = S (length (neighbourIndices (intersections exNeumannCell0))).
Proof.
  apply (proj2 (initializeMatrix_fills_rows exGridNeumann) exNeumannCell0).
  - exact exGridNeumann_nodup.
  - apply list_elem_of_here.
Defined.

Lemma assemble_within_pattern_witness :
  A_ (exAssemble true exGridNeumann exState) 0%nat 5%nat = 0.
Proof.
  apply (assemble_within_pattern exDensity exViscosity exMeanK2 exMeanK1 exTwoNorm
           exGravity true exGridNeumann exState 0 5).
  apply (bool_decide_unpack _). vm_compute. exact I.
Defined.

(** Pressures 3 and 1 in the two cells. *)
Definition exStatePressure : FVPressure1P :=
  set_pressure (fun r => if decide (r = 0%nat) then 3 else 1) exState.

Lemma assemble_stores_potentials_witness :
  variables_pressure (exAssemble false exGridNeumann exStatePressure)
    = variables_pressure exStatePressure /\
  (neighbor (exInterior 1 1 exCell1) = true ->
   variables_potential (exAssemble false exGridNeumann exStatePressure)
     (index (inside exNeumannCell0)) 1%nat
   = (variables_pressure exStatePressure (index (inside exNeumannCell0))
      - variables_pressure exStatePressure (index (outside (exInterior 1 1 exCell1))))
     / exTwoNorm (vsub (center (outside (exInterior 1 1 exCell1)))
                       (center (inside exNeumannCell0)))
     + upwindDensity (variables_potential exStatePressure (index (inside exNeumannCell0)) 1%nat)
         (densityOf exDensity (inside exNeumannCell0))
         (densityOutside exDensity (exInterior 1 1 exCell1))
         ((1#2) * (densityOf exDensity (inside exNeumannCell0)
                   + densityOutside exDensity (exInterior 1 1 exCell1)))
       * dot (centerUnitOuterNormal (exInterior 1 1 exCell1)) exGravity) /\
  (neighbor (exInterior 1 1 exCell1) = false ->
   variables_potential (exAssemble false exGridNeumann exStatePressure)
     (index (inside exNeumannCell0)) 1%nat
   = variables_potential exStatePressure (index (inside exNeumannCell0)) 1%nat).
Proof.
  apply (assemble_stores_potentials exDensity exViscosity exMeanK2 exMeanK1 exTwoNorm
           exGravity exGridNeumann exStatePressure exNeumannCell0 1
           (exInterior 1 1 exCell1)).
  - exact exGridNeumann_nodup.
  - apply list_elem_of_here.
  - reflexivity.
Defined.

Lemma assembleInterior_duplicate_neighbour_witness :
  A_ (assembleInterior exDensity exMeanK2 exTwoNorm exGravity true exCell0 1 1 1
        (exInterior 1 1 exCell1)
        (assembleInterior exDensity exMeanK2 exTwoNorm exGravity true exCell0 1 1 0
           (exInterior 1 1 exCell1) exState)) 0%nat 1%nat
    = - interiorEntry exMeanK2 exTwoNorm exCell0 1 (exInterior 1 1 exCell1) /\
  A_ (assembleInterior exDensity exMeanK2 exTwoNorm exGravity true exCell0 1 1 1
        (exInterior 1 1 exCell1)
        (assembleInterior exDensity exMeanK2 exTwoNorm exGravity true exCell0 1 1 0
           (exInterior 1 1 exCell1) exState)) 0%nat 0%nat
    = A_ exState 0%nat 0%nat
      + interiorEntry exMeanK2 exTwoNorm exCell0 1 (exInterior 1 1 exCell1)
      + interiorEntry exMeanK2 exTwoNorm exCell0 1 (exInterior 1 1 exCell1) /\
  rowDot 2
    (A_ (assembleInterior exDensity exMeanK2 exTwoNorm exGravity true exCell0 1 1 1
           (exInterior 1 1 exCell1)
           (assembleInterior exDensity exMeanK2 exTwoNorm exGravity true exCell0 1 1 0
              (exInterior 1 1 exCell1) exState)) 0%nat) (fun _ => 1)
    == rowDot 2 (A_ exState 0%nat) (fun _ => 1)
       + interiorEntry exMeanK2 exTwoNorm exCell0 1 (exInterior 1 1 exCell1)
       - A_ exState 0%nat 1%nat.
Proof.
  apply (assembleInterior_duplicate_neighbour exDensity exMeanK2 exTwoNorm exGravity
           2 true exCell0 1 1 0 1 (exInterior 1 1 exCell1) (exInterior 1 1 exCell1) exState).
  - reflexivity.
  - simpl. lia.
  - simpl. lia.
  - simpl. lia.
Defined.

Lemma interiorEntry_two_sided_witness :
  interiorEntry exMeanK2 exTwoNorm exCell1 2 (exInterior (-1) 1 exCell0)
    == interiorEntry exMeanK2 exTwoNorm exCell0 1 (exInterior 1 1 exCell1) * (1 / 2) /\
  (1 == 2 ->
   interiorEntry exMeanK2 exTwoNorm exCell1 2 (exInterior (-1) 1 exCell0)
     == interiorEntry exMeanK2 exTwoNorm exCell0 1 (exInterior 1 1 exCell1)).
Proof.
  apply (interiorEntry_two_sided exMeanK2 exTwoNorm exCell0 exCell1 1 2
           (exInterior 1 1 exCell1) (exInterior (-1) 1 exCell0)).
  - reflexivity.
  - reflexivity.
  - reflexivity.
  - reflexivity.
  - reflexivity.
  - vm_compute. reflexivity.
  - intros H. vm_compute in H. discriminate H.
  - intros H. vm_compute in H. discriminate H.
Defined.

End FVPressure.

(* ===================================================================== *)
(** ** Ties of the upwind choice, in the assembler and in [computeFlux] *)
(* ===================================================================== *)

Module UpwindTie.
Import LinAlg.
Local Open Scope Q_scope.

Section Tie.

(** The parameters of the local residual, with the upwind rule. *)
Variables contiEqIdx transEqIdx : nat.
Variable upwindAlpha : Q.
Variables upstreamIdx downstreamIdx : OnePTwoC.FluxVariables -> Q -> nat.
Variable curVolVars_ : nat -> OnePTwoC.VolumeVariables.

Hypothesis upwind_pos : forall fv q, 0 < q ->
  upstreamIdx fv q = OnePTwoC.i (OnePTwoC.face fv) /\
  downstreamIdx fv q = OnePTwoC.j (OnePTwoC.face fv).
Hypothesis upwind_neg : forall fv q, q < 0 ->
  upstreamIdx fv q = OnePTwoC.j (OnePTwoC.face fv) /\
  downstreamIdx fv q = OnePTwoC.i (OnePTwoC.face fv).
Hypothesis upwind_tie : forall fv q, q == 0 ->
  (upstreamIdx fv q = OnePTwoC.i (OnePTwoC.face fv) /\
   downstreamIdx fv q = OnePTwoC.j (OnePTwoC.face fv)) \/
  (upstreamIdx fv q = OnePTwoC.j (OnePTwoC.face fv) /\
   downstreamIdx fv q = OnePTwoC.i (OnePTwoC.face fv)).

(** The parameters of the assembler that the potential depends on. *)
Variable Fluid_density : Q -> Q -> Q.
Variable two_norm : FieldVector -> Q.
Variable gravity : FieldVector.

(** The remaining parameters of the assembler. *)
Variable Fluid_viscosity : Q -> Q -> Q.
Variable meanK2 : FieldMatrix -> FieldMatrix -> FieldMatrix.
Variable meanK1 : FieldMatrix -> FieldMatrix.

Let computeFluxAt :=
  OnePTwoC.computeFluxAt contiEqIdx transEqIdx upwindAlpha upstreamIdx downstreamIdx
                         curVolVars_.
Let centralFluxAt := OnePTwoC.centralFluxAt contiEqIdx transEqIdx curVolVars_.
Let blendDeviation :=
  OnePTwoC.blendDeviation contiEqIdx transEqIdx upwindAlpha upstreamIdx downstreamIdx
                          curVolVars_.
Let mobilityDeviation :=
  OnePTwoC.mobilityDeviation upwindAlpha upstreamIdx downstreamIdx curVolVars_.
Let concentrationMobilityDeviation :=
  OnePTwoC.concentrationMobilityDeviation upwindAlpha upstreamIdx downstreamIdx curVolVars_.
Let assemble :=
  FVPressure.assemble Fluid_density Fluid_viscosity meanK2 meanK1 two_norm gravity.
Let assembleInterior := FVPressure.assembleInterior Fluid_density meanK2 two_norm gravity.
Let interiorPotential := FVPressure.interiorPotential Fluid_density two_norm gravity.
Let faceRhs :=
  FVPressure.faceRhs Fluid_density Fluid_viscosity meanK2 meanK1 two_norm gravity.

(** C3, amended.  In the assembler the upwind density is the density of
    the cell itself for a positive potential, that of the neighbour for
    a negative one and the arithmetic mean of the two at a potential of
    zero.  This density multiplies the gravity term that an interior
    face subtracts from the right-hand side of its cell: the term
    carries the mean density in the first pass and whenever the
    potential just computed is zero, and the density of one of the two
    cells otherwise; after assembly the right-hand side of a cell is
    its source term plus these face terms.  A stored potential of zero
    puts the mean density into the new potential.  [computeFlux] has no
    case of its own for a zero normal flux: its flux differs from the
    flux of the central scheme by the normal flux times the deviation of
    the upwind blend from the mean, so the two agree at a zero normal
    flux and the difference is bounded by a multiple of the normal
    flux. *)
Theorem tie_mean_density_central_flux :
  (forall potential densityI densityJ rhoMean,
     (0 < potential ->
      FVPressure.upwindDensity potential densityI densityJ rhoMean = densityI) /\
     (potential < 0 ->
      FVPressure.upwindDensity potential densityI densityJ rhoMean = densityJ) /\
     (potential == 0 ->
      FVPressure.upwindDensity potential densityI densityJ
                               ((1#2) * (densityI + densityJ))
      == (densityI + densityJ) / 2)) /\
  (forall eI densityI isIndex isIt st,
     FVPressure.interiorDensity Fluid_density two_norm gravity true eI densityI isIndex isIt st
       == (densityI + FVPressure.densityOutside Fluid_density isIt) / 2 /\
     (forall first,
        fst (FVPressure.interiorPotential Fluid_density two_norm gravity
               first eI densityI isIndex isIt st) == 0 ->
        FVPressure.interiorDensity Fluid_density two_norm gravity
          first eI densityI isIndex isIt st
        == (densityI + FVPressure.densityOutside Fluid_density isIt) / 2) /\
     (FVPressure.variables_potential st (FVPressure.index eI) isIndex == 0 ->
      fst (FVPressure.interiorPotential Fluid_density two_norm gravity
             false eI densityI isIndex isIt st)
      == (FVPressure.variables_pressure st (FVPressure.index eI)
          - FVPressure.variables_pressure st
              (FVPressure.index (FVPressure.outside isIt)))
         / two_norm (vsub (FVPressure.center (FVPressure.outside isIt))
                          (FVPressure.center eI))
         + (densityI + FVPressure.densityOutside Fluid_density isIt) / 2
           * dot (FVPressure.centerUnitOuterNormal isIt) gravity)) /\
  (forall fv eqIdx,
     computeFluxAt fv eqIdx - centralFluxAt fv eqIdx
     == - OnePTwoC.normalFlux fv * blendDeviation fv eqIdx) /\
  (forall fv eqIdx,
     OnePTwoC.normalFlux fv == 0 -> computeFluxAt fv eqIdx == centralFluxAt fv eqIdx) /\
  (forall fv eqIdx B,
     Qabs (mobilityDeviation fv) <= B ->
     Qabs (concentrationMobilityDeviation fv) <= B ->
     Qabs (computeFluxAt fv eqIdx - centralFluxAt fv eqIdx)
     <= 2 * B * Qabs (OnePTwoC.normalFlux fv)) /\
  (forall first eI densityI viscosityI isIndex isIt st,
     let q := fst (interiorPotential first eI densityI isIndex isIt st) in
     let g := dot (FVPressure.interiorPermeability meanK2 eI viscosityI isIt) gravity
              * FVPressure.faceVolume isIt in
     (q == 0 ->
      FVPressure.f_ (assembleInterior first eI densityI viscosityI isIndex isIt st)
                    (FVPressure.index eI)
      == FVPressure.f_ st (FVPressure.index eI)
         - (densityI + FVPressure.densityOutside Fluid_density isIt) / 2 * g) /\
     (0 < q ->
      FVPressure.f_ (assembleInterior first eI densityI viscosityI isIndex isIt st)
                    (FVPressure.index eI)
      == FVPressure.f_ st (FVPressure.index eI) - densityI * g) /\
     (q < 0 ->
      FVPressure.f_ (assembleInterior first eI densityI viscosityI isIndex isIt st)
                    (FVPressure.index eI)
      == FVPressure.f_ st (FVPressure.index eI)
         - FVPressure.densityOutside Fluid_density isIt * g)) /\
  (forall eI densityI viscosityI isIndex isIt st,
     FVPressure.f_ (assembleInterior true eI densityI viscosityI isIndex isIt st)
                   (FVPressure.index eI)
     == FVPressure.f_ st (FVPressure.index eI)
        - (densityI + FVPressure.densityOutside Fluid_density isIt) / 2
          * (dot (FVPressure.interiorPermeability meanK2 eI viscosityI isIt) gravity
             * FVPressure.faceVolume isIt)) /\
  (forall first grid st e,
     NoDup (map (fun e => FVPressure.index (FVPressure.inside e)) grid) ->
     e ∈ grid ->
     FVPressure.f_ (assemble first grid st) (FVPressure.index (FVPressure.inside e))
     == FVPressure.source (FVPressure.inside e)
        / FVPressure.densityOf Fluid_density (FVPressure.inside e)
        * FVPressure.volume (FVPressure.inside e)
        + FVPressure.faceSum (faceRhs first st (FVPressure.inside e)) 0
                             (FVPressure.intersections e)) /\
  (forall first st eI isIndex isIt,
     FVPressure.neighbor isIt = true ->
     let q := fst (interiorPotential first eI (FVPressure.densityOf Fluid_density eI)
                                     isIndex isIt st) in
     let g := dot (FVPressure.interiorPermeability meanK2 eI
                     (FVPressure.viscosityOf Fluid_viscosity eI) isIt) gravity
              * FVPressure.faceVolume isIt in
     (q == 0 ->
      faceRhs first st eI isIndex isIt
      == - ((FVPressure.densityOf Fluid_density eI
             + FVPressure.densityOutside Fluid_density isIt) / 2 * g)) /\
     (0 < q ->
      faceRhs first st eI isIndex isIt == - (FVPressure.densityOf Fluid_density eI * g)) /\
     (q < 0 ->
      faceRhs first st eI isIndex isIt
      == - (FVPressure.densityOutside Fluid_density isIt * g))).
Proof.
  assert (Hdev : forall fv eqIdx,
     computeFluxAt fv eqIdx - centralFluxAt fv eqIdx
     == - OnePTwoC.normalFlux fv * blendDeviation fv eqIdx).
  { intros fv eqIdx.
    apply (OnePTwoC.computeFluxAt_minus_central contiEqIdx transEqIdx upwindAlpha
             upstreamIdx downstreamIdx curVolVars_ upwind_pos upwind_neg upwind_tie). }
  split; [|split; [|split; [|split; [|split; [|split; [|split; [|split]]]]]]].
  - intros potential densityI densityJ rhoMean. split; [|split].
    + apply FVPressure.upwindDensity_pos.
    + apply FVPressure.upwindDensity_neg.
    + apply FVPressure.upwindDensity_tie.
  - intros eI densityI isIndex isIt st. apply FVPressure.assembler_tie.
  - exact Hdev.
  - intros fv eqIdx Hz. pose proof (Hdev fv eqIdx) as H. rewrite Hz in H. lra.
  - intros fv eqIdx B HM HC. rewrite Hdev, Qabs_Qmult, Qabs_opp.
    pose proof (OnePTwoC.blendDeviation_bound contiEqIdx transEqIdx upwindAlpha
                  upstreamIdx downstreamIdx curVolVars_ fv eqIdx B HM HC) as HB.
    fold blendDeviation in HB.
    pose proof (Qabs_nonneg (OnePTwoC.normalFlux fv)) as Hn.
    nra.
  - intros first eI densityI viscosityI isIndex isIt st.
    apply FVPressure.assembleInterior_gravity_term.
  - intros eI densityI viscosityI isIndex isIt st.
    apply (FVPressure.assembleInterior_gravity_term Fluid_density meanK2 two_norm gravity
             true eI densityI viscosityI isIndex isIt st).
    reflexivity.
  - intros first grid st e Hnd He.
    apply (FVPressure.assemble_row Fluid_density Fluid_viscosity meanK2 meanK1 two_norm
             gravity first grid st e Hnd He).
  - intros first st eI isIndex isIt Hn.
    apply FVPressure.faceRhs_interior. exact Hn.
Qed.

End Tie.

(** With full upwinding the upwinded mobility at a zero normal flux is
    the mobility of one control volume (here 1), not the mean of the
    two (here 2). *)
Example exTie_mobility :
  OnePTwoC.normalFlux (OnePTwoC.exFluxVars 0) == 0 /\
  OnePTwoC.upwindMobility 1
    (OnePTwoC.upOf OnePTwoC.upstreamIdx_sign OnePTwoC.exVolVars (OnePTwoC.exFluxVars 0))
    (OnePTwoC.dnOf OnePTwoC.downstreamIdx_sign OnePTwoC.exVolVars (OnePTwoC.exFluxVars 0))
  == 1 /\
  OnePTwoC.centralMobility (OnePTwoC.exVolVars 0%nat) (OnePTwoC.exVolVars 1%nat) == 2.
Proof. repeat split; vm_compute; reflexivity. Qed.

(** The upwind density of the assembler jumps at a potential of zero
    when the two densities differ: 1 on the positive side, 2 at zero. *)
Lemma upwindDensity_jump : ~ FVPressure.upwindDensityContinuousAtTie 1 3.
Proof.
  intros H. destruct (H (1#2)) as (delta & Hdelta & Hc); [reflexivity|].
  specialize (Hc (delta / 2)).
  assert (Hpos : 0 < delta / 2) by (apply Qlt_shift_div_l; lra).
  assert (Habs : Qabs (delta / 2) < delta).
  { rewrite Qabs_pos by lra.
    apply Qlt_shift_div_r; lra. }
  specialize (Hc Habs).
  unfold FVPressure.upwindDensity in Hc.
  destruct (Qeq_dec (delta / 2) 0) as [Hz|_]; [lra|].
  destruct (Qlt_le_dec 0 (delta / 2)) as [_|Hle]; [|lra].
  vm_compute in Hc. discriminate Hc.
Qed.

(** C3 fails for the upwinded quantity of [computeFlux], which at a zero
    normal flux is not the mean of the two control volumes, and for the
    continuity of the upwind density of the assembler. *)
Lemma tie_not_mean :
  ~ OnePTwoC.tieResolvesToMean 1 OnePTwoC.upstreamIdx_sign OnePTwoC.downstreamIdx_sign
      OnePTwoC.exVolVars /\
  ~ FVPressure.upwindDensityContinuousAtTie 1 3.
Proof.
  split; [|exact upwindDensity_jump].
  intros H. specialize (H (OnePTwoC.exFluxVars 0)).
  assert (Hz : OnePTwoC.normalFlux (OnePTwoC.exFluxVars 0) == 0)
    by (vm_compute; reflexivity).
  specialize (H Hz). vm_compute in H. discriminate H.
Qed.

(** Two cells of densities 1 and 3 on a line, with gravity along the
    line. *)
Definition exDensityT (temperature pressure : Q) : Q := 1 + temperature.

Definition exWarmCell : FVPressure.Entity :=
  FVPressure.MkEntity 1%nat [3#2] 1 2 0 0 [[1]].

Definition exTieCell0 : FVPressure.Element :=
  FVPressure.MkElement FVPressure.exCell0 [FVPressure.exInterior 1 1 exWarmCell].

Definition exTieGrid : FVPressure.GridView :=
  [ exTieCell0;
    FVPressure.MkElement exWarmCell [FVPressure.exInterior (-1) 1 FVPressure.exCell0] ].

(** At a zero normal flux [computeFlux] gives the central flux; in the
    first pass of the assembler the face between the two cells takes
    the mean density 2 into the gravity term, and the right-hand side of
    cell 0 after assembly is that term, -2. *)
Lemma tie_mean_density_central_flux_witness :
  OnePTwoC.normalFlux (OnePTwoC.exFluxVars 0) == 0 /\
  OnePTwoC.computeFluxAt 0%nat 1%nat 1 OnePTwoC.upstreamIdx_sign OnePTwoC.downstreamIdx_sign
    OnePTwoC.exVolVars (OnePTwoC.exFluxVars 0) 0%nat
  == OnePTwoC.centralFluxAt 0%nat 1%nat OnePTwoC.exVolVars (OnePTwoC.exFluxVars 0) 0%nat /\
  OnePTwoC.computeFluxAt 0%nat 1%nat 1 OnePTwoC.upstreamIdx_sign OnePTwoC.downstreamIdx_sign
    OnePTwoC.exVolVars (OnePTwoC.exFluxVars 0) 1%nat
  == OnePTwoC.centralFluxAt 0%nat 1%nat OnePTwoC.exVolVars (OnePTwoC.exFluxVars 0) 1%nat /\
  FVPressure.f_
    (FVPressure.assemble exDensityT FVPressure.exViscosity FVPressure.exMeanK2
       FVPressure.exMeanK1 FVPressure.exTwoNorm [1] true exTieGrid FVPressure.exState)
    (FVPressure.index (FVPressure.inside exTieCell0))
  == FVPressure.source (FVPressure.inside exTieCell0)
     / FVPressure.densityOf exDensityT (FVPressure.inside exTieCell0)
     * FVPressure.volume (FVPressure.inside exTieCell0)
     + FVPressure.faceSum
         (FVPressure.faceRhs exDensityT FVPressure.exViscosity FVPressure.exMeanK2
            FVPressure.exMeanK1 FVPressure.exTwoNorm [1] true FVPressure.exState
            (FVPressure.inside exTieCell0))
         0 (FVPressure.intersections exTieCell0) /\
  FVPressure.faceRhs exDensityT FVPressure.exViscosity FVPressure.exMeanK2
    FVPressure.exMeanK1 FVPressure.exTwoNorm [1] true FVPressure.exState
    FVPressure.exCell0 0 (FVPressure.exInterior 1 1 exWarmCell)
  == - ((FVPressure.densityOf exDensityT FVPressure.exCell0
         + FVPressure.densityOutside exDensityT (FVPressure.exInterior 1 1 exWarmCell)) / 2
        * (dot (FVPressure.interiorPermeability FVPressure.exMeanK2 FVPressure.exCell0
                  (FVPressure.viscosityOf FVPressure.exViscosity FVPressure.exCell0)
                  (FVPressure.exInterior 1 1 exWarmCell)) [1]
           * FVPressure.faceVolume (FVPressure.exInterior 1 1 exWarmCell))) /\
  FVPressure.f_
    (FVPressure.assemble exDensityT FVPressure.exViscosity FVPressure.exMeanK2
       FVPressure.exMeanK1 FVPressure.exTwoNorm [1] true exTieGrid FVPressure.exState)
    0%nat == -2.
Proof.
  assert (Hz : OnePTwoC.normalFlux (OnePTwoC.exFluxVars 0) == 0)
    by (vm_compute; reflexivity).
  pose proof (tie_mean_density_central_flux 0%nat 1%nat 1 OnePTwoC.upstreamIdx_sign
                OnePTwoC.downstreamIdx_sign OnePTwoC.exVolVars
                OnePTwoC.upstreamIdx_sign_pos OnePTwoC.upstreamIdx_sign_neg
                OnePTwoC.upstreamIdx_sign_tie exDensityT FVPressure.exTwoNorm
                [1] FVPressure.exViscosity FVPressure.exMeanK2 FVPressure.exMeanK1)
    as (_ & _ & _ & Htie & _ & _ & _ & Hrow & Hface).
  split; [exact Hz|]. split; [apply Htie; exact Hz|]. split; [apply Htie; exact Hz|].
  split; [|split].
  - apply (Hrow true exTieGrid FVPressure.exState exTieCell0).
    + apply (bool_decide_unpack _). vm_compute. exact I.
    + apply list_elem_of_here.
  - apply (Hface true FVPressure.exState FVPressure.exCell0 0%nat
             (FVPressure.exInterior 1 1 exWarmCell) eq_refl).
    reflexivity.
  - vm_compute. reflexivity.
Defined.

End UpwindTie.

(* ===================================================================== *)
(** ** eclalugridmanager.hh *)
(* ===================================================================== *)

Module EclAlu.
Section GridManager.

(** [Grid], [EquilGrid], [CartesianIndexMapper] and the deck
    ([eclState()]). *)
Variables Grid EquilGrid CartesianIndexMapper EclState : Type.

(** [Grid::dimension] *)
Variable dimension : nat.

(** The collaborators of [createGrids_].  [convert] takes the vector of
    cell ids by reference and may rewrite it. *)
Variable getPorv : EclState -> list Q.
Variable processEclipseFormat : EclState -> list Q -> EquilGrid.
Variable globalCell : EquilGrid -> list Z.
Variable logicalCartesianSize : EquilGrid -> nat -> Z.
Variable convert : EquilGrid -> list Z -> Grid * list Z.
Variable newCartesianIndexMapper : Grid -> (nat -> Z) -> list Z -> CartesianIndexMapper.

(** The free store, as far as the manager uses it: the objects that are
    alive with their addresses, the next address [new] hands out, and
    the addresses [delete] was called on, in order. *)
Inductive Object :=
| EquilGridObj (g : EquilGrid)
| GridObj (g : Grid)
| MapperObj (m : CartesianIndexMapper).

Record Heap := MkHeap {
  live : list (nat * Object);
  nextAddr : nat;
  deleted : list nat
}.

(** A pointer; [None] is the null pointer. *)
Definition Pointer := option nat.

Definition new (o : Object) (h : Heap) : Pointer * Heap :=
  (Some (nextAddr h), MkHeap ((nextAddr h, o) :: live h) (S (nextAddr h)) (deleted h)).

(** [delete p]; deleting the null pointer does nothing. *)
Definition delete (p : Pointer) (h : Heap) : Heap :=
  match p with
  | None => h
  | Some a => MkHeap (filter (fun ao => fst ao <> a) (live h)) (nextAddr h) (deleted h ++ [a])
  end.

(** [*p]; there is no object behind the null pointer or behind a
    deleted one. *)
Definition deref (h : Heap) (p : Pointer) : option Object :=
  a ← p; snd <$> head (filter (fun ao => fst ao = a) (live h)).

Record EclAluGridManager := MkMgr {
  grid_ : Pointer;
  equilGrid_ : Pointer;
  cartesianCellId_ : list Z;
  cartesianDimension_ : nat -> Z;
  cartesianIndexMapper_ : Pointer
}.

Definition State : Type := EclAluGridManager * Heap.

Definition createGrids_ (ecl : EclState) (s : State) : State :=
  let '(m, h) := s in
  let porv := getPorv ecl in
  let equilGrid := processEclipseFormat ecl porv in
  let '(pEquil, h1) := new (EquilGridObj equilGrid) h in
  let cartesianCellId := globalCell equilGrid in
  let cartesianDimension :=
    fold_left (fun d i => <[i := logicalCartesianSize equilGrid i]> d)
              (seq 0 dimension) (cartesianDimension_ m) in
  let '(grid, cartesianCellId') := convert equilGrid cartesianCellId in
  let '(pGrid, h2) := new (GridObj grid) h1 in
  let '(pMapper, h3) :=
    new (MapperObj (newCartesianIndexMapper grid cartesianDimension cartesianCellId')) h2 in
  (MkMgr pGrid pEquil cartesianCellId' cartesianDimension pMapper, h3).

Definition releaseEquilGrid (s : State) : State :=
  let '(m, h) := s in
  (MkMgr (grid_ m) None (cartesianCellId_ m) (cartesianDimension_ m)
         (cartesianIndexMapper_ m),
   delete (equilGrid_ m) h).

(** [~EclAluGridManager()]: what is left of the free store. *)
Definition destructor (s : State) : Heap :=
  let '(m, h) := s in
  delete (equilGrid_ m) (delete (grid_ m) (delete (cartesianIndexMapper_ m) h)).

Definition grid (s : State) : option Object := deref (snd s) (grid_ (fst s)).
Definition equilGrid (s : State) : option Object := deref (snd s) (equilGrid_ (fst s)).
Definition cartesianIndexMapper (s : State) : option Object :=
  deref (snd s) (cartesianIndexMapper_ (fst s)).

(** Every address in use lies below the next one [new] hands out. *)
Definition heapOK (h : Heap) : Prop :=
  forall ao, ao ∈ live h -> fst ao < nextAddr h.

(** *** Facts about the grid manager *)

Lemma filter_fresh (l : list (nat * Object)) a :
  (forall ao, ao ∈ l -> fst ao < a) ->
  forall b, a <= b -> filter (fun ao => fst ao <> b) l = l.
Proof.
  intros Hl b Hb. induction l as [|x l IH]; [reflexivity|].
  rewrite filter_cons. rewrite decide_True.
  - rewrite IH; [reflexivity|]. intros ao Hao. apply Hl. right. exact Hao.
  - pose proof (Hl x ltac:(left)). lia.
Qed.

Lemma filter_fresh_none (l : list (nat * Object)) a :
  (forall ao, ao ∈ l -> fst ao < a) ->
  forall b, a <= b -> filter (fun ao => fst ao = b) l = [].
Proof.
  intros Hl b Hb. induction l as [|x l IH]; [reflexivity|].
  rewrite filter_cons. rewrite decide_False.
  - apply IH. intros ao Hao. apply Hl. right. exact Hao.
  - pose proof (Hl x ltac:(left)). lia.
Qed.

Lemma filter_ne_here (a : nat) (o : Object) l :
  filter (fun ao => fst ao <> a) ((a, o) :: l) = filter (fun ao => fst ao <> a) l.
Proof.
  rewrite filter_cons. rewrite decide_False; [reflexivity|].
  intros H. apply H. reflexivity.
Qed.

Lemma filter_ne_other (a b : nat) (o : Object) l :
  b <> a ->
  filter (fun ao => fst ao <> a) ((b, o) :: l) = (b, o) :: filter (fun ao => fst ao <> a) l.
Proof. intros H. rewrite filter_cons. rewrite decide_True by exact H. reflexivity. Qed.

Lemma filter_eq_here (a : nat) (o : Object) l :
  filter (fun ao => fst ao = a) ((a, o) :: l) = (a, o) :: filter (fun ao => fst ao = a) l.
Proof. rewrite filter_cons. rewrite decide_True by reflexivity. reflexivity. Qed.

Lemma filter_eq_other (a b : nat) (o : Object) l :
  b <> a ->
  filter (fun ao => fst ao = a) ((b, o) :: l) = filter (fun ao => fst ao = a) l.
Proof. intros H. rewrite filter_cons. rewrite decide_False by exact H. reflexivity. Qed.

Lemma releaseEquilGrid_idempotent s :
  releaseEquilGrid (releaseEquilGrid s) = releaseEquilGrid s.
Proof. destruct s as [m h]. reflexivity. Qed.

Lemma releaseEquilGrid_iter k s :
  Nat.iter (S k) releaseEquilGrid s = releaseEquilGrid s.
Proof.
  induction k as [|k IH]; [reflexivity|].
  change (Nat.iter (S (S k)) releaseEquilGrid s)
    with (releaseEquilGrid (Nat.iter (S k) releaseEquilGrid s)).
  rewrite IH. apply releaseEquilGrid_idempotent.
Qed.

(** X22.  Every object [createGrids_] allocates is deleted exactly once.
    After [createGrids_], any number of calls of [releaseEquilGrid] and
    then the destructor, the free store holds what it held before
    [createGrids_], and [delete] has been called once on each of the
    three new addresses: the EQUIL grid is deleted by the first
    [releaseEquilGrid], which nulls the pointer, and the later
    [delete]s of that pointer do nothing. *)
Theorem createGrids_objects_deleted_once ecl m0 h0 k :
  heapOK h0 ->
  let n := nextAddr h0 in
  let h' := destructor (Nat.iter k releaseEquilGrid (createGrids_ ecl (m0, h0))) in
  live h' = live h0 /\
  deleted h' = deleted h0 ++ (match k with
                              | O => [S (S n); S n; n]
                              | S _ => [n; S (S n); S n]
                              end).
Proof.
  intros Hok n h'. subst h'.
  assert (Hfresh : forall b, n <= b -> filter (fun ao => fst ao <> b) (live h0) = live h0).
  { apply filter_fresh. exact Hok. }
  destruct k as [|k]; [|rewrite releaseEquilGrid_iter];
    unfold createGrids_, releaseEquilGrid, destructor, delete, new; cbv zeta;
    destruct (convert _ _) as [g ids]; cbn -[filter list_filter]; fold n;
    repeat (rewrite filter_ne_here || rewrite filter_ne_other by lia);
    rewrite !Hfresh by lia; rewrite <- !app_assoc; split; reflexivity.
Qed.

(** X23.  [releaseEquilGrid] takes the EQUIL grid away and nothing
    else.  After [createGrids_] the three accessors reach the objects
    that were built: the EQUIL grid read from the deck, the simulation
    grid converted from it, and the index mapper built from the
    simulation grid, the Cartesian sizes of the EQUIL grid and the cell
    ids as [convert] left them.  After [releaseEquilGrid] there is no
    object behind [equilGrid()], the simulation grid and the mapper are
    the same objects as before, and a second call changes nothing. *)
Theorem releaseEquilGrid_keeps_simulation_grid ecl m0 h0 :
  heapOK h0 ->
  let eg := processEclipseFormat ecl (getPorv ecl) in
  let s0 := createGrids_ ecl (m0, h0) in
  let s1 := releaseEquilGrid s0 in
  equilGrid s0 = Some (EquilGridObj eg) /\
  grid s0 = Some (GridObj (fst (convert eg (globalCell eg)))) /\
  cartesianIndexMapper s0
    = Some (MapperObj (newCartesianIndexMapper
                         (fst (convert eg (globalCell eg)))
                         (cartesianDimension_ (fst s0))
                         (snd (convert eg (globalCell eg))))) /\
  (forall i, i < dimension ->
     cartesianDimension_ (fst s0) i = logicalCartesianSize eg i) /\
  cartesianCellId_ (fst s0) = snd (convert eg (globalCell eg)) /\
  equilGrid s1 = None /\
  grid s1 = grid s0 /\
  cartesianIndexMapper s1 = cartesianIndexMapper s0 /\
  releaseEquilGrid s1 = s1.
Proof.
  intros Hok eg s0 s1. subst s1 s0.
  assert (Hnone : forall b, nextAddr h0 <= b -> filter (fun ao => fst ao = b) (live h0) = []).
  { apply filter_fresh_none. exact Hok. }
  unfold equilGrid, grid, cartesianIndexMapper, createGrids_. cbv zeta. fold eg.
  unfold releaseEquilGrid, deref, delete, new.
  destruct (convert eg (globalCell eg)) as [g ids]. cbn -[filter list_filter].
  set (n := nextAddr h0) in *.
  repeat first [rewrite filter_ne_here | rewrite filter_ne_other by lia
               | rewrite filter_eq_here | rewrite filter_eq_other by lia].
  rewrite ?Hnone by lia. cbn -[filter list_filter].
  split; [reflexivity|]. split; [reflexivity|]. split; [reflexivity|].
  split; [|repeat split].
  intros i Hi.
  assert (Hfold : forall l d, NoDup l ->
            fold_left (fun d i => <[i := logicalCartesianSize eg i]> d) l d i
            = if decide (i ∈ l) then logicalCartesianSize eg i else d i).
  { induction l as [|a l IH]; intros d Hnd; cbn [fold_left].
    - rewrite decide_False; [reflexivity|]. intros H. inversion H.
    - apply list.NoDup_cons in Hnd as [Hnotin Hnd]. rewrite IH by exact Hnd.
      destruct (decide (i ∈ l)) as [Hin|Hnin].
      + rewrite decide_True by (right; exact Hin). reflexivity.
      + unfold insert, fn_insert. destruct (decide (a = i)) as [->|Hne].
        * rewrite decide_True by left. reflexivity.
        * rewrite decide_False; [reflexivity|].
          intros H. apply elem_of_cons in H as [H|H]; [congruence|contradiction]. }
  rewrite Hfold by apply NoDup_seq.
  rewrite decide_True; [reflexivity|]. apply elem_of_seq. lia.
Qed.

End GridManager.

(** *** A concrete deck

    Grids are numbers; the deck is the number of cells. *)
Definition exHeap : Heap nat nat nat := MkHeap nat nat nat [] 0 [].
Definition exManager : EclAluGridManager := MkMgr None None [] (fun _ => 0%Z) None.

Lemma createGrids_objects_deleted_once_witness :
  live nat nat nat
    (destructor nat nat nat
       (Nat.iter 2 (releaseEquilGrid nat nat nat)
          (createGrids_ nat nat nat nat 3 (fun _ => []) (fun ecl _ => ecl)
             (fun g => []) (fun g _ => Z.of_nat g) (fun g ids => (g, ids))
             (fun g _ _ => g) 4 (exManager, exHeap))))
    = live nat nat nat exHeap /\
  deleted nat nat nat
    (destructor nat nat nat
       (Nat.iter 2 (releaseEquilGrid nat nat nat)
          (createGrids_ nat nat nat nat 3 (fun _ => []) (fun ecl _ => ecl)
             (fun g => []) (fun g _ => Z.of_nat g) (fun g ids => (g, ids))
             (fun g _ _ => g) 4 (exManager, exHeap))))
    = deleted nat nat nat exHeap ++ [0; 2; 1].
Proof.
  apply (createGrids_objects_deleted_once nat nat nat nat 3 (fun _ => []) (fun ecl _ => ecl)
           (fun g => []) (fun g _ => Z.of_nat g) (fun g ids => (g, ids))
           (fun g _ _ => g) 4 exManager exHeap 2).
  intros ao Hao. inversion Hao.
Defined.

Lemma releaseEquilGrid_keeps_simulation_grid_witness :
  equilGrid nat nat nat
    (releaseEquilGrid nat nat nat
       (createGrids_ nat nat nat nat 3 (fun _ => []) (fun ecl _ => ecl)
          (fun g => []) (fun g _ => Z.of_nat g) (fun g ids => (g, ids))
          (fun g _ _ => g) 4 (exManager, exHeap))) = None /\
  grid nat nat nat
    (releaseEquilGrid nat nat nat
       (createGrids_ nat nat nat nat 3 (fun _ => []) (fun ecl _ => ecl)
          (fun g => []) (fun g _ => Z.of_nat g) (fun g ids => (g, ids))
          (fun g _ _ => g) 4 (exManager, exHeap)))
  = grid nat nat nat
      (createGrids_ nat nat nat nat 3 (fun _ => []) (fun ecl _ => ecl)
         (fun g => []) (fun g _ => Z.of_nat g) (fun g ids => (g, ids))
         (fun g _ _ => g) 4 (exManager, exHeap)).
Proof.
  destruct (releaseEquilGrid_keeps_simulation_grid nat nat nat nat 3 (fun _ => [])
              (fun ecl _ => ecl) (fun g => []) (fun g _ => Z.of_nat g)
              (fun g ids => (g, ids)) (fun g _ _ => g) 4 exManager exHeap)
    as (_ & _ & _ & _ & _ & Hnone & Hgrid & _).
  - intros ao Hao. inversion Hao.
  - split; [exact Hnone|exact Hgrid].
Defined.

End EclAlu.
